(** * LRU proxy server: a shallow embedding of [lru_proxy_with_cache.c]

    The development follows the C source function by function: the cache
    ([find_in_cache], [remove_lru_element], [add_to_cache]), the work queue
    ([enqueue_request], [dequeue_request]), the error emitter
    ([sendErrorMessage]), the parser of [proxy_parse.c]
    ([ParsedRequest_parse]), the handler ([handle_request_optimized]), the
    loop body of [worker_thread] and the accept path of [main]. The facts
    follow the definitions.

    - C strings are byte lists read up to their first NUL ([cstr]); the
      [string.h] functions used by the proxy are defined on them.
    - The recency list [cache_head ... cache_tail] is the Rocq list of its
      elements from head to tail; a node "pointer" is a position in it, and
      the [prev]/[next] links are the neighbourhood in that list.
    - Everything the operating system decides (what [recv], [send], [malloc],
      [time] and [connect] return) is an explicit input: one-shot outcomes sit
      in a record, repeated calls consume a script.
    - What a run does to the outside world is recorded as a list of events.
    - [int] variables are integers of [Z]. Where C stores a value in an [int]
      (a conversion from [size_t] or [ssize_t], an increment, a sum), the
      two's-complement wrap-around [to_int] is written out; [long] counters
      wrap with [to_long].
    - A call that reads or writes outside an object, or hands a NULL pointer
      to a string function, has no defined result: the functions in which this
      can happen return an [outcome], which is [Undefined] then.
    - Functions are read sequentially, one thread at a time. The admission
      counter is also studied under interleaving, as a step relation over the
      statements of the acceptor and the workers.
    - The connection pool is not modelled: [connectRemoteServer] is an
      outcome. *)

From Stdlib Require Import ZArith Lia List Ascii String DecimalString.
From stdpp Require Import list strings relations.

Local Open Scope Z_scope.

Abbreviation bytes := (list ascii).

(** ** Compile-time constants ([#define]s of the source) *)

Definition MAX_BYTES : Z := 8192.
Definition MAX_CLIENTS : Z := 1200.
Definition THREAD_POOL_SIZE : Z := 50.
Definition MAX_SIZE : Z := 200 * Z.shiftl 1 20.
Definition MAX_ELEMENT_SIZE : Z := 10 * Z.shiftl 1 20.
Definition QUEUE_SIZE : Z := 2000.
Definition CONNECTION_TIMEOUT : Z := 30.

(** [sizeof(cache_element)] on an LP64 target: four pointers ([data], [url],
    [next], [prev]: 4 x 8), two [time_t] (2 x 8) and two [int] ([len],
    [access_count]), each padded to 8. *)
Definition sizeof_cache_element : Z := 64.

Definition INT_MIN : Z := - 2 ^ 31.
Definition INT_MAX : Z := 2 ^ 31 - 1.
Definition LONG_MIN : Z := - 2 ^ 63.
Definition LONG_MAX : Z := 2 ^ 63 - 1.

(** Conversion of an integer value to a 32-bit [int] (two's complement). *)
Definition to_int (z : Z) : Z := (z + 2 ^ 31) mod 2 ^ 32 - 2 ^ 31.

(** The same for the 64-bit [long] and for [size_t]. *)
Definition to_long (z : Z) : Z := (z + 2 ^ 63) mod 2 ^ 64 - 2 ^ 63.
Definition to_size_t (z : Z) : Z := z mod 2 ^ 64.

(** ** Calls without a defined result *)

(** What a call yields: a result, or nothing the language defines (the call
    reads or writes outside an object, or passes NULL where a string is
    required). *)
Inductive outcome (A : Type) : Type :=
| Returns (a : A)
| Undefined.

Arguments Returns {A} a.
Arguments Undefined {A}.

Definition and_then {A B : Type} (m : outcome A) (k : A -> outcome B) : outcome B :=
  match m with
  | Returns a => k a
  | Undefined => Undefined
  end.

Notation "'let*' x ':=' m 'in' k" := (and_then m (fun x => k))
  (at level 10, x pattern, m at level 100, k at level 200).

(** ** C strings *)

Definition NUL : ascii := Ascii.zero.
Definition byte_val (c : ascii) : Z := Z.of_N (N_of_ascii c).
Definition lit (s : string) : bytes := list_ascii_of_string s.

(** The string stored at [b]: the bytes before the first NUL. Memory past the
    end of the list reads as NUL. *)
Fixpoint cstr (b : bytes) : bytes :=
  match b with
  | [] => []
  | c :: r => if Ascii.eqb c NUL then [] else c :: cstr r
  end.

Definition strlen (b : bytes) : Z := Z.of_nat (length (cstr b)).

Definition strdup (b : bytes) : bytes := cstr b.

Fixpoint strcmp (a b : bytes) : Z :=
  match a, b with
  | [], [] => 0
  | [], d :: _ => - byte_val d
  | c :: _, [] => byte_val c
  | c :: a', d :: b' =>
      if Ascii.eqb c d then (if Ascii.eqb c NUL then 0 else strcmp a' b')
      else byte_val c - byte_val d
  end.

(** [strncmp(a, b, n) == 0] *)
Fixpoint strncmp_eq (a b : bytes) (n : nat) : bool :=
  match n with
  | O => true
  | S n' =>
      match a, b with
      | [], [] => true
      | [], d :: _ => Ascii.eqb d NUL
      | c :: _, [] => Ascii.eqb c NUL
      | c :: a', d :: b' =>
          Ascii.eqb c d && (Ascii.eqb c NUL || strncmp_eq a' b' n')
      end
  end.

Fixpoint starts_with (needle hay : bytes) : bool :=
  match needle, hay with
  | [], _ => true
  | _ :: _, [] => false
  | c :: n', d :: h' => Ascii.eqb c d && starts_with n' h'
  end.

Fixpoint find_sub (needle hay : bytes) : option nat :=
  if starts_with needle hay then Some 0%nat
  else match hay with
       | [] => None
       | _ :: h' => S <$> find_sub needle h'
       end.

(** [strstr(hay, needle)]: offset of the first occurrence, [None] for NULL. *)
Definition strstr (hay needle : bytes) : option nat :=
  find_sub (cstr needle) (cstr hay).

Fixpoint find_char (c : ascii) (s : bytes) : option nat :=
  match s with
  | [] => None
  | d :: r => if Ascii.eqb d c then Some 0%nat else S <$> find_char c r
  end.

(** [strchr(s, c)] for a character [c] other than NUL. *)
Definition strchr (s : bytes) (c : ascii) : option nat := find_char c (cstr s).

(** Writing [d] into the buffer [buf] at offset [off] ([recv] into
    [buf + off], [memcpy]); the other bytes of the buffer stay. *)
Definition write_at (off : Z) (d buf : bytes) : bytes :=
  take (Z.to_nat off) buf ++ d ++ drop (Z.to_nat off + length d)%nat buf.

(** ** The LRU cache *)

Record cache_element := {
  data : bytes;          (* response data *)
  len : Z;               (* length of data *)
  url : bytes;           (* request (key) *)
  lru_time_track : Z;    (* LRU timestamp *)
  creation_time : Z;
  access_count : Z
}.

(** [cache_head], [cache_tail] and [cache_size]. *)
Record cache_state := {
  cache_list : list cache_element;
  cache_size : Z
}.

Definition cache_head (c : cache_state) : option cache_element := head (cache_list c).
Definition cache_tail (c : cache_state) : option cache_element := last (cache_list c).

Definition empty_cache : cache_state := {| cache_list := []; cache_size := 0 |}.

Record stats_t := {
  total_requests : Z;
  cache_hits : Z;
  cache_misses : Z;
  bytes_served : Z
}.

(** The counters are [long]: [stats.cache_hits++], [stats.cache_misses++],
    and [stats.bytes_served += total_received; stats.total_requests++]. *)
Definition hit (s : stats_t) : stats_t :=
  {| total_requests := total_requests s; cache_hits := to_long (cache_hits s + 1);
     cache_misses := cache_misses s; bytes_served := bytes_served s |}.

Definition miss (s : stats_t) : stats_t :=
  {| total_requests := total_requests s; cache_hits := cache_hits s;
     cache_misses := to_long (cache_misses s + 1); bytes_served := bytes_served s |}.

Definition served (n : Z) (s : stats_t) : stats_t :=
  {| total_requests := to_long (total_requests s + 1); cache_hits := cache_hits s;
     cache_misses := cache_misses s; bytes_served := to_long (bytes_served s + n) |}.

(** The walk of [find_in_cache] from [cache_head] along [next]: position of
    the first element whose [url] compares equal. *)
Fixpoint cache_walk (u : bytes) (l : list cache_element) : option nat :=
  match l with
  | [] => None
  | current :: rest =>
      if strcmp (url current) u =? 0 then Some 0%nat
      else S <$> cache_walk u rest
  end.

(** [current->lru_time_track = time(NULL); current->access_count++], the
    count being an [int]. *)
Definition touch (now : Z) (e : cache_element) : cache_element :=
  {| data := data e; len := len e; url := url e;
     lru_time_track := now; creation_time := creation_time e;
     access_count := to_int (access_count e + 1) |}.

(** [find_in_cache(url)]: the element returned (as it reads after the update),
    the cache and the statistics afterwards. [now] is what [time(NULL)]
    returns. No other thread runs between the unlock and the write lock, so
    the second comparison sees the element the walk stopped at. *)
Definition find_in_cache (now : Z) (u : bytes) (c : cache_state) (s : stats_t)
  : option cache_element * cache_state * stats_t :=
  match cache_walk u (cache_list c) with
  | None => (None, c, miss s)
  | Some i =>
      match cache_list c !! i with
      | None => (None, c, s)
      | Some current =>
          if strcmp (url current) u =? 0 then
            let current' := touch now current in
            let l' :=
              if decide (i = 0%nat) then <[0%nat := current']> (cache_list c)
              else current' :: delete i (cache_list c) in
            (Some current', {| cache_list := l'; cache_size := cache_size c |}, hit s)
          else (None, c, s)
      end
  end.

(** The scan of [remove_lru_element] from [cache_tail] along [prev]:
    [chain] is what is left to visit, positions attached. *)
Fixpoint lru_scan (chain : list (nat * cache_element)) (oldest_time : Z)
    (lru : nat * cache_element) : nat * cache_element :=
  match chain with
  | [] => lru
  | current :: rest =>
      if lru_time_track (snd current) <? oldest_time
      then lru_scan rest (lru_time_track (snd current)) current
      else lru_scan rest oldest_time lru
  end.

Definition prev_chain (l : list cache_element) : list (nat * cache_element) :=
  reverse (imap pair l).

Definition entry_bytes (e : cache_element) : Z :=
  len e + strlen (url e) + sizeof_cache_element.

Definition remove_lru_element (c : cache_state) : cache_state :=
  match prev_chain (cache_list c) with
  | [] => c
  | tail :: _ =>
      let lru := lru_scan (prev_chain (cache_list c)) (lru_time_track (snd tail)) tail in
      {| cache_list := delete (fst lru) (cache_list c);
         cache_size := to_int (cache_size c - entry_bytes (snd lru)) |}
  end.

(** The eviction loop of [add_to_cache]. Every turn unlinks one element, so
    the length of the list bounds the number of turns. *)
Fixpoint make_space_loop (turns : nat) (element_size : Z) (c : cache_state) : cache_state :=
  match turns with
  | O => c
  | S turns' =>
      if (to_int (cache_size c + element_size) >? MAX_SIZE)
         && bool_decide (is_Some (cache_tail c))
      then make_space_loop turns' element_size (remove_lru_element c)
      else c
  end.

Definition make_space (element_size : Z) (c : cache_state) : cache_state :=
  make_space_loop (length (cache_list c)) element_size c.

(** Outcomes of the calls [add_to_cache] makes: the three [malloc]s and the
    two readings of [time(NULL)]. *)
Record add_env := {
  malloc_element : bool;
  malloc_data : bool;
  malloc_url : bool;
  time_lru : Z;
  time_creation : Z
}.

(** The element [add_to_cache] fills in: [size] bytes copied from [d] (the
    object [data] points to), the key copied by [strcpy], both timestamps,
    the count set to one. *)
Definition new_element (o : add_env) (d : bytes) (size : Z) (u : bytes) : cache_element :=
  {| data := take (Z.to_nat size) d; len := size; url := cstr u;
     lru_time_track := time_lru o; creation_time := time_creation o;
     access_count := 1 |}.

(** [add_to_cache(data, size, url)]. [malloc(size + 1)] cannot succeed when
    [size + 1] is negative (it converts to a [size_t] beyond any object), and
    [memcpy(element->data, data, size)] has a defined result only when [size]
    is not negative and [data] holds that many bytes. *)
Definition add_to_cache (o : add_env) (d : bytes) (size : Z) (u : bytes)
    (c : cache_state) : outcome (Z * cache_state) :=
  let element_size := to_int (size + strlen u + sizeof_cache_element) in
  if element_size >? MAX_ELEMENT_SIZE then Returns (0, c)
  else
    let c1 := make_space element_size c in
    if negb (malloc_element o) then Returns (0, c1)
    else if negb (malloc_data o && (0 <=? to_int (size + 1))) || negb (malloc_url o)
    then Returns (0, c1)
    else if (size <? 0) || (Z.of_nat (length d) <? size) then Undefined
    else
      let element := new_element o d size u in
      Returns (1, {| cache_list := element :: cache_list c1;
                     cache_size := to_int (cache_size c1 + element_size) |}).

(** ** The work queue *)

Record work_item := {
  client_socket : Z;
  client_addr : Z        (* the peer address, informational only *)
}.

(** [request_queue]: the items from [head] to [tail]; [count] is the number
    of items linked. *)
Abbreviation work_queue := (list work_item).

Definition count (q : work_queue) : Z := Z.of_nat (length q).

Inductive dequeue_result :=
| DequeueWait                                        (* sleeps on [not_empty] *)
| DequeueReturn (item : option work_item) (q : work_queue).

(** [dequeue_request()], one pass from a wake-up to the next sleep or to the
    return. The flag is only ever cleared, so [server_running] stands for the
    value the last test of the pass reads. *)
Definition dequeue_request (q : work_queue) (server_running : bool) : dequeue_result :=
  if (count q =? 0) && server_running then DequeueWait
  else if negb server_running then DequeueReturn None q
  else match q with
       | [] => DequeueWait
       | item :: rest => DequeueReturn (Some item) rest
       end.

Inductive enqueue_result :=
| EnqueueDropped                                     (* [malloc] failed: socket closed *)
| EnqueueWait                                        (* sleeps on [not_full] *)
| EnqueueDone (q : work_queue).

Definition enqueue_request (malloc_item : bool) (item : work_item) (q : work_queue)
  : enqueue_result :=
  if negb malloc_item then EnqueueDropped
  else if count q >=? QUEUE_SIZE then EnqueueWait
  else EnqueueDone (q ++ [item]).

(** ** What the proxy does to the outside world *)

Inductive event :=
| EvSend (fd : Z) (payload : bytes) (ret : Z)   (* [send] on a client socket and its result *)
| EvSendUpstream (fd : Z) (payload : bytes) (ret : Z) (* the forwarded request *)
| EvConnect (host : bytes) (port : Z) (ret : Z) (* [connectRemoteServer] *)
| EvReturnPooled (fd : Z)                       (* [return_pooled_connection] *)
| EvShutdown (fd : Z)
| EvClose (fd : Z)
| EvLock                                        (* [connection_limit_mutex] *)
| EvDecrement                                   (* [active_connection_count--] *)
| EvSignal                                      (* [connection_available] *)
| EvUnlock.

(** Successive results of [recv] on one socket. A script that has run out
    reads as an orderly close by the peer. *)
Inductive rx :=
| RxData (payload : bytes)
| RxError.

Definition recv (script : list rx) (max : Z) : Z * bytes * list rx :=
  match script with
  | [] => (0, [], [])
  | RxError :: rest => (-1, [], rest)
  | RxData d :: rest =>
      let got := take (Z.to_nat max) d in (Z.of_nat (length got), got, rest)
  end.

(** Successive results of [send] on the client socket; a script that has run
    out reads as a failed call. *)
Definition send_result (script : list Z) : Z * list Z :=
  match script with
  | [] => (-1, [])
  | r :: rest => (r, rest)
  end.

(** ** The error response emitter *)

Definition status_line (status_code : Z) : option (bytes * bytes) :=
  if status_code =? 400 then
    Some (lit "Bad Request",
          lit "<HTML><HEAD><TITLE>400 Bad Request</TITLE></HEAD>
<BODY><H1>400 Bad Request</H1>
</BODY></HTML>")
  else if status_code =? 403 then
    Some (lit "Forbidden",
          lit "<HTML><HEAD><TITLE>403 Forbidden</TITLE></HEAD>
<BODY><H1>403 Forbidden</H1><br>Permission Denied
</BODY></HTML>")
  else if status_code =? 404 then
    Some (lit "Not Found",
          lit "<HTML><HEAD><TITLE>404 Not Found</TITLE></HEAD>
<BODY><H1>404 Not Found</H1>
</BODY></HTML>")
  else if status_code =? 500 then
    Some (lit "Internal Server Error",
          lit "<HTML><HEAD><TITLE>500 Internal Server Error</TITLE></HEAD>
<BODY><H1>500 Internal Server Error</H1>
</BODY></HTML>")
  else if status_code =? 501 then
    Some (lit "Not Implemented",
          lit "<HTML><HEAD><TITLE>501 Not Implemented</TITLE></HEAD>
<BODY><H1>501 Not Implemented</H1>
</BODY></HTML>")
  else if status_code =? 505 then
    Some (lit "HTTP Version Not Supported",
          lit "<HTML><HEAD><TITLE>505 HTTP Version Not Supported</TITLE></HEAD>
<BODY><H1>505 HTTP Version Not Supported</H1>
</BODY></HTML>")
  else None.

Definition CR : ascii := ascii_of_nat 13.
Definition LF : ascii := ascii_of_nat 10.
Definition CRLF : bytes := [CR; LF].

(** [%d] *)
Definition decimal (z : Z) : bytes := lit (NilZero.string_of_int (Z.to_int z)).

Definition error_message (status_code : Z) (status_text html_content currentTime : bytes)
  : bytes :=
  lit "HTTP/1.1 " ++ decimal status_code ++ lit " " ++ status_text ++ CRLF ++
  lit "Content-Length: " ++ decimal (strlen html_content) ++ CRLF ++
  lit "Content-Type: text/html" ++ CRLF ++
  lit "Connection: keep-alive" ++ CRLF ++
  lit "Date: " ++ cstr currentTime ++ CRLF ++
  lit "Server: HighPerformanceProxy/2.0" ++ CRLF ++
  CRLF ++ html_content.

(** The text [snprintf] leaves in [str], for a status the [switch] knows. *)
Definition error_page (status_code : Z) (currentTime : bytes) : option bytes :=
  match status_line status_code with
  | None => None
  | Some (status_text, html_content) =>
      Some (cstr (take 2047 (error_message status_code status_text html_content
                               currentTime)))
  end.

(** [sendErrorMessage(socket, status_code)]: its return value, the events and
    what is left of the send script. [currentTime] is the formatted date. *)
Definition sendErrorMessage (socket status_code : Z) (currentTime : bytes) (tx : list Z)
  : Z * list event * list Z :=
  match error_page status_code currentTime with
  | None => (-1, [], tx)
  | Some str =>
      let '(ret, tx') := send_result tx in
      (ret, [EvSend socket str ret], tx')
  end.

(** ** The acceptor *)

Record proxy_state := {
  cache : cache_state;
  stats : stats_t;
  active_connection_count : Z;
  request_queue : work_queue;
  server_running : bool
}.

Definition with_cache (c : cache_state) (s : stats_t) (p : proxy_state) : proxy_state :=
  {| cache := c; stats := s;
     active_connection_count := active_connection_count p;
     request_queue := request_queue p; server_running := server_running p |}.

Definition with_active (n : Z) (p : proxy_state) : proxy_state :=
  {| cache := cache p; stats := stats p; active_connection_count := n;
     request_queue := request_queue p; server_running := server_running p |}.

Definition with_queue (q : work_queue) (p : proxy_state) : proxy_state :=
  {| cache := cache p; stats := stats p;
     active_connection_count := active_connection_count p;
     request_queue := q; server_running := server_running p |}.

Inductive accept_outcome :=
| AcceptRefused      (* over the limit: [continue] without enqueueing *)
| AcceptQueued       (* counted and linked into the queue *)
| AcceptDropped      (* counted, but [enqueue_request] could not allocate *)
| AcceptBlocked.     (* counted, [enqueue_request] sleeps on [not_full] *)

(** The body of the main loop once [accept] has returned [client_socket]. *)
Definition accept_connection (malloc_item : bool) (currentTime : bytes) (tx : list Z)
    (item : work_item) (p : proxy_state) : accept_outcome * list event * proxy_state :=
  if active_connection_count p >=? MAX_CLIENTS then
    let '(_, evs, _) := sendErrorMessage (client_socket item) 503 currentTime tx in
    (AcceptRefused, [EvLock; EvUnlock] ++ evs ++ [EvClose (client_socket item)], p)
  else
    let p1 := with_active (active_connection_count p + 1) p in
    match enqueue_request malloc_item item (request_queue p1) with
    | EnqueueDropped =>
        (AcceptDropped, [EvLock; EvUnlock; EvClose (client_socket item)], p1)
    | EnqueueWait => (AcceptBlocked, [EvLock; EvUnlock], p1)
    | EnqueueDone q => (AcceptQueued, [EvLock; EvUnlock], with_queue q p1)
    end.

(** ** The request parser ([proxy_parse.c]) *)

Record ParsedRequest := {
  method : option bytes;
  protocol : option bytes;
  host : option bytes;
  port : option bytes;
  path : option bytes;
  version : option bytes;
  headers : list (bytes * bytes)     (* name, value; most recently parsed first *)
}.

Definition isspace (c : ascii) : bool :=
  let n := byte_val c in (n =? 32) || ((9 <=? n) && (n <=? 13)).

Definition tolower (c : ascii) : ascii :=
  let n := byte_val c in
  if (65 <=? n) && (n <=? 90) then ascii_of_N (Z.to_N (n + 32)) else c.

(** [strcasecmp(a, b) == 0] *)
Definition strcasecmp_eq (a b : bytes) : bool :=
  strcmp (tolower <$> a) (tolower <$> b) =? 0.

Fixpoint skip_space (s : bytes) : bytes :=
  match s with
  | c :: r => if isspace c then skip_space r else s
  | [] => []
  end.

Definition trim_whitespace (str : bytes) : bytes :=
  rev (skip_space (rev (skip_space (cstr str)))).

(** The end of the line that starts at [s]: the line and what follows its
    terminator, ["\r\n"] tried before ["\n"]. *)
Definition split_line (s : bytes) : option (bytes * bytes) :=
  match strstr s CRLF with
  | Some i => Some (take i s, drop (i + 2) s)
  | None =>
      match strstr s [LF] with
      | Some i => Some (take i s, drop (i + 1) s)
      | None => None
      end
  end.

Definition COLON : ascii := ":"%char.
Definition SLASH : ascii := "/"%char.
Definition SPACE : ascii := " "%char.

(** Outcomes of the allocations the parser makes, one flag for each place
    of the source (the places that share a flag lie on branches that exclude
    each other). [header_allocs] holds, for each header line with a colon in
    turn, the [malloc] and the two [strdup]s of [ParsedHeader_create]; once
    the list has run out every allocation succeeds. *)
Record parse_env := {
  malloc_buf : bool;                (* [pr->buf] *)
  strdup_method : bool;
  strdup_url : bool;                (* the local copy [url] *)
  strdup_protocol : bool;
  strdup_host : bool;               (* the host of an absolute URL *)
  strdup_port : bool;               (* its port, or ["80"] *)
  strdup_path : bool;
  strdup_version : bool;
  header_allocs : list (bool * bool * bool);
  strdup_header_host : bool;        (* the host taken from the [Host] header *)
  strdup_header_port : bool         (* its port, or ["80"] *)
}.

(** The result of a [strdup] that may fail: the copy, or NULL. *)
Definition strdup_or_null (ok : bool) (s : bytes) : option bytes :=
  if ok then Some (strdup s) else None.

(** [ParsedHeader_create(name, value)]: NULL when the [malloc] or one of the
    two [strdup]s fails. *)
Definition ParsedHeader_create (a : bool * bool * bool) (name value : bytes)
  : option (bytes * bytes) :=
  let '(malloc_ph, strdup_name, strdup_value) := a in
  if malloc_ph && strdup_name && strdup_value then Some (strdup name, strdup value)
  else None.

(** The header loop; each turn consumes at least the line terminator, so the
    length of the text bounds the number of turns. A header that could not
    be allocated is left out. *)
Fixpoint parse_headers (turns : nat) (line_start : bytes) (allocs : list (bool * bool * bool))
    (hs : list (bytes * bytes)) : list (bytes * bytes) :=
  match turns with
  | O => hs
  | S turns' =>
      match line_start with
      | [] => hs
      | _ :: _ =>
          match split_line line_start with
          | None => hs
          | Some (line, line_end) =>
              if strlen line =? 0 then hs
              else
                match strchr line COLON with
                | Some sep =>
                    let header :=
                      ParsedHeader_create (default (true, true, true) (head allocs))
                        (trim_whitespace (take sep line))
                        (trim_whitespace (drop (S sep) line)) in
                    parse_headers turns' line_end (tail allocs)
                      match header with
                      | Some h => h :: hs
                      | None => hs
                      end
                | None => parse_headers turns' line_end allocs hs
                end
          end
      end
  end.

Fixpoint ParsedRequest_getHeader (hs : list (bytes * bytes)) (name : bytes) : option bytes :=
  match hs with
  | [] => None
  | (n, v) :: rest => if strcasecmp_eq n name then Some v else ParsedRequest_getHeader rest name
  end.

(** [ParsedRequest_parse(pr, buf, buflen)] on a request object that was
    allocated: [Returns None] for the return value [-1], [Returns (Some pr)]
    with the filled request for [0]. A field whose [strdup] failed is NULL
    ([None]) in a request that is returned all the same. The result is
    undefined when [memcpy] would read more than [buf] holds, and when the
    copy [url] is NULL, which [strncmp] is handed next. *)
Definition ParsedRequest_parse (o : parse_env) (buf : bytes) (buflen : Z)
  : outcome (option ParsedRequest) :=
  if buflen <=? 0 then Returns None
  else if negb (malloc_buf o) then Returns None
  else if Z.of_nat (length buf) <? buflen then Undefined
  else
    let text := cstr (take (Z.to_nat buflen) buf) in
    match split_line text with
    | None => Returns None
    | Some (line, line_end) =>
        match strchr line SPACE with
        | None => Returns None
        | Some method_end =>
            let path_start := drop (S method_end) line in
            match strchr path_start SPACE with
            | None => Returns None
            | Some path_end =>
                if negb (strdup_url o) then Undefined
                else
                let u := take path_end path_start in
                let version_start := drop (S path_end) path_start in
                let '(proto, h, po, pa) :=
                  if strncmp_eq u (lit "http://") 7 then
                    let host_start := drop 7 u in
                    let host_end := strchr host_start SLASH in
                    let port_start := strchr host_start COLON in
                    match port_start, host_end with
                    | Some c, None =>
                        (strdup_or_null (strdup_protocol o) (lit "http"),
                         strdup_or_null (strdup_host o) (take c host_start),
                         strdup_or_null (strdup_port o) (drop (S c) host_start),
                         strdup_or_null (strdup_path o) (lit "/"))
                    | Some c, Some e =>
                        if (c <? e)%nat then
                          (strdup_or_null (strdup_protocol o) (lit "http"),
                           strdup_or_null (strdup_host o) (take c host_start),
                           strdup_or_null (strdup_port o)
                             (take (e - S c) (drop (S c) host_start)),
                           strdup_or_null (strdup_path o) (drop (S e) host_start))
                        else
                          (strdup_or_null (strdup_protocol o) (lit "http"),
                           strdup_or_null (strdup_host o) (take e host_start),
                           strdup_or_null (strdup_port o) (lit "80"),
                           strdup_or_null (strdup_path o) (drop (S e) host_start))
                    | None, Some e =>
                        (strdup_or_null (strdup_protocol o) (lit "http"),
                         strdup_or_null (strdup_host o) (take e host_start),
                         strdup_or_null (strdup_port o) (lit "80"),
                         strdup_or_null (strdup_path o) (drop (S e) host_start))
                    | None, None =>
                        (strdup_or_null (strdup_protocol o) (lit "http"),
                         strdup_or_null (strdup_host o) host_start,
                         strdup_or_null (strdup_port o) (lit "80"),
                         strdup_or_null (strdup_path o) (lit "/"))
                    end
                  else (None, None, None, strdup_or_null (strdup_path o) u) in
                let hs := parse_headers (length line_end) line_end (header_allocs o) [] in
                let '(h', po') :=
                  match h with
                  | Some _ => (h, po)
                  | None =>
                      match ParsedRequest_getHeader hs (lit "Host") with
                      | None => (h, po)
                      | Some host_header =>
                          match strchr host_header COLON with
                          | Some sep =>
                              (strdup_or_null (strdup_header_host o) (take sep host_header),
                               strdup_or_null (strdup_header_port o)
                                 (drop (S sep) host_header))
                          | None =>
                              (strdup_or_null (strdup_header_host o) host_header,
                               match po with
                               | Some _ => po
                               | None => strdup_or_null (strdup_header_port o) (lit "80")
                               end)
                          end
                      end
                  end in
                Returns (Some {| method := strdup_or_null (strdup_method o)
                                             (take method_end line);
                                 protocol := proto; host := h'; port := po'; path := pa;
                                 version := strdup_or_null (strdup_version o) version_start;
                                 headers := hs |})
            end
        end
    end.

(** [atoi] as the C library of the target computes it: [strtol] (blanks, an
    optional sign, the leading digits, the value held within [long]) and the
    conversion of its result to [int]. *)
Fixpoint digits (s : bytes) (acc : Z) : Z :=
  match s with
  | c :: r =>
      let n := byte_val c in
      if (48 <=? n) && (n <=? 57) then digits r (acc * 10 + (n - 48)) else acc
  | [] => acc
  end.

Definition strtol (s : bytes) : Z :=
  let value :=
    match skip_space (cstr s) with
    | c :: r =>
        if Ascii.eqb c "-"%char then - digits r 0
        else if Ascii.eqb c "+"%char then digits r 0
        else digits (c :: r) 0
    | [] => 0
    end in
  if value >? LONG_MAX then LONG_MAX
  else if value <? LONG_MIN then LONG_MIN
  else value.

Definition atoi (s : bytes) : Z := to_int (strtol s).

(** ** Writing the headers out ([proxy_parse.c]) *)

(** The line ["%s: %s\r\n"] of one header. *)
Definition header_line (h : bytes * bytes) : bytes :=
  cstr (fst h) ++ lit ": " ++ cstr (snd h) ++ CRLF.

(** What [snprintf(buf, n, ...)] stores for [n > 0]: at most [n - 1] bytes of
    the text and the terminator. *)
Definition snprintf_stores (n : Z) (text : bytes) : bytes :=
  take (Z.to_nat (n - 1)) text ++ [NUL].

(** The loop of [ParsedRequest_unparse_headers]. [stored] is what the
    function has stored from [buf[0]] on, terminators included; the flag is
    false when the loop ends by [return -1]. *)
Fixpoint unparse_headers_loop (current : list (bytes * bytes)) (buflen written : Z)
    (stored : bytes) : bool * Z * bytes :=
  match current with
  | [] => (true, written, stored)
  | h :: rest =>
      if written <? buflen - 1 then
        let header_len := Z.of_nat (length (header_line h)) in
        let stored' :=
          take (Z.to_nat written) stored
            ++ snprintf_stores (buflen - written) (header_line h) in
        if written + header_len >=? buflen then (false, written, stored')
        else unparse_headers_loop rest buflen (written + header_len) stored'
      else (true, written, stored)
  end.

(** [ParsedRequest_unparse_headers(pr, buf, buflen)] for a request and a
    buffer that are not NULL: the return value and the bytes stored from
    [buf[0]] on. [buflen] is a [size_t], so [buflen - 2] wraps around when
    [buflen] is 1. *)
Definition ParsedRequest_unparse_headers (hs : list (bytes * bytes)) (buflen : Z)
  : Z * bytes :=
  if buflen =? 0 then (-1, [])
  else
    let '(finished, written, stored) := unparse_headers_loop hs buflen 0 [] in
    if negb finished then (-1, stored)
    else if written <? to_size_t (buflen - 2) then
      (to_int (written + 2), take (Z.to_nat written) stored ++ CRLF ++ [NUL])
    else (-1, stored).

(** ** The request handler *)

(** Outcomes of the calls one turn of the worker loop makes, in the order of
    the source. *)
Record worker_env := {
  calloc_buffer : bool;
  client_rx : list rx;              (* [recv] on the client socket *)
  strdup_temp_req : bool;
  time_find : Z;                    (* [time(NULL)] in [find_in_cache] *)
  client_tx : list Z;               (* [send] on the client socket *)
  ParsedRequest_create : bool;
  parse_outcomes : parse_env;       (* the allocations of [ParsedRequest_parse] *)
  malloc_send_buffer : bool;
  connect_result : Z;               (* [connectRemoteServer] *)
  upstream_send : Z;                (* [send] of the forwarded request *)
  malloc_response_buffer : bool;
  realloc_response_buffer : bool;
  upstream_rx : list rx;            (* [recv] on the upstream socket *)
  add_outcomes : add_env;
  currentTime : bytes               (* the date [strftime] writes *)
}.

(** The text [snprintf] formats at the start of [send_buffer]. *)
Definition request_head (path version host : bytes) : bytes :=
  lit "GET " ++ cstr path ++ lit " " ++ cstr version ++ CRLF ++
  lit "Host: " ++ cstr host ++ CRLF ++
  lit "Connection: keep-alive" ++ CRLF ++
  lit "User-Agent: HighPerformanceProxy/2.0" ++ CRLF.

(** The request the handler builds in [send_buffer], a block of [MAX_BYTES]
    bytes: the string it holds when [connectRemoteServer] is called.
    [snprintf] returns the length [len] of the whole head, also when it had
    to cut it; [ParsedRequest_unparse_headers] is then given
    [send_buffer + len] and [MAX_BYTES - len]. Nothing is defined when a
    NULL field is formatted with [%s], when [send_buffer + len] lies past the
    end of the block, or when the headers are stored past it. *)
Definition build_request (request : ParsedRequest) : outcome bytes :=
  match path request, version request, host request with
  | Some pa, Some v, Some h =>
      let head := request_head pa v h in
      let len := Z.of_nat (length head) in
      if len >? MAX_BYTES then Undefined
      else if len =? MAX_BYTES then Returns (take (Z.to_nat (MAX_BYTES - 1)) head)
      else
        let '(_, stored) :=
          ParsedRequest_unparse_headers (headers request) (MAX_BYTES - len) in
        if Z.of_nat (length stored) >? MAX_BYTES - len then Undefined
        else Returns (head ++ cstr stored)
  | _, _, _ => Undefined
  end.

(** The capture side of the forwarding loop. [response_buffer] holds the
    bytes stored so far, that is, the first [total_received] bytes of the
    block; [block] is the size of the block the pointer refers to, [None]
    once a [realloc] has returned NULL. *)
Record tee_state := {
  response_buffer : bytes;
  total_received : Z;
  buffer_size : Z;
  block : option Z
}.

(** [memcpy(response_buffer + total_received, send_buffer, bytes_received);
    total_received += bytes_received], defined when the bytes land inside the
    block. *)
Definition store_chunk (got : bytes) (bytes_received : Z) (t : tee_state)
  : outcome tee_state :=
  match block t with
  | Some allocated =>
      if total_received t + bytes_received <=? allocated then
        Returns {| response_buffer := response_buffer t ++ got;
                   total_received := to_int (total_received t + bytes_received);
                   buffer_size := buffer_size t;
                   block := block t |}
      else Undefined
  | None => Undefined
  end.

Definition capture (realloc_ok : bool) (got : bytes) (bytes_received : Z) (t : tee_state)
  : outcome tee_state :=
  if total_received t + bytes_received <? buffer_size t then
    store_chunk got bytes_received t
  else if total_received t <? MAX_ELEMENT_SIZE then
    let buffer_size' := to_int (total_received t + bytes_received + MAX_BYTES) in
    if buffer_size' <=? MAX_ELEMENT_SIZE then
      (* [realloc]; [capture_never_grows] shows that the forwarding loop
         never gets here *)
      if realloc_ok then
        store_chunk got bytes_received
          {| response_buffer := response_buffer t;
             total_received := total_received t;
             buffer_size := buffer_size';
             block := Some buffer_size' |}
      else
        Returns {| response_buffer := response_buffer t;
                   total_received := total_received t;
                   buffer_size := buffer_size';
                   block := None |}
    else
      Returns {| response_buffer := response_buffer t;
                 total_received := total_received t;
                 buffer_size := buffer_size';
                 block := block t |}
  else Returns t.

(** The loop [while ((bytes_received = recv(remoteSocket, ...)) > 0)]. *)
Fixpoint tee_loop (realloc_ok : bool) (client : Z) (script : list rx) (tx : list Z)
    (t : tee_state) : outcome (list event * list Z * tee_state) :=
  match script with
  | [] => Returns ([], tx, t)
  | r :: rest =>
      let '(bytes_received, got, _) := recv [r] (MAX_BYTES - 1) in
      if bytes_received >? 0 then
        let '(bytes_forwarded, tx') := send_result tx in
        if bytes_forwarded <? 0 then Returns ([EvSend client got bytes_forwarded], tx', t)
        else
          let* t1 := capture realloc_ok got bytes_received t in
          let* (evs, tx'', t') := tee_loop realloc_ok client rest tx' t1 in
          Returns (EvSend client got bytes_forwarded :: evs, tx'', t')
      else Returns ([], tx, t)
  end.

(** [response_buffer[total_received] = '\0'; add_to_cache(response_buffer,
    total_received, temp_req)]: the store has to land inside the block. *)
Definition finalize_cache (o : add_env) (t : tee_state) (temp_req : bytes)
    (c : cache_state) : outcome cache_state :=
  match block t with
  | Some allocated =>
      if total_received t <? allocated then
        let* (_, c') := add_to_cache o (response_buffer t) (total_received t) temp_req c in
        Returns c'
      else Undefined
  | None => Undefined
  end.

(** [handle_request_optimized(client_socket, request, temp_req)]: the return
    value, the events, what is left of the client send script, the cache and
    the statistics. *)
Definition handle_request_optimized (e : worker_env) (tx : list Z) (client : Z)
    (request : ParsedRequest) (temp_req : bytes) (c : cache_state) (s : stats_t)
  : outcome (Z * list event * list Z * cache_state * stats_t) :=
  if negb (malloc_send_buffer e) then Returns (-1, [], tx, c, s)
  else
    let* send_buffer := build_request request in
    let server_port := match port request with Some po => atoi po | None => 80 end in
    let remoteSocket := connect_result e in
    let connected := EvConnect (default [] (host request)) server_port remoteSocket in
    if remoteSocket <? 0 then Returns (-1, [connected], tx, c, s)
    else
      let bytes_sent := upstream_send e in
      let forwarded := EvSendUpstream remoteSocket send_buffer bytes_sent in
      if bytes_sent <? 0 then
        Returns (-1, [connected; forwarded; EvClose remoteSocket], tx, c, s)
      else if negb (malloc_response_buffer e) then
        Returns (-1, [connected; forwarded; EvClose remoteSocket], tx, c, s)
      else
        let* (evs, tx', t) :=
          tee_loop (realloc_response_buffer e) client (upstream_rx e) tx
            {| response_buffer := []; total_received := 0;
               buffer_size := MAX_ELEMENT_SIZE; block := Some MAX_ELEMENT_SIZE |} in
        let* (c', s') :=
          (if total_received t >? 0 then
             let* c' := finalize_cache (add_outcomes e) t temp_req c in
             Returns (c', served (total_received t) s)
           else Returns (c, s)) in
        Returns (0, [connected; forwarded] ++ evs ++ [EvReturnPooled remoteSocket],
                 tx', c', s').

(** ** The worker *)

Definition CRLFCRLF : bytes := CRLF ++ CRLF.

(** The loop that waits for the end of the request headers. *)
Fixpoint recv_more (script : list rx) (buffer : bytes) (bytes_received : Z)
  : bytes * Z :=
  if (bytes_received >? 0) && negb (bool_decide (is_Some (strstr buffer CRLFCRLF))) then
    match script with
    | [] => (buffer, bytes_received)
    | r :: rest =>
        let '(additional, got, _) := recv [r] (MAX_BYTES - strlen buffer - 1) in
        if additional <=? 0 then (buffer, bytes_received)
        else recv_more rest (write_at (strlen buffer) got buffer) (bytes_received + additional)
    end
  else (buffer, bytes_received).

(** The buffer from [calloc], the first [recv] and the loop: the buffer and
    [bytes_received] as the worker sees them afterwards. *)
Definition read_request (script : list rx) : bytes * Z :=
  let buffer := repeat NUL (Z.to_nat MAX_BYTES) in
  let '(bytes_received, got, rest) := recv script (MAX_BYTES - 1) in
  recv_more rest (write_at 0 got buffer) bytes_received.

(** The length one [send] of the hit loop is given: [MAX_BYTES], or what is
    left of [cached->len] bytes after [sent]. [sent] is a [size_t], so the
    difference and the comparisons are unsigned. *)
Definition chunk_size_at (cached : cache_element) (sent : Z) : Z :=
  if to_size_t (len cached - sent) >? MAX_BYTES then MAX_BYTES
  else to_size_t (len cached - sent).

(** The block [cached->data] points to: the data and the terminator that
    [add_to_cache] stores behind them. *)
Definition data_block (cached : cache_element) : bytes := data cached ++ [NUL].

(** The bytes that [send] is given, from offset [sent] of the block. *)
Definition cached_chunk (cached : cache_element) (sent : Z) : bytes :=
  take (Z.to_nat (chunk_size_at cached sent)) (drop (Z.to_nat sent) (data_block cached)).

(** Serving a hit: [while (sent < cached->len)]. A [send] that is handed
    bytes beyond the block has no defined result. *)
Fixpoint serve_cached (client : Z) (cached : cache_element) (tx : list Z) (sent : Z)
  : outcome (list event * list Z) :=
  if sent <? to_size_t (len cached) then
    if sent + chunk_size_at cached sent >? Z.of_nat (length (data_block cached))
    then Undefined
    else
      match tx with
      | [] => Returns ([EvSend client (cached_chunk cached sent) (-1)], [])
      | bytes_sent :: rest =>
          if bytes_sent <=? 0
          then Returns ([EvSend client (cached_chunk cached sent) bytes_sent], rest)
          else
            let* (evs, tx') := serve_cached client cached rest (to_size_t (sent + bytes_sent)) in
            Returns (EvSend client (cached_chunk cached sent) bytes_sent :: evs, tx')
      end
  else Returns ([], tx).

(** The release of the connection slot that ends every turn. *)
Definition release : list event := [EvLock; EvDecrement; EvSignal; EvUnlock].

(** The branch taken when the parser accepted the request: the method and
    field test, then the handler with its 500 on failure, or the 501.
    [strcmp] is handed [request->method] as it is: nothing is defined when
    the [strdup] of the method had failed. *)
Definition dispatch (e : worker_env) (client : Z) (request : ParsedRequest)
    (temp_req : bytes) (c : cache_state) (s : stats_t)
  : outcome (list event * cache_state * stats_t) :=
  match method request with
  | None => Undefined
  | Some m =>
      if (strcmp m (lit "GET") =? 0)
         && bool_decide (is_Some (host request))
         && bool_decide (is_Some (path request))
      then
        let* (ret, evs, tx, c', s') :=
          handle_request_optimized e (client_tx e) client request temp_req c s in
        if ret <? 0 then
          Returns (evs ++ snd (fst (sendErrorMessage client 500 (currentTime e) tx)), c', s')
        else Returns (evs, c', s')
      else
        Returns (snd (fst (sendErrorMessage client 501 (currentTime e) (client_tx e))), c, s)
  end.

(** What the worker does with a request it has read and duplicated: the
    lookup, then the hit or the miss branch. *)
Definition serve (e : worker_env) (client : Z) (buffer : bytes)
    (c : cache_state) (s : stats_t) : outcome (list event * cache_state * stats_t) :=
  let temp_req := strdup buffer in
  match find_in_cache (time_find e) temp_req c s with
  | (Some cached, c', s') =>
      let* (evs, _) := serve_cached client cached (client_tx e) 0 in
      Returns (evs, c', s')
  | (None, c', s') =>
      let* parsed :=
        (if ParsedRequest_create e
         then ParsedRequest_parse (parse_outcomes e) buffer (strlen buffer)
         else Returns None) in
      match parsed with
      | Some request => dispatch e client request temp_req c' s'
      | None =>
          Returns (snd (fst (sendErrorMessage client 400 (currentTime e) (client_tx e))),
                   c', s')
      end
  end.

(** The body of the loop of [worker_thread] for an item that was dequeued. *)
Definition worker_iteration (e : worker_env) (item : work_item) (p : proxy_state)
  : outcome (list event * proxy_state) :=
  let client := client_socket item in
  if negb (calloc_buffer e) then
    Returns (EvClose client :: release,
             with_active (to_int (active_connection_count p - 1)) p)
  else
    let '(buffer, bytes_received) := read_request (client_rx e) in
    let* (evs, c, s) :=
      (if (bytes_received >? 0) && strdup_temp_req e
       then serve e client buffer (cache p) (stats p)
       else Returns ([], cache p, stats p)) in
    Returns (evs ++ [EvShutdown client; EvClose client] ++ release,
             with_active (to_int (active_connection_count p - 1)) (with_cache c s p)).

Inductive turn_result :=
| TurnExit                                        (* [server_running] is clear *)
| TurnBlocked                                     (* asleep in [dequeue_request] *)
| TurnIdle                                        (* [dequeue_request] returned NULL *)
| TurnServed (evs : list event) (p : proxy_state)
| TurnUndefined.

(** One turn of [while (server_running)] in [worker_thread]. *)
Definition worker_turn (e : worker_env) (p : proxy_state) : turn_result :=
  if server_running p then
    match dequeue_request (request_queue p) (server_running p) with
    | DequeueWait => TurnBlocked
    | DequeueReturn None _ => TurnIdle
    | DequeueReturn (Some item) q =>
        match worker_iteration e item (with_queue q p) with
        | Returns (evs, p') => TurnServed evs p'
        | Undefined => TurnUndefined
        end
    end
  else TurnExit.

(** ** Admission under interleaving

    The acceptor (the main loop) and the workers as threads that take one
    statement at a time, in any order. [connection_limit_mutex] is a lock a
    thread can take only when it is free; [active_connection_count++] and
    [active_connection_count--] are a load followed by a store, as the compiled
    code performs them. The relation is made for the counter: a call of the
    queue is one step of it, and what happens inside [request_queue.mutex]
    is not split further. *)

Inductive tid :=
| Acceptor
| Worker (i : nat).

Inductive acceptor_pc :=
| AcceptWait                          (* in [select]/[accept] *)
| AcceptLock (item : work_item)       (* before [pthread_mutex_lock] *)
| AcceptCheck (item : work_item)      (* at [if (active_connection_count >= MAX_CLIENTS)] *)
| AcceptRefuseUnlock (item : work_item)
| AcceptRefuse (item : work_item)     (* before [sendErrorMessage(.., 503)] and [close] *)
| AcceptLoad (item : work_item)       (* before the load of [active_connection_count++] *)
| AcceptStore (item : work_item) (loaded : Z)
| AcceptUnlock (item : work_item)
| AcceptEnqueue (item : work_item)    (* before [enqueue_request] *)
| AcceptStopped.                      (* the main loop has ended *)

Inductive worker_pc :=
| WorkerLoop                          (* at [while (server_running)] *)
| WorkerDequeue                       (* in [dequeue_request] *)
| WorkerHandle (item : work_item)     (* from the dequeue to [close(client_socket)] *)
| WorkerLock                          (* before [pthread_mutex_lock] *)
| WorkerLoad                          (* before the load of [active_connection_count--] *)
| WorkerStore (loaded : Z)
| WorkerSignal
| WorkerUnlock
| WorkerExited.

Record system := System {
  sys_count : Z;                      (* [active_connection_count] *)
  sys_mutex : option tid;             (* owner of [connection_limit_mutex] *)
  sys_queue : work_queue;
  sys_running : bool;                 (* [server_running] *)
  sys_acceptor : acceptor_pc;
  sys_workers : list worker_pc
}.

Definition boot (workers : nat) : system :=
  System 0 None [] true AcceptWait (replicate workers WorkerLoop).

Inductive step : system -> system -> Prop :=
(* the signal handler clears the flag *)
| step_shutdown n m q r a ws :
    step (System n m q r a ws) (System n m q false a ws)
(* the acceptor *)
| step_accept n m q ws item :
    step (System n m q true AcceptWait ws) (System n m q true (AcceptLock item) ws)
| step_accept_stop n m q ws :
    step (System n m q false AcceptWait ws) (System n m q false AcceptStopped ws)
| step_accept_lock n q r ws item :
    step (System n None q r (AcceptLock item) ws)
         (System n (Some Acceptor) q r (AcceptCheck item) ws)
| step_accept_full n m q r ws item :
    n >= MAX_CLIENTS ->
    step (System n m q r (AcceptCheck item) ws)
         (System n m q r (AcceptRefuseUnlock item) ws)
| step_accept_room n m q r ws item :
    n < MAX_CLIENTS ->
    step (System n m q r (AcceptCheck item) ws)
         (System n m q r (AcceptLoad item) ws)
| step_accept_refuse_unlock n m q r ws item :
    step (System n m q r (AcceptRefuseUnlock item) ws)
         (System n None q r (AcceptRefuse item) ws)
| step_accept_refuse n m q r ws item :
    step (System n m q r (AcceptRefuse item) ws)
         (System n m q r AcceptWait ws)
| step_accept_load n m q r ws item :
    step (System n m q r (AcceptLoad item) ws)
         (System n m q r (AcceptStore item n) ws)
| step_accept_store n m q r ws item loaded :
    step (System n m q r (AcceptStore item loaded) ws)
         (System (loaded + 1) m q r (AcceptUnlock item) ws)
| step_accept_unlock n m q r ws item :
    step (System n m q r (AcceptUnlock item) ws)
         (System n None q r (AcceptEnqueue item) ws)
| step_accept_enqueue n m q r ws item q' :
    enqueue_request true item q = EnqueueDone q' ->
    step (System n m q r (AcceptEnqueue item) ws)
         (System n m q' r AcceptWait ws)
| step_accept_drop n m q r ws item :
    enqueue_request false item q = EnqueueDropped ->
    step (System n m q r (AcceptEnqueue item) ws)
         (System n m q r AcceptWait ws)
(* worker [i] *)
| step_worker_enter n m q a ws i :
    ws !! i = Some WorkerLoop ->
    step (System n m q true a ws) (System n m q true a (<[i := WorkerDequeue]> ws))
| step_worker_exit n m q a ws i :
    ws !! i = Some WorkerLoop ->
    step (System n m q false a ws) (System n m q false a (<[i := WorkerExited]> ws))
| step_worker_dequeue n m q r a ws i item q' :
    ws !! i = Some WorkerDequeue ->
    dequeue_request q r = DequeueReturn (Some item) q' ->
    step (System n m q r a ws) (System n m q' r a (<[i := WorkerHandle item]> ws))
| step_worker_null n m q r a ws i q' :
    ws !! i = Some WorkerDequeue ->
    dequeue_request q r = DequeueReturn None q' ->
    step (System n m q r a ws) (System n m q' r a (<[i := WorkerLoop]> ws))
| step_worker_handle n m q r a ws i item :
    ws !! i = Some (WorkerHandle item) ->
    step (System n m q r a ws) (System n m q r a (<[i := WorkerLock]> ws))
| step_worker_lock n q r a ws i :
    ws !! i = Some WorkerLock ->
    step (System n None q r a ws)
         (System n (Some (Worker i)) q r a (<[i := WorkerLoad]> ws))
| step_worker_load n m q r a ws i :
    ws !! i = Some WorkerLoad ->
    step (System n m q r a ws) (System n m q r a (<[i := WorkerStore n]> ws))
| step_worker_store n m q r a ws i loaded :
    ws !! i = Some (WorkerStore loaded) ->
    step (System n m q r a ws)
         (System (loaded - 1) m q r a (<[i := WorkerSignal]> ws))
| step_worker_signal n m q r a ws i :
    ws !! i = Some WorkerSignal ->
    step (System n m q r a ws) (System n m q r a (<[i := WorkerUnlock]> ws))
| step_worker_unlock n m q r a ws i :
    ws !! i = Some WorkerUnlock ->
    step (System n m q r a ws) (System n None q r a (<[i := WorkerLoop]> ws)).

(** The states the proxy can be in: those a run from the start reaches. *)
Definition reachable (workers : nat) (s : system) : Prop := rtc step (boot workers) s.

(** The statements between lock and unlock of [connection_limit_mutex]. *)
Definition acceptor_in_cs (a : acceptor_pc) : bool :=
  match a with
  | AcceptCheck _ | AcceptRefuseUnlock _ | AcceptLoad _ | AcceptStore _ _
  | AcceptUnlock _ => true
  | _ => false
  end.

Definition worker_in_cs (w : worker_pc) : bool :=
  match w with
  | WorkerLoad | WorkerStore _ | WorkerSignal | WorkerUnlock => true
  | _ => false
  end.

(** Client sockets that were counted and not yet released: in the hand of the
    acceptor between its increment and the enqueue, in the queue, or in the
    hand of a worker up to its decrement. *)
Definition acceptor_holds (a : acceptor_pc) : Z :=
  match a with
  | AcceptUnlock _ | AcceptEnqueue _ => 1
  | _ => 0
  end.

Definition worker_holds (w : worker_pc) : Z :=
  match w with
  | WorkerHandle _ | WorkerLock | WorkerLoad | WorkerStore _ => 1
  | _ => 0
  end.

Definition held (ws : list worker_pc) : Z :=
  foldr (fun w acc => worker_holds w + acc) 0 ws.

Definition pending (s : system) : Z :=
  count (sys_queue s) + held (sys_workers s) + acceptor_holds (sys_acceptor s).

(** What every reachable state satisfies. *)
Definition admission_inv (s : system) : Prop :=
  (acceptor_in_cs (sys_acceptor s) = true <-> sys_mutex s = Some Acceptor) /\
  (forall i w, sys_workers s !! i = Some w ->
               worker_in_cs w = true <-> sys_mutex s = Some (Worker i)) /\
  match sys_acceptor s with
  | AcceptLoad _ => sys_count s < MAX_CLIENTS
  | AcceptStore _ loaded => loaded = sys_count s /\ sys_count s < MAX_CLIENTS
  | _ => True
  end /\
  (forall i loaded, sys_workers s !! i = Some (WorkerStore loaded) ->
                    loaded = sys_count s) /\
  pending s <= sys_count s <= MAX_CLIENTS.

(** ** Vocabulary of the properties *)

(** Footprint of the entries linked in the list, as [cache_size] counts it. *)
Definition cache_bytes (l : list cache_element) : Z :=
  foldr (fun e acc => entry_bytes e + acc) 0 l.

(** Number of entries whose key compares equal to [k]. *)
Definition count_key (k : bytes) (l : list cache_element) : nat :=
  length (filter (fun e => strcmp (url e) k = 0) l).

(** A cache whose counter is exact, whose lengths are lengths, and which is
    within its capacity. *)
Definition cache_ok (c : cache_state) : Prop :=
  cache_size c = cache_bytes (cache_list c) /\
  Forall (fun e => 0 <= len e) (cache_list c) /\
  cache_size c <= MAX_SIZE.

Inductive cache_op :=
| OpInsert (o : add_env) (d : bytes) (size : Z) (u : bytes)
| OpEvict
| OpLookup (now : Z) (u : bytes).

Definition no_stats : stats_t :=
  {| total_requests := 0; cache_hits := 0; cache_misses := 0; bytes_served := 0 |}.

Definition apply_op (op : cache_op) (c : cache_state) : outcome cache_state :=
  match op with
  | OpInsert o d size u => let* (_, c') := add_to_cache o d size u c in Returns c'
  | OpEvict => Returns (remove_lru_element c)
  | OpLookup now u => Returns (snd (fst (find_in_cache now u c no_stats)))
  end.

(** The cache after each operation of a sequence, in order. *)
Fixpoint run_ops (ops : list cache_op) (c : cache_state) : outcome (list cache_state) :=
  match ops with
  | [] => Returns []
  | op :: rest =>
      let* c' := apply_op op c in
      let* states := run_ops rest c' in
      Returns (c' :: states)
  end.

(** The proxy after each of a sequence of worker turns, in order; every
    turn comes with its item and the outcomes of its calls. *)
Fixpoint run_turns (turns : list (worker_env * work_item)) (p : proxy_state)
  : outcome (list proxy_state) :=
  match turns with
  | [] => Returns []
  | (e, item) :: rest =>
      let* (_, p') := worker_iteration e item p in
      let* states := run_turns rest p' in
      Returns (p' :: states)
  end.

(** An insertion of [size] bytes that [data] holds, whose footprint sum does
    not leave the range of [int]. *)
Definition op_fits (op : cache_op) : Prop :=
  match op with
  | OpInsert _ d size u =>
      0 <= size <= Z.of_nat (length d) /\
      size + strlen u + sizeof_cache_element <= INT_MAX
  | _ => True
  end.

(** The cache after [k] calls of [remove_lru_element]. *)
Definition evictions (k : nat) (c : cache_state) : cache_state :=
  Nat.iter k remove_lru_element c.

(** An insertion for which the three allocations succeed. *)
Definition allocates (o : add_env) : Prop :=
  malloc_element o = true /\ malloc_data o = true /\ malloc_url o = true.

(** The capture state of the forwarding loop within its bounds: the block is
    the one [malloc] returned, the buffer holds [total_received] bytes inside
    it, and both counters are small. *)
Definition tee_ok (t : tee_state) : Prop :=
  block t = Some MAX_ELEMENT_SIZE /\
  MAX_ELEMENT_SIZE <= buffer_size t <= MAX_ELEMENT_SIZE + 2 * MAX_BYTES /\
  0 <= total_received t < buffer_size t /\
  total_received t <= MAX_ELEMENT_SIZE /\
  Z.of_nat (length (response_buffer t)) = total_received t.

(** The bytes the client is sent, in order: what each [send] took. *)
Fixpoint sent_to (fd : Z) (evs : list event) : list bytes :=
  match evs with
  | [] => []
  | EvSend fd' payload _ :: rest =>
      if fd' =? fd then payload :: sent_to fd rest else sent_to fd rest
  | _ :: rest => sent_to fd rest
  end.

Definition is_close (fd : Z) (ev : event) : bool :=
  match ev with EvClose fd' => fd' =? fd | _ => false end.

Definition is_decrement (ev : event) : bool :=
  match ev with EvDecrement => true | _ => false end.

Definition is_signal (ev : event) : bool :=
  match ev with EvSignal => true | _ => false end.

(** The events of a turn that returns. *)
Definition events_of {A : Type} (turn : outcome (list event * A)) : option (list event) :=
  match turn with
  | Returns (evs, _) => Some evs
  | Undefined => None
  end.

(** How many events of a kind a run contains. *)
Definition tally (kind : event -> bool) (evs : list event) : nat :=
  length (filter kind evs).

(** An event that neither closes the client socket nor touches the
    connection counter. *)
Definition inert (client : Z) (ev : event) : Prop :=
  is_close client ev = false /\ is_decrement ev = false /\ is_signal ev = false.

(** ** Vocabulary of the further properties *)

(** The items of a list enqueued one after the other, every allocation
    successful; [None] when a call would sleep on [not_full]. *)
Fixpoint enqueue_all (items : list work_item) (q : work_queue) : option work_queue :=
  match items with
  | [] => Some q
  | item :: rest =>
      match enqueue_request true item q with
      | EnqueueDone q' => enqueue_all rest q'
      | _ => None
      end
  end.

(** [n] calls of [dequeue_request] while the server runs: the items handed
    out, in order, and the queue left; the calls stop where one would sleep. *)
Fixpoint dequeue_all (n : nat) (q : work_queue) : list work_item * work_queue :=
  match n with
  | O => ([], q)
  | S n' =>
      match dequeue_request q true with
      | DequeueReturn (Some item) q' =>
          let '(items, q'') := dequeue_all n' q' in (item :: items, q'')
      | _ => ([], q)
      end
  end.

(** A proxy at rest: nobody holds the mutex, the queue is empty, the
    acceptor waits for a client and every worker is at the top of its loop. *)
Definition quiescent (s : system) : Prop :=
  sys_mutex s = None /\ sys_queue s = [] /\ sys_acceptor s = AcceptWait /\
  Forall (fun w => w = WorkerLoop) (sys_workers s).

(** The statements of the acceptor and of a worker that touch neither the
    counter nor the queue. *)
Definition acceptor_idle (a : acceptor_pc) : Prop :=
  match a with
  | AcceptWait | AcceptLock _ | AcceptCheck _ | AcceptRefuseUnlock _ | AcceptRefuse _
  | AcceptStopped => True
  | _ => False
  end.

Definition worker_idle (w : worker_pc) : Prop :=
  match w with
  | WorkerLoop | WorkerDequeue | WorkerExited => True
  | _ => False
  end.

(** A proxy that is full with nothing to serve. *)
Definition starved (s : system) : Prop :=
  sys_count s = MAX_CLIENTS /\ sys_queue s = [] /\
  acceptor_idle (sys_acceptor s) /\ Forall worker_idle (sys_workers s).

(** The recency list ordered by timestamp, newest first. *)
Fixpoint recency_sorted (l : list cache_element) : Prop :=
  match l with
  | [] => True
  | e :: rest =>
      Forall (fun x => lru_time_track x <= lru_time_track e) rest /\ recency_sorted rest
  end.

(** Timestamps that never decrease: each one is at most every later one. *)
Fixpoint clock_monotone (times : list Z) : Prop :=
  match times with
  | [] => True
  | t :: rest => Forall (fun t' => t <= t') rest /\ clock_monotone rest
  end.

(** The reading of [time(NULL)] an operation stores in an element. *)
Definition op_time (op : cache_op) : option Z :=
  match op with
  | OpInsert o _ _ _ => Some (time_lru o)
  | OpEvict => None
  | OpLookup now _ => Some now
  end.

(** What a cached element answers with: key, length and data. *)
Definition content (e : cache_element) : bytes * Z * bytes := (url e, len e, data e).

Definition is_return_pooled (fd : Z) (ev : event) : bool :=
  match ev with EvReturnPooled fd' => fd' =? fd | _ => false end.

(** The bytes a socket accepted: of each [send] on it, as many as the call
    returned. *)
Fixpoint delivered (fd : Z) (evs : list event) : bytes :=
  match evs with
  | [] => []
  | EvSend fd' payload ret :: rest =>
      if fd' =? fd then take (Z.to_nat ret) payload ++ delivered fd rest
      else delivered fd rest
  | _ :: rest => delivered fd rest
  end.

(** A [send] that returns no more than it was given. *)
Definition send_within (ev : event) : Prop :=
  match ev with
  | EvSend _ payload ret => ret <= Z.of_nat (length payload)
  | _ => True
  end.

(** A [send] that took at least one byte. *)
Definition send_succeeded (ev : event) : Prop :=
  match ev with
  | EvSend _ _ ret => 0 < ret
  | _ => True
  end.


(** ** Inputs used in the examples *)

Definition item_on (fd : Z) : work_item := {| client_socket := fd; client_addr := 0 |}.

Definition allocs_ok (t : Z) : add_env :=
  {| malloc_element := true; malloc_data := true; malloc_url := true;
     time_lru := t; time_creation := t |}.

Definition date : bytes := lit "Mon, 02 Nov 2026 08:00:00 GMT".

Definition idle_state (active : Z) : proxy_state :=
  {| cache := empty_cache; stats := no_stats; active_connection_count := active;
     request_queue := []; server_running := true |}.

(** A turn in which every allocation succeeds: what the client sends, what
    its [send]s return, and the upstream side. *)
Definition parse_ok : parse_env :=
  {| malloc_buf := true; strdup_method := true; strdup_url := true;
     strdup_protocol := true; strdup_host := true; strdup_port := true;
     strdup_path := true; strdup_version := true; header_allocs := [];
     strdup_header_host := true; strdup_header_port := true |}.

Definition env_with (from_client : list rx) (to_client : list Z) (remote : Z)
    (forwarded : Z) (from_upstream : list rx) : worker_env :=
  {| calloc_buffer := true; client_rx := from_client; strdup_temp_req := true;
     time_find := 100; client_tx := to_client; ParsedRequest_create := true;
     parse_outcomes := parse_ok;
     malloc_send_buffer := true; connect_result := remote;
     upstream_send := forwarded; malloc_response_buffer := true;
     realloc_response_buffer := true;
     upstream_rx := from_upstream; add_outcomes := allocs_ok 100;
     currentTime := date |}.


(** The scenario "oversize not cached": a response of [MAX_ELEMENT_SIZE + 1]
    bytes, which [recv] delivers in 1280 full reads of 8191 bytes and a last
    read of the remaining 1281, each forwarded whole to the client. *)
Definition chunk_of (n : Z) : bytes := repeat "x"%char (Z.to_nat n).

Definition s5_request : bytes := lit "GET http://a/ HTTP/1.1" ++ CRLF ++ CRLF.

Definition s5_chunks : list bytes := repeat (chunk_of 8191) 1280 ++ [chunk_of 1281].

Definition s5_sends : list Z := repeat 8191 1280 ++ [1281].

(** What the handler has captured of it when the upstream closes. *)
Definition s5_captured : bytes := concat (repeat (chunk_of 8191) 1280).

Definition s5_upstream : list rx :=
  repeat (RxData (chunk_of 8191)) 1280 ++ [RxData (chunk_of 1281)].

Definition s5_first_turn : worker_env :=
  env_with [RxData s5_request] s5_sends 11 40 s5_upstream.

(** The same request again, with no upstream to reach; the client takes
    every [send] whole. *)
Definition s5_second_turn : worker_env :=
  env_with [RxData s5_request] (repeat 8192 1279 ++ [6912]) (-1) (-1) [].

(** What the parser makes of [s5_request]. *)
Definition s5_parsed : ParsedRequest :=
  {| method := Some (lit "GET"); protocol := Some (lit "http"); host := Some (lit "a");
     port := Some (lit "80"); path := Some []; version := Some (lit "HTTP/1.1");
     headers := [] |}.

(** The request the handler forwards for it. *)
Definition s5_forwarded : bytes := request_head [] (lit "HTTP/1.1") (lit "a") ++ CRLF.

(** The same response with one more read behind it. *)
Definition overflow_turn : worker_env :=
  env_with [RxData s5_request] (s5_sends ++ [8191]) 11 40
    (s5_upstream ++ [RxData (chunk_of 8191)]).

(** A request whose path has 8150 characters. *)
Definition long_url_request : bytes :=
  lit "GET http://a/" ++ repeat "p"%char (Z.to_nat 8150) ++ lit " HTTP/1.1" ++ CRLF ++ CRLF.

Definition long_url_turn : worker_env := env_with [RxData long_url_request] [] 11 40 [].

(** A turn in which the parser's [strdup] of the method returns NULL. *)
Definition no_method : parse_env :=
  {| malloc_buf := true; strdup_method := false; strdup_url := true;
     strdup_protocol := true; strdup_host := true; strdup_port := true;
     strdup_path := true; strdup_version := true; header_allocs := [];
     strdup_header_host := true; strdup_header_port := true |}.

Definition no_method_turn : worker_env :=
  {| calloc_buffer := true; client_rx := [RxData s5_request]; strdup_temp_req := true;
     time_find := 100; client_tx := []; ParsedRequest_create := true;
     parse_outcomes := no_method;
     malloc_send_buffer := true; connect_result := 11;
     upstream_send := 40; malloc_response_buffer := true;
     realloc_response_buffer := true;
     upstream_rx := []; add_outcomes := allocs_ok 100;
     currentTime := date |}.

(** A byte count near [INT_MAX] and a block that holds as many bytes. *)
Definition huge_size : Z := 2147483600.
Definition huge_data : bytes := repeat "x"%char (Z.to_nat huge_size).

Definition is_connect (ev : event) : bool :=
  match ev with EvConnect _ _ _ => true | _ => false end.

Definition total_bytes (chunks : list bytes) : Z :=
  foldr (fun d acc => Z.of_nat (length d) + acc) 0 chunks.

(** * Facts *)

(** ** Integers and C strings *)

Lemma constants :
  MAX_BYTES = 8192 /\ MAX_ELEMENT_SIZE = 10485760 /\ MAX_SIZE = 209715200 /\
  INT_MIN = -2147483648 /\ INT_MAX = 2147483647 /\ sizeof_cache_element = 64.
Proof. by vm_compute. Qed.

Lemma to_int_id (z : Z) : INT_MIN <= z <= INT_MAX -> to_int z = z.
Proof.
  unfold INT_MIN, INT_MAX, to_int. intros H.
  rewrite Z.mod_small; lia.
Qed.

Lemma to_int_range (z : Z) : INT_MIN <= to_int z <= INT_MAX.
Proof.
  unfold INT_MIN, INT_MAX, to_int.
  pose proof (Z.mod_pos_bound (z + 2 ^ 31) (2 ^ 32)). lia.
Qed.

Lemma to_long_id (z : Z) : LONG_MIN <= z <= LONG_MAX -> to_long z = z.
Proof.
  unfold LONG_MIN, LONG_MAX, to_long. intros H.
  rewrite Z.mod_small; lia.
Qed.

Lemma to_size_t_id (z : Z) : 0 <= z < 2 ^ 64 -> to_size_t z = z.
Proof. intros H. unfold to_size_t. by rewrite Z.mod_small. Qed.

Lemma byte_val_inj (c d : ascii) : byte_val c = byte_val d -> c = d.
Proof.
  unfold byte_val. intros H. apply N2Z.inj in H.
  rewrite <- (ascii_N_embedding c), <- (ascii_N_embedding d). by rewrite H.
Qed.

Lemma byte_val_NUL (c : ascii) : byte_val c = 0 <-> c = NUL.
Proof.
  split; [|by intros ->]. intros H. apply byte_val_inj. by rewrite H.
Qed.

Lemma strcmp_0_iff (a b : bytes) : strcmp a b = 0 <-> cstr a = cstr b.
Proof.
  revert b. induction a as [|c a IH]; intros [|d b]; simpl.
  - done.
  - destruct (Ascii.eqb_spec d NUL) as [->|Hd].
    + done.
    + split; [|done]. intros H. destruct Hd. apply byte_val_NUL. lia.
  - destruct (Ascii.eqb_spec c NUL) as [->|Hc].
    + done.
    + split; [|done]. intros H. destruct Hc. by apply byte_val_NUL.
  - destruct (Ascii.eqb_spec c d) as [->|Hcd].
    + destruct (Ascii.eqb_spec d NUL) as [->|Hd]; [done|].
      rewrite IH. split; [by intros ->|]. by intros [= ->].
    + split.
      * intros H. destruct Hcd. apply byte_val_inj. lia.
      * destruct (Ascii.eqb_spec c NUL) as [->|Hc],
                 (Ascii.eqb_spec d NUL) as [->|Hd]; try done.
        by intros [= -> _].
Qed.

Lemma strcmp_refl (a : bytes) : strcmp a a = 0.
Proof. by apply strcmp_0_iff. Qed.

Lemma cstr_idemp (a : bytes) : cstr (cstr a) = cstr a.
Proof.
  induction a as [|c a IH]; [done|]. simpl.
  destruct (Ascii.eqb_spec c NUL) as [->|Hc]; [done|]. simpl.
  destruct (Ascii.eqb_spec c NUL); [done|]. by rewrite IH.
Qed.

Lemma strlen_nonneg (a : bytes) : 0 <= strlen a.
Proof. unfold strlen. lia. Qed.

Lemma strlen_cstr u : strlen (cstr u) = strlen u.
Proof. unfold strlen. by rewrite cstr_idemp. Qed.

Lemma cstr_length (b : bytes) : (length (cstr b) <= length b)%nat.
Proof.
  induction b as [|c b IH]; [done|]. simpl. destruct (Ascii.eqb c NUL); simpl; lia.
Qed.

(** ** The cache: footprint *)

Lemma entry_bytes_pos (e : cache_element) : 0 <= len e -> 0 < entry_bytes e.
Proof.
  unfold entry_bytes, sizeof_cache_element. pose proof (strlen_nonneg (url e)). lia.
Qed.

Lemma cache_bytes_cons e l : cache_bytes (e :: l) = entry_bytes e + cache_bytes l.
Proof. done. Qed.

Lemma cache_bytes_nonneg l : Forall (fun e => 0 <= len e) l -> 0 <= cache_bytes l.
Proof.
  induction 1 as [|e l He _ IH]; [done|].
  rewrite cache_bytes_cons. pose proof (entry_bytes_pos e He). lia.
Qed.

Lemma cache_bytes_delete l i x :
  l !! i = Some x -> cache_bytes (delete i l) = cache_bytes l - entry_bytes x.
Proof.
  revert i. induction l as [|e l IH]; intros [|i] H; simplify_eq/=.
  - fold (cache_bytes l). lia.
  - fold (cache_bytes l) (cache_bytes (delete i l)). rewrite (IH _ H). lia.
Qed.

Lemma entry_bytes_touch now e : entry_bytes (touch now e) = entry_bytes e.
Proof. done. Qed.

Lemma Forall_delete_len (l : list cache_element) i :
  Forall (fun e => 0 <= len e) l -> Forall (fun e => 0 <= len e) (delete i l).
Proof.
  intros H. rewrite Forall_forall in *. intros x Hx. apply H.
  by eapply list_elem_of_delete_inv.
Qed.

Lemma cache_ok_range c : cache_ok c -> 0 <= cache_size c <= MAX_SIZE.
Proof.
  intros (Hsz & Hlen & Hmax). pose proof (cache_bytes_nonneg _ Hlen). lia.
Qed.

Lemma cache_ok_empty : cache_ok empty_cache.
Proof. repeat split; [constructor|by vm_compute]. Qed.

(** ** The cache: eviction *)

Lemma lru_scan_in chain t lru :
  lru_scan chain t lru = lru \/ lru_scan chain t lru ∈ chain.
Proof.
  revert t lru. induction chain as [|cur chain IH]; intros t lru; simpl; [by left|].
  destruct (_ <? _).
  - destruct (IH (lru_time_track cur.2) cur) as [->| H]; right; [left|by right].
  - destruct (IH t lru) as [->|H]; [by left|right; by right].
Qed.

Lemma prev_chain_lookup (l : list cache_element) i x :
  (i, x) ∈ prev_chain l <-> l !! i = Some x.
Proof.
  unfold prev_chain. rewrite elem_of_reverse, elem_of_lookup_imap.
  split; [intros (j & y & [= -> ->] & H); done|]. intros H. by exists i, x.
Qed.

Lemma prev_chain_nil (l : list cache_element) : prev_chain l = [] <-> l = [].
Proof.
  unfold prev_chain. split; [|by intros ->].
  intros H. apply (f_equal length) in H.
  rewrite length_reverse, length_imap in H. by destruct l.
Qed.

Lemma remove_lru_element_nil c : cache_list c = [] -> remove_lru_element c = c.
Proof.
  intros H. unfold remove_lru_element.
  by rewrite (proj2 (prev_chain_nil _) H).
Qed.

Lemma remove_lru_element_spec c :
  cache_list c <> [] ->
  exists i lru,
    cache_list c !! i = Some lru /\
    remove_lru_element c =
      {| cache_list := delete i (cache_list c);
         cache_size := to_int (cache_size c - entry_bytes lru) |}.
Proof.
  intros Hne. unfold remove_lru_element.
  destruct (prev_chain (cache_list c)) as [|tail chain] eqn:Hchain.
  { by apply prev_chain_nil in Hchain. }
  set (lru := lru_scan _ _ _).
  assert (lru ∈ prev_chain (cache_list c)) as Hin.
  { rewrite Hchain. destruct (lru_scan_in (tail :: chain) (lru_time_track tail.2) tail)
      as [H|H]; fold lru in H; [rewrite H; left|done]. }
  destruct lru as [i x]. apply prev_chain_lookup in Hin. by exists i, x.
Qed.

Lemma remove_lru_element_ok c : cache_ok c -> cache_ok (remove_lru_element c).
Proof.
  intros Hok. pose proof (cache_ok_range c Hok) as Hrange.
  destruct Hok as (Hsz & Hlen & Hmax).
  destruct (decide (cache_list c = [])) as [Hnil|Hne].
  { rewrite remove_lru_element_nil; done. }
  destruct (remove_lru_element_spec c Hne) as (i & lru & Hi & ->).
  pose proof (cache_bytes_delete _ _ _ Hi) as Hdel.
  pose proof (cache_bytes_nonneg _ (Forall_delete_len _ i Hlen)) as Hpos.
  assert (0 < entry_bytes lru) as Hlru.
  { apply entry_bytes_pos. rewrite Forall_forall in Hlen. apply Hlen.
    by eapply list_elem_of_lookup_2. }
  assert (to_int (cache_size c - entry_bytes lru) = cache_size c - entry_bytes lru) as Hid.
  { apply to_int_id. destruct constants as (_ & _ & HM & Hmin & HMax & _). lia. }
  repeat split; simpl; rewrite ?Hid.
  - lia.
  - by apply Forall_delete_len.
  - lia.
Qed.

Lemma remove_lru_element_size c :
  cache_ok c -> cache_size (remove_lru_element c) <= cache_size c.
Proof.
  intros Hok. pose proof (remove_lru_element_ok c Hok) as (Hsz' & Hlen' & _).
  destruct Hok as (Hsz & Hlen & Hmax).
  destruct (decide (cache_list c = [])) as [Hnil|Hne].
  { rewrite remove_lru_element_nil; done. }
  destruct (remove_lru_element_spec c Hne) as (i & lru & Hi & Heq).
  rewrite Heq in *. simpl in *. rewrite Hsz', Hsz, (cache_bytes_delete _ _ _ Hi).
  assert (0 < entry_bytes lru); [|lia].
  apply entry_bytes_pos. rewrite Forall_forall in Hlen. apply Hlen.
  by eapply list_elem_of_lookup_2.
Qed.

Lemma remove_lru_element_length c :
  cache_list c <> [] ->
  S (length (cache_list (remove_lru_element c))) = length (cache_list c).
Proof.
  intros Hne. destruct (remove_lru_element_spec c Hne) as (i & lru & Hi & ->). simpl.
  rewrite length_delete; [|done]. apply lookup_lt_Some in Hi. lia.
Qed.

Lemma cache_tail_is_Some c : is_Some (cache_tail c) <-> cache_list c <> [].
Proof.
  unfold cache_tail. rewrite <- not_eq_None_Some, last_None. done.
Qed.

(** On a cache within its bounds the sum the eviction loop tests does not
    leave the range of [int]. *)
Lemma loop_test_plain c es :
  cache_ok c -> INT_MIN <= es <= MAX_ELEMENT_SIZE ->
  to_int (cache_size c + es) = cache_size c + es.
Proof.
  intros Hok Hes. pose proof (cache_ok_range c Hok). apply to_int_id.
  destruct constants as (_ & HE & HM & Hmin & HMax & _). lia.
Qed.

Lemma evictions_ok k c : cache_ok c -> cache_ok (evictions k c).
Proof.
  intros Hok. induction k as [|k IH]; [done|]. by apply remove_lru_element_ok.
Qed.

Lemma evictions_succ_r k c : evictions (S k) c = evictions k (remove_lru_element c).
Proof. unfold evictions. apply Nat.iter_succ_r. Qed.

Lemma make_space_loop_ok turns es c :
  cache_ok c ->
  cache_ok (make_space_loop turns es c) /\
  cache_size (make_space_loop turns es c) <= cache_size c.
Proof.
  revert c. induction turns as [|turns IH]; intros c Hok; simpl; [done|].
  destruct (_ && _); [|done].
  destruct (IH _ (remove_lru_element_ok c Hok)) as [Hok' Hle].
  split; [done|]. pose proof (remove_lru_element_size c Hok). lia.
Qed.

(** The eviction loop is a number of evictions, the least after which the
    new element fits or nothing is left to evict. *)
Lemma make_space_loop_evictions turns es : forall c,
  cache_ok c -> INT_MIN <= es <= MAX_ELEMENT_SIZE ->
  (length (cache_list c) <= turns)%nat ->
  exists k,
    make_space_loop turns es c = evictions k c /\
    (cache_size (evictions k c) + es <= MAX_SIZE \/ cache_list (evictions k c) = []) /\
    forall j, (j < k)%nat ->
      cache_size (evictions j c) + es > MAX_SIZE /\ cache_list (evictions j c) <> [].
Proof.
  induction turns as [|turns IH]; intros c Hok Hes Hlen; simpl.
  { exists 0%nat. split; [done|]. split; [|intros j Hj; lia].
    right. simpl. destruct (cache_list c); [done|simpl in Hlen; lia]. }
  rewrite (loop_test_plain c es Hok Hes).
  destruct (cache_size c + es >? MAX_SIZE) eqn:Hgt; simpl.
  2: { exists 0%nat. split; [done|]. split; [left; simpl; lia|intros j Hj; lia]. }
  case_bool_decide as Htail.
  - apply cache_tail_is_Some in Htail.
    destruct (IH (remove_lru_element c)) as (k & Hk & Hpost & Hmin).
    { by apply remove_lru_element_ok. }
    { done. }
    { pose proof (remove_lru_element_length c Htail). lia. }
    exists (S k). rewrite evictions_succ_r. split; [done|]. split; [done|].
    intros [|j] Hj; [simpl; split; [lia|done]|].
    rewrite evictions_succ_r. apply Hmin. lia.
  - exists 0%nat. split; [done|]. split; [|intros j Hj; lia].
    right. simpl. rewrite cache_tail_is_Some in Htail.
    by destruct (decide (cache_list c = [])).
Qed.

Lemma make_space_fits es c :
  to_int (cache_size c + es) <= MAX_SIZE -> make_space es c = c.
Proof.
  intros H. unfold make_space. destruct (length (cache_list c)); [done|]. simpl.
  destruct (_ >? MAX_SIZE) eqn:Hgt; [lia|done].
Qed.

Lemma make_space_ok es c :
  cache_ok c -> INT_MIN <= es <= MAX_ELEMENT_SIZE ->
  cache_ok (make_space es c) /\
  cache_bytes (cache_list (make_space es c)) + es <= MAX_SIZE.
Proof.
  intros Hok Hes. destruct (make_space_loop_ok (length (cache_list c)) es c Hok) as [Hok' _].
  split; [done|]. destruct Hok' as (Hsz & _ & _). fold (make_space es c) in Hsz.
  destruct (make_space_loop_evictions (length (cache_list c)) es c Hok Hes)
    as (k & Hk & [H|H] & _); [done|..]; fold (make_space es c) in Hk;
    rewrite <- Hk in H.
  - lia.
  - rewrite H. unfold cache_bytes. simpl.
    destruct constants as (_ & HE & HM & _). lia.
Qed.

(** ** The cache: insertion *)

Lemma add_to_cache_cases o d size u c :
  let es := to_int (size + strlen u + sizeof_cache_element) in
  (add_to_cache o d size u c = Returns (0, c) /\ es > MAX_ELEMENT_SIZE) \/
  (add_to_cache o d size u c = Returns (0, make_space es c) /\ es <= MAX_ELEMENT_SIZE) \/
  (add_to_cache o d size u c = Undefined /\ es <= MAX_ELEMENT_SIZE /\
   (size < 0 \/ Z.of_nat (length d) < size)) \/
  (add_to_cache o d size u c =
     Returns (1, {| cache_list := new_element o d size u :: cache_list (make_space es c);
                    cache_size := to_int (cache_size (make_space es c) + es) |}) /\
   es <= MAX_ELEMENT_SIZE /\ 0 <= size <= Z.of_nat (length d)).
Proof.
  intros es. unfold add_to_cache. fold es.
  destruct (es >? MAX_ELEMENT_SIZE) eqn:Hgt; [left; split; [done|lia]|].
  right. destruct (malloc_element o); simpl; [|left; split; [done|lia]].
  destruct (negb (malloc_data o && (0 <=? to_int (size + 1))) || negb (malloc_url o));
    [left; split; [done|lia]|].
  right. destruct ((size <? 0) || (Z.of_nat (length d) <? size)) eqn:Hub.
  - left. split; [done|]. split; [lia|]. apply orb_true_iff in Hub. lia.
  - right. split; [done|]. apply orb_false_iff in Hub. lia.
Qed.

Lemma add_to_cache_accepted o d size u c c' :
  add_to_cache o d size u c = Returns (1, c') ->
  let es := to_int (size + strlen u + sizeof_cache_element) in
  es <= MAX_ELEMENT_SIZE /\ 0 <= size <= Z.of_nat (length d) /\
  c' = {| cache_list := new_element o d size u :: cache_list (make_space es c);
          cache_size := to_int (cache_size (make_space es c) + es) |}.
Proof.
  intros H es.
  destruct (add_to_cache_cases o d size u c) as [[E _]|[[E _]|[[E _]|(E & Hle & Hs)]]];
    rewrite E in H; try discriminate. by injection H as <-.
Qed.

(** With its allocations successful, an insertion whose size is in range is
    accepted when the element is small enough. *)
Lemma add_to_cache_accepts o d size u c :
  allocates o -> 0 <= size <= Z.of_nat (length d) ->
  size + strlen u + sizeof_cache_element <= MAX_ELEMENT_SIZE ->
  let es := size + strlen u + sizeof_cache_element in
  add_to_cache o d size u c =
    Returns (1, {| cache_list := new_element o d size u :: cache_list (make_space es c);
                   cache_size := to_int (cache_size (make_space es c) + es) |}).
Proof.
  intros (H1 & H2 & H3) Hsize Hfit es. unfold add_to_cache. rewrite H1, H2, H3.
  pose proof (strlen_nonneg u) as Hu.
  destruct constants as (_ & HE & HM & Hmin & HMax & Hsz).
  rewrite to_int_id by (rewrite Hsz in *; lia). fold es.
  destruct (es >? MAX_ELEMENT_SIZE) eqn:Hgt; [lia|].
  rewrite to_int_id by (rewrite Hsz in *; lia).
  assert ((0 <=? size + 1) = true) as -> by lia. cbn [negb andb orb].
  assert (((size <? 0) || (Z.of_nat (length d) <? size)) = false) as ->.
  { apply orb_false_iff. lia. }
  done.
Qed.

Lemma entry_bytes_new o d size u :
  entry_bytes (new_element o d size u) = size + strlen u + sizeof_cache_element.
Proof. unfold entry_bytes. simpl. by rewrite strlen_cstr. Qed.

Lemma MAX_ELEMENT_SIZE_le : MAX_ELEMENT_SIZE <= MAX_SIZE /\ MAX_SIZE <= INT_MAX.
Proof. by vm_compute. Qed.

(** An insertion in range, on a cache within its bounds, returns, and the
    cache is within its bounds afterwards. *)
Lemma add_to_cache_ok o d size u c :
  cache_ok c -> 0 <= size <= Z.of_nat (length d) ->
  size + strlen u + sizeof_cache_element <= INT_MAX ->
  exists r c',
    add_to_cache o d size u c = Returns (r, c') /\ cache_ok c' /\
    (r = 1 \/ r = 0).
Proof.
  intros Hok Hsize Hfit.
  pose proof (strlen_nonneg u) as Hu.
  destruct constants as (_ & HE & HM & Hmin & HMax & Hsz).
  assert (to_int (size + strlen u + sizeof_cache_element)
          = size + strlen u + sizeof_cache_element) as Hes.
  { apply to_int_id. rewrite Hsz in *. lia. }
  destruct (add_to_cache_cases o d size u c)
    as [[E _]|[[E Hle]|[(E & _ & Hbad)|(E & Hle & _)]]]; rewrite ?Hes in *.
  - exists 0, c. auto.
  - exists 0, (make_space (size + strlen u + sizeof_cache_element) c).
    split; [done|]. split; [|auto]. apply make_space_ok; [done|]. rewrite Hsz in *. lia.
  - lia.
  - eexists 1, _. split; [exact E|]. split; [|auto].
    destruct (make_space_ok (size + strlen u + sizeof_cache_element) c Hok)
      as [Hok1 Hpost]; [rewrite Hsz in *; lia|].
    pose proof (cache_ok_range _ Hok1) as Hr1.
    destruct Hok1 as (Hsz1 & Hlen1 & Hmax1).
    rewrite to_int_id by (rewrite Hsz in *; lia).
    repeat split; cbn [cache_list cache_size].
    + rewrite cache_bytes_cons, entry_bytes_new. lia.
    + constructor; [simpl; lia|done].
    + lia.
Qed.
(** ** The cache: lookup *)

Lemma cache_walk_Some u l i :
  cache_walk u l = Some i ->
  exists e, l !! i = Some e /\ strcmp (url e) u = 0 /\
            forall j e', (j < i)%nat -> l !! j = Some e' -> strcmp (url e') u <> 0.
Proof.
  revert i. induction l as [|x l IH]; intros i H; simpl in H; [done|].
  destruct (strcmp (url x) u =? 0) eqn:Hx.
  - injection H as <-. exists x. repeat split; [lia|]. intros j e' Hj. lia.
  - destruct (cache_walk u l) as [i'|] eqn:Hw; [|done]. injection H as <-.
    destruct (IH i' eq_refl) as (e & Hi & He & Hmin). exists e. repeat split; [done..|].
    intros [|j] e' Hj Hl; simplify_eq/=; [lia|]. eapply Hmin; [|done]. lia.
Qed.

Lemma cache_walk_None u l :
  cache_walk u l = None -> forall e, e ∈ l -> strcmp (url e) u <> 0.
Proof.
  induction l as [|x l IH]; intros H e He; simpl in H; [by apply elem_of_nil in He|].
  destruct (strcmp (url x) u =? 0) eqn:Hx; [done|].
  destruct (cache_walk u l) eqn:Hw; [done|].
  apply elem_of_cons in He as [->|He]; [lia|by apply IH].
Qed.

Lemma cache_walk_head u x l : strcmp (url x) u = 0 -> cache_walk u (x :: l) = Some 0%nat.
Proof. intros H. simpl. by rewrite H. Qed.

Lemma insert_head_delete (l : list cache_element) e e' :
  l !! 0%nat = Some e -> <[0%nat := e']> l = e' :: delete 0%nat l.
Proof. by destruct l. Qed.

Lemma find_in_cache_hit now u c s e :
  e ∈ cache_list c -> strcmp (url e) u = 0 ->
  exists i first,
    cache_walk u (cache_list c) = Some i /\
    cache_list c !! i = Some first /\ strcmp (url first) u = 0 /\
    find_in_cache now u c s =
      (Some (touch now first),
       {| cache_list := touch now first :: delete i (cache_list c);
          cache_size := cache_size c |},
       hit s).
Proof.
  intros He Hu. unfold find_in_cache.
  destruct (cache_walk u (cache_list c)) as [i|] eqn:Hw.
  2: { by destruct (cache_walk_None _ _ Hw e He). }
  destruct (cache_walk_Some _ _ _ Hw) as (first & Hi & Hfirst & _).
  exists i, first. rewrite Hi, Hfirst. repeat split; [done..|]. simpl.
  case_decide as H0; [|done]. subst i.
  by rewrite (insert_head_delete _ first).
Qed.

Lemma find_in_cache_head now u x l n s :
  strcmp (url x) u = 0 ->
  find_in_cache now u {| cache_list := x :: l; cache_size := n |} s =
    (Some (touch now x), {| cache_list := touch now x :: l; cache_size := n |}, hit s).
Proof.
  intros H. unfold find_in_cache. cbn [cache_list cache_size].
  rewrite (cache_walk_head u x l H). cbn [lookup list_lookup]. by rewrite H.
Qed.

Lemma find_in_cache_miss now u c s :
  (forall e, e ∈ cache_list c -> strcmp (url e) u <> 0) ->
  find_in_cache now u c s = (None, c, miss s).
Proof.
  intros H. unfold find_in_cache.
  destruct (cache_walk u (cache_list c)) as [i|] eqn:Hw; [|done].
  destruct (cache_walk_Some _ _ _ Hw) as (e & Hi & He & _).
  destruct (H e); [by eapply list_elem_of_lookup_2|done].
Qed.

Lemma find_in_cache_ok now u c s :
  cache_ok c ->
  cache_ok (snd (fst (find_in_cache now u c s))) /\
  cache_size (snd (fst (find_in_cache now u c s))) = cache_size c.
Proof.
  intros (Hsz & Hlen & Hmax). unfold find_in_cache.
  destruct (cache_walk u (cache_list c)) as [i|] eqn:Hw; [|done].
  destruct (cache_walk_Some _ _ _ Hw) as (e & Hi & He & _). rewrite Hi, He. simpl.
  split; [|done].
  assert (cache_bytes (touch now e :: delete i (cache_list c))
          = cache_bytes (cache_list c)) as Hb.
  { rewrite cache_bytes_cons, entry_bytes_touch, (cache_bytes_delete _ _ _ Hi). lia. }
  assert (Forall (fun e => 0 <= len e) (touch now e :: delete i (cache_list c))) as Hf.
  { constructor; [|by apply Forall_delete_len]. simpl.
    rewrite Forall_forall in Hlen. apply Hlen. by eapply list_elem_of_lookup_2. }
  assert ((if decide (i = 0%nat) then <[0%nat := touch now e]> (cache_list c)
           else touch now e :: delete i (cache_list c))
          = touch now e :: delete i (cache_list c)) as ->.
  { case_decide as H0; [|done]. subst i. by apply insert_head_delete with e. }
  repeat split; cbn [cache_list cache_size]; [|done..]. by rewrite Hb.
Qed.

Lemma lru_scan_min chain lru :
  let r := lru_scan chain (lru_time_track lru.2) lru in
  lru_time_track r.2 <= lru_time_track lru.2 /\
  forall x, x ∈ chain -> lru_time_track r.2 <= lru_time_track x.2.
Proof.
  revert lru. induction chain as [|cur chain IH]; intros lru; simpl.
  { split; [lia|]. intros x Hx. by apply elem_of_nil in Hx. }
  destruct (lru_time_track cur.2 <? lru_time_track lru.2) eqn:Hlt.
  - destruct (IH cur) as [H1 H2]. split; [lia|].
    intros x [->|Hx]%elem_of_cons; [done|by apply H2].
  - destruct (IH lru) as [H1 H2]. split; [done|].
    intros x [->|Hx]%elem_of_cons; [lia|by apply H2].
Qed.

(** The element [remove_lru_element] unlinks carries the oldest timestamp. *)
Lemma remove_lru_element_oldest c :
  cache_list c <> [] ->
  exists i lru,
    cache_list c !! i = Some lru /\
    cache_list (remove_lru_element c) = delete i (cache_list c) /\
    forall x, x ∈ cache_list c -> lru_time_track lru <= lru_time_track x.
Proof.
  intros Hne. unfold remove_lru_element.
  destruct (prev_chain (cache_list c)) as [|tail chain] eqn:Hchain.
  { by apply prev_chain_nil in Hchain. }
  pose proof (lru_scan_min (tail :: chain) tail) as Hmin. cbv zeta in Hmin.
  destruct Hmin as [_ Hmin].
  pose proof (lru_scan_in (tail :: chain) (lru_time_track tail.2) tail) as Hin.
  remember (lru_scan (tail :: chain) (lru_time_track tail.2) tail) as lru eqn:Hlru.
  assert (lru ∈ prev_chain (cache_list c)) as Hin'.
  { rewrite Hchain. destruct Hin as [->|H]; [left|done]. }
  destruct lru as [i x]. apply prev_chain_lookup in Hin'.
  exists i, x. repeat split; [done|].
  intros y Hy. apply list_elem_of_lookup in Hy as [j Hj].
  apply prev_chain_lookup in Hj. rewrite Hchain in Hj.
  apply (Hmin _ Hj).
Qed.

(** ** Claims about the cache *)

(** C7. A lookup of a key the cache holds is a hit: the first element with
    that key is returned, it is the head afterwards, its timestamp is the
    time of the lookup and its access count, an [int], is incremented (by
    one as long as it has not reached [INT_MAX]); the rest of it is as
    before. A second lookup right after is a hit on the same element, which
    stays the head. The hit counter, a [long], is incremented likewise. *)
Theorem lookup_hit_promotes (now now' : Z) (k : bytes) (c : cache_state) (s : stats_t)
    (e : cache_element) :
  e ∈ cache_list c -> strcmp (url e) k = 0 ->
  exists first c1 s1 c2 s2,
    first ∈ cache_list c /\ strcmp (url first) k = 0 /\
    find_in_cache now k c s = (Some (touch now first), c1, s1) /\
    cache_head c1 = Some (touch now first) /\
    lru_time_track (touch now first) = now /\
    access_count (touch now first) = to_int (access_count first + 1) /\
    (INT_MIN <= access_count first < INT_MAX ->
     access_count (touch now first) = access_count first + 1) /\
    (data (touch now first), len (touch now first), url (touch now first))
      = (data first, len first, url first) /\
    cache_hits s1 = to_long (cache_hits s + 1) /\
    find_in_cache now' k c1 s1 = (Some (touch now' (touch now first)), c2, s2) /\
    cache_head c2 = Some (touch now' (touch now first)) /\
    lru_time_track (touch now' (touch now first)) = now' /\
    tail (cache_list c2) = tail (cache_list c1) /\
    (INT_MIN <= access_count first < INT_MAX - 1 ->
     access_count (touch now' (touch now first)) = access_count first + 2) /\
    (LONG_MIN <= cache_hits s < LONG_MAX - 1 ->
     cache_hits s1 = cache_hits s + 1 /\ cache_hits s2 = cache_hits s + 2).
Proof.
  intros He Hk.
  destruct (find_in_cache_hit now k c s e He Hk) as (i & first & Hw & Hi & Hfirst & Hfind).
  set (c1 := {| cache_list := touch now first :: delete i (cache_list c);
                cache_size := cache_size c |}).
  assert (find_in_cache now' k c1 (hit s)
          = (Some (touch now' (touch now first)),
             {| cache_list := touch now' (touch now first) :: delete i (cache_list c);
                cache_size := cache_size c |},
             hit (hit s))) as Hsecond.
  { by apply find_in_cache_head. }
  exists first, c1, (hit s),
    {| cache_list := touch now' (touch now first) :: delete i (cache_list c);
       cache_size := cache_size c |}, (hit (hit s)).
  split; [by eapply list_elem_of_lookup_2|].
  do 5 (split; [done|]).
  split. { intros H. simpl. apply to_int_id. unfold INT_MIN, INT_MAX in *. lia. }
  do 6 (split; [done|]).
  split.
  { intros H. simpl. rewrite (to_int_id (access_count first + 1));
      [rewrite to_int_id|]; unfold INT_MIN, INT_MAX in *; lia. }
  intros H. simpl. rewrite (to_long_id (cache_hits s + 1));
    [split; [done|rewrite to_long_id]|]; unfold LONG_MIN, LONG_MAX in *; lia.
Qed.

(** C3, as the code has it. An insertion that is accepted links a new
    element at the head and leaves in the list, behind it, every element the
    eviction loop did not unlink: an element that already carries the key is
    not replaced. When the new element fits without eviction the old list is
    kept whole, so the number of elements with that key grows by one. A
    lookup of the key then finds the new element. *)
Theorem insert_keeps_existing (o : add_env) (d : bytes) (size : Z) (k : bytes)
    (c c' : cache_state) (now : Z) (s : stats_t) :
  add_to_cache o d size k c = Returns (1, c') ->
  let element_size := to_int (size + strlen k + sizeof_cache_element) in
  let element := new_element o d size k in
  cache_head c' = Some element /\
  cache_list c' = element :: cache_list (make_space element_size c) /\
  (to_int (cache_size c + element_size) <= MAX_SIZE ->
   cache_list c' = element :: cache_list c /\
   count_key k (cache_list c') = S (count_key k (cache_list c))) /\
  fst (fst (find_in_cache now k c' s)) = Some (touch now element).
Proof.
  intros Hadd es element.
  destruct (add_to_cache_accepted _ _ _ _ _ _ Hadd) as (Hes & _ & ->). fold es.
  assert (strcmp (url element) k = 0) as Hkey.
  { apply strcmp_0_iff. simpl. apply cstr_idemp. }
  repeat split; try done.
  - cbn [cache_list]. by rewrite make_space_fits.
  - cbn [cache_list]. rewrite make_space_fits; [|done].
    unfold count_key. rewrite filter_cons_True; done.
  - by rewrite find_in_cache_head.
Qed.

(** C9, as the code has it. On a cache whose counter is exact (with the
    lengths non-negative and the cache within its capacity),
    [remove_lru_element] leaves the counter exact and subtracts the
    footprint of the element it unlinks; [add_to_cache] does so for a [size]
    that is not negative, that [data] holds, and whose footprint sum
    [size + strlen(url) + sizeof(cache_element)] is an [int]: the call
    returns, an accepted insertion adds the footprint of the element it
    links, a rejected one changes the counter only through its evictions. *)
Theorem cache_size_exact (c : cache_state) :
  cache_ok c ->
  (forall o d size u,
     0 <= size <= Z.of_nat (length d) ->
     size + strlen u + sizeof_cache_element <= INT_MAX ->
     let before := make_space (size + strlen u + sizeof_cache_element) c in
     exists r c',
       add_to_cache o d size u c = Returns (r, c') /\
       cache_size c' = cache_bytes (cache_list c') /\
       cache_ok c' /\
       cache_size before = cache_bytes (cache_list before) /\
       (r = 1 ->
        exists element,
          cache_list c' = element :: cache_list before /\
          len element = size /\ url element = cstr u /\
          cache_size c' = cache_size before + entry_bytes element /\
          entry_bytes element = size + strlen u + sizeof_cache_element) /\
       (r <> 1 -> c' = c \/ c' = before)) /\
  cache_size (remove_lru_element c) = cache_bytes (cache_list (remove_lru_element c)) /\
  cache_ok (remove_lru_element c) /\
  (cache_list c = [] -> remove_lru_element c = c) /\
  (cache_list c <> [] ->
   exists i lru,
     cache_list c !! i = Some lru /\
     cache_list (remove_lru_element c) = delete i (cache_list c) /\
     cache_size (remove_lru_element c) = cache_size c - entry_bytes lru).
Proof.
  intros Hok. split; [|split; [|split; [|split]]].
  - intros o d size u Hsize Hfit before.
    pose proof (strlen_nonneg u) as Hu.
    destruct constants as (_ & HE & HM & Hmin & HMax & Hsz).
    assert (to_int (size + strlen u + sizeof_cache_element)
            = size + strlen u + sizeof_cache_element) as Hes.
    { apply to_int_id. rewrite Hsz in *. lia. }
    destruct (add_to_cache_ok o d size u c Hok Hsize Hfit) as (r & c' & Hadd & Hok' & Hr).
    exists r, c'. split; [done|]. split; [apply Hok'|]. split; [done|].
    destruct (make_space_loop_ok (length (cache_list c))
                (size + strlen u + sizeof_cache_element) c Hok) as [Hokb _].
    fold (make_space (size + strlen u + sizeof_cache_element) c) in Hokb.
    fold before in Hokb. pose proof (cache_ok_range _ Hokb) as Hrb.
    split; [apply Hokb|].
    destruct (add_to_cache_cases o d size u c)
      as [[E _]|[[E Hle]|[(E & _ & Hbad)|(E & Hle & _)]]];
      rewrite E in Hadd; rewrite ?Hes in *; simplify_eq.
    + split; [done|]. by left.
    + split; [done|]. by right.
    + split; [|done]. intros _.
      destruct (make_space_ok (size + strlen u + sizeof_cache_element) c Hok)
        as [_ Hpost]; [rewrite Hsz in *; lia|]. fold before in Hpost |- *.
      destruct Hokb as (Hb & _ & _).
      exists (new_element o d size u). rewrite entry_bytes_new.
      cbn [cache_list cache_size]. repeat split.
      apply to_int_id. rewrite Hsz in *. lia.
  - by destruct (remove_lru_element_ok c Hok).
  - by apply remove_lru_element_ok.
  - apply remove_lru_element_nil.
  - intros Hne. destruct (remove_lru_element_spec c Hne) as (i & lru & Hi & Heq).
    exists i, lru. rewrite Heq. cbn [cache_list cache_size]. repeat split; [done|].
    apply to_int_id.
    pose proof (remove_lru_element_ok c Hok) as (Hsz' & Hlen' & _).
    rewrite Heq in Hsz', Hlen'. cbn [cache_list cache_size] in Hsz', Hlen'.
    pose proof (cache_ok_range c Hok) as Hr.
    destruct Hok as (Hsz & Hlen & Hmax).
    pose proof (cache_bytes_nonneg _ Hlen').
    rewrite (cache_bytes_delete _ _ _ Hi) in H.
    assert (0 < entry_bytes lru).
    { apply entry_bytes_pos. rewrite Forall_forall in Hlen. apply Hlen.
      by eapply list_elem_of_lookup_2. }
    destruct constants as (_ & HE & HM & Hmin & HMax & _). lia.
Qed.

(** ** Admission *)

Lemma held_nonneg ws : 0 <= held ws.
Proof.
  induction ws as [|w ws IH]; [done|]. change (0 <= worker_holds w + held ws).
  destruct w; simpl; lia.
Qed.

Lemma held_insert ws i w w' :
  ws !! i = Some w ->
  held (<[i := w']> ws) = held ws - worker_holds w + worker_holds w'.
Proof.
  revert i. induction ws as [|x ws IH]; intros [|i] H; simplify_eq/=.
  - fold (held ws). lia.
  - fold (held ws) (held (<[i := w']> ws)). rewrite (IH _ H). lia.
Qed.

Lemma held_replicate n : held (replicate n WorkerLoop) = 0.
Proof.
  induction n as [|n IH]; [done|]. simpl. fold (held (replicate n WorkerLoop)). lia.
Qed.

Lemma dequeue_request_item q r item q' :
  dequeue_request q r = DequeueReturn (Some item) q' -> q = item :: q'.
Proof.
  unfold dequeue_request. destruct q as [|x q], r; simpl; intros H; by simplify_eq.
Qed.

Lemma dequeue_request_null q r q' :
  dequeue_request q r = DequeueReturn None q' -> q' = q /\ r = false.
Proof.
  unfold dequeue_request. destruct q as [|x q], r; simpl; intros H; by simplify_eq.
Qed.

Lemma enqueue_request_done m item q q' :
  enqueue_request m item q = EnqueueDone q' -> q' = q ++ [item].
Proof.
  unfold enqueue_request. destruct m; simpl; [|done].
  destruct (count q >=? QUEUE_SIZE); intros H; by simplify_eq.
Qed.

Lemma count_app q item : count (q ++ [item]) = count q + 1.
Proof. unfold count. rewrite length_app. simpl. lia. Qed.

Lemma count_cons item q : count (item :: q) = count q + 1.
Proof. unfold count. simpl. lia. Qed.

Lemma count_nonneg q : 0 <= count q.
Proof. unfold count. lia. Qed.

Lemma admission_inv_boot n : admission_inv (boot n).
Proof.
  unfold admission_inv, boot, pending. simpl.
  split; [done|]. split; [|split; [done|split]].
  - intros i w [-> _]%lookup_replicate. done.
  - intros i loaded [? _]%lookup_replicate. done.
  - rewrite held_replicate. unfold count. simpl. split; [lia|done].
Qed.

(** After worker [i] moved from [w] to [w'], a fact about every worker follows
    from the fact about [w'] and the facts about the others before. *)
Lemma workers_after_move (P : nat -> worker_pc -> Prop) (ws : list worker_pc) i w w' :
  ws !! i = Some w ->
  P i w' ->
  (forall j w, j <> i -> ws !! j = Some w -> P j w) ->
  forall j w, <[i := w']> ws !! j = Some w -> P j w.
Proof.
  intros Hi Hnew Hold j x Hj. apply lookup_lt_Some in Hi.
  destruct (decide (j = i)) as [->|Hne].
  - rewrite list_lookup_insert_eq in Hj by done. by simplify_eq.
  - rewrite list_lookup_insert_ne in Hj by done. by apply Hold.
Qed.

Lemma in_cs_after_move (ws : list worker_pc) i w w' (m : option tid) :
  ws !! i = Some w ->
  (worker_in_cs w' = true <-> m = Some (Worker i)) ->
  (forall j x, j <> i -> ws !! j = Some x -> worker_in_cs x = true <-> m = Some (Worker j)) ->
  forall j x, <[i := w']> ws !! j = Some x -> worker_in_cs x = true <-> m = Some (Worker j).
Proof.
  intros Hi Hnew Hold.
  by apply (workers_after_move
              (fun j x => worker_in_cs x = true <-> m = Some (Worker j)) ws i w w').
Qed.

Lemma stored_after_move (ws : list worker_pc) i w w' (n : Z) :
  ws !! i = Some w ->
  (forall r, w' = WorkerStore r -> r = n) ->
  (forall j r, j <> i -> ws !! j = Some (WorkerStore r) -> r = n) ->
  forall j r, <[i := w']> ws !! j = Some (WorkerStore r) -> r = n.
Proof.
  intros Hi Hnew Hold j r Hj.
  apply (workers_after_move (fun j x => forall r, x = WorkerStore r -> r = n) ws i w w')
    with j (WorkerStore r); try done.
  intros k x Hne Hk r' ->. by eapply Hold.
Qed.

Lemma admission_inv_step s s' : step s s' -> admission_inv s -> admission_inv s'.
Proof.
  unfold admission_inv, pending.
  destruct 1; intros (Hacc & Hws & Hreg & Hst & Hbound); cbn [sys_count sys_mutex sys_queue
    sys_running sys_acceptor sys_workers acceptor_in_cs acceptor_holds] in *.
  1-13: (split; [|split; [|split; [|split]]]);
    try done; try lia; try (intuition congruence).
  all: try (intros i0 w0 Hi0; specialize (Hws i0 w0 Hi0); intuition congruence).
  { intros i l Hi. specialize (Hws i _ Hi). simpl in Hws. intuition congruence. }
  { apply enqueue_request_done in H. subst q'. rewrite count_app. lia. }
  all: try (apply dequeue_request_item in H0; subst q; rewrite count_cons in Hbound).
  all: try (apply dequeue_request_null in H0 as [-> ->]).
  all: match goal with
    | Hi : ?l !! ?k = Some _ |- context [<[?k := ?w']> ?l] =>
        pose proof (Hws _ _ Hi) as Hme;
        pose proof (held_insert l k _ w' Hi) as Hheld
    end;
    cbn [worker_in_cs worker_holds] in Hme, Hheld.
  all: (split; [|split; [eapply in_cs_after_move; [eassumption|..]
                        |split; [|split; [eapply stored_after_move; [eassumption|..]|]]]]).
  all: cbn [worker_in_cs].
  all: try (intros j w Hne Hj; specialize (Hws j w Hj)).
  all: try (intros j w Hne Hj; specialize (Hst j w Hj)).
  all: try done; try lia; try (intuition congruence).
  - assert (m = Some (Worker i)) as -> by (by apply Hme).
    destruct a; try done; cbn [acceptor_in_cs] in Hacc; intuition congruence.
  - pose proof (Hws _ _ Hj) as Hother. cbn [worker_in_cs] in Hother.
    intuition congruence.
  - pose proof (Hst _ _ H). lia.
Qed.

(** C4. In every state that a run of the acceptor and the workers reaches,
    whatever the order in which their statements interleave, the counter
    [active_connection_count] lies between 0 and [MAX_CLIENTS]; it is never
    less than the number of sockets counted and not yet released. *)
Theorem admission_bound (workers : nat) (s : system) :
  reachable workers s ->
  0 <= sys_count s <= MAX_CLIENTS /\ 0 <= pending s <= sys_count s.
Proof.
  intros Hreach.
  assert (admission_inv s) as (_ & _ & _ & _ & Hbound).
  { revert s Hreach. unfold reachable. apply rtc_ind_r; [apply admission_inv_boot|].
    intros y z _ Hstep IH. by eapply admission_inv_step. }
  assert (0 <= pending s).
  { unfold pending. pose proof (count_nonneg (sys_queue s)).
    pose proof (held_nonneg (sys_workers s)).
    destruct (sys_acceptor s); simpl; lia. }
  lia.
Qed.

(** ** The work queue at shutdown *)

(** C8, as the code has it. A call of [dequeue_request] that finds the
    running flag clear returns the sentinel at once and leaves the queue as
    it is, whether or not items are linked: it drains nothing. An item is
    handed out only by a call that finds the flag set, and then it is the
    head of the queue; with the flag set and the queue empty the call
    sleeps. *)
Theorem dequeue_after_shutdown :
  (forall q, dequeue_request q false = DequeueReturn None q) /\
  (forall q item q',
     dequeue_request q true = DequeueReturn item q' ->
     exists first, item = Some first /\ q = first :: q') /\
  (forall q flag first q',
     dequeue_request q flag = DequeueReturn (Some first) q' ->
     flag = true /\ q = first :: q') /\
  (forall q, q = [] -> dequeue_request q true = DequeueWait).
Proof.
  split; [|split; [|split]].
  - intros q. unfold dequeue_request. by destruct q.
  - intros q item q'. unfold dequeue_request. destruct q as [|x q]; simpl; [done|].
    intros [= <- <-]. by exists x.
  - intros q flag first q'. unfold dequeue_request.
    destruct q as [|x q], flag; simpl; try done. by intros [= <- <-].
  - by intros q ->.
Qed.

(** C8 as stated fails: with two items linked and the flag clear the
    sentinel is returned and both items stay in the queue. *)
Lemma dequeue_shutdown_leaves_items :
  dequeue_request [item_on 4; item_on 5] false
    = DequeueReturn None [item_on 4; item_on 5] /\
  ~ (forall q q', dequeue_request q false = DequeueReturn None q' -> q = []).
Proof.
  split; [reflexivity|]. intros H.
  by specialize (H [item_on 4; item_on 5] _ eq_refl).
Qed.

(** ** The acceptor at the limit *)

Lemma sendErrorMessage_503 socket currentTime tx :
  sendErrorMessage socket 503 currentTime tx = (-1, [], tx).
Proof. reflexivity. Qed.

Lemma accept_connection_full malloc_item currentTime tx item p :
  active_connection_count p >= MAX_CLIENTS ->
  accept_connection malloc_item currentTime tx item p
    = (AcceptRefused, [EvLock; EvUnlock; EvClose (client_socket item)], p).
Proof.
  intros H. unfold accept_connection.
  destruct (active_connection_count p >=? MAX_CLIENTS) eqn:E; [|lia].
  by rewrite sendErrorMessage_503.
Qed.

(** C2 at the failing input: with [MAX_CLIENTS] connections counted, the
    socket that is accepted next is closed and the counter is left alone,
    but nothing is written to it: [sendErrorMessage] has no case for 503 and
    returns -1 before it sends. The sibling status 500 is written in full. *)
Theorem refusal_at_limit_sends_nothing :
  accept_connection true date [120] (item_on 9) (idle_state MAX_CLIENTS)
    = (AcceptRefused, [EvLock; EvUnlock; EvClose 9], idle_state MAX_CLIENTS) /\
  sent_to 9 [EvLock; EvUnlock; EvClose 9] = [] /\
  sendErrorMessage 9 503 date [120] = (-1, [], [120]) /\
  sent_to 9 (snd (fst (sendErrorMessage 9 500 date [120])))
    = [lit "HTTP/1.1 500 Internal Server Error" ++ CRLF ++
       lit "Content-Length: 115" ++ CRLF ++
       lit "Content-Type: text/html" ++ CRLF ++
       lit "Connection: keep-alive" ++ CRLF ++
       lit "Date: Mon, 02 Nov 2026 08:00:00 GMT" ++ CRLF ++
       lit "Server: HighPerformanceProxy/2.0" ++ CRLF ++ CRLF ++
       lit "<HTML><HEAD><TITLE>500 Internal Server Error</TITLE></HEAD>
<BODY><H1>500 Internal Server Error</H1>
</BODY></HTML>"].
Proof. repeat split; by vm_compute. Qed.

(** ** The worker: events of a turn *)

Lemma tally_app kind evs1 evs2 :
  tally kind (evs1 ++ evs2) = (tally kind evs1 + tally kind evs2)%nat.
Proof. unfold tally. by rewrite filter_app, length_app. Qed.

Lemma tally_cons kind ev evs :
  tally kind (ev :: evs) = ((if kind ev then 1 else 0) + tally kind evs)%nat.
Proof. unfold tally. rewrite filter_cons. by destruct (kind ev). Qed.

Lemma tally_nil kind : tally kind [] = 0%nat.
Proof. done. Qed.

Lemma tally_inert client evs :
  Forall (inert client) evs ->
  tally (is_close client) evs = 0%nat /\ tally is_decrement evs = 0%nat /\
  tally is_signal evs = 0%nat.
Proof.
  unfold tally. induction 1 as [|ev evs (H1 & H2 & H3) _ (IH1 & IH2 & IH3)]; [done|].
  rewrite !filter_cons, H1, H2, H3. done.
Qed.

Lemma tally_sends kind client evs :
  (forall d r, kind (EvSend client d r) = false) ->
  Forall (fun ev => exists d r, ev = EvSend client d r) evs -> tally kind evs = 0%nat.
Proof.
  intros Hkind. unfold tally. induction 1 as [|ev evs (d & r & ->) _ IH]; [done|].
  by rewrite filter_cons, Hkind.
Qed.

Lemma sent_to_app fd evs1 evs2 : sent_to fd (evs1 ++ evs2) = sent_to fd evs1 ++ sent_to fd evs2.
Proof.
  induction evs1 as [|ev evs1 IH]; [done|]. destruct ev; simpl; try done.
  destruct (_ =? fd); simpl; by rewrite IH.
Qed.

Lemma sends_inert client evs :
  Forall (fun ev => exists d r, ev = EvSend client d r) evs -> Forall (inert client) evs.
Proof. intros H. eapply Forall_impl; [exact H|]. by intros ev (d & r & ->). Qed.

Ltac inert_list :=
  repeat (apply List.Forall_cons; [first [done | assumption]|]);
  try apply List.Forall_nil.

(** The forwarding loop does nothing but [send] on the client socket. *)
Lemma tee_loop_sends realloc_ok client script : forall tx t evs tx' t',
  tee_loop realloc_ok client script tx t = Returns (evs, tx', t') ->
  Forall (fun ev => exists d r, ev = EvSend client d r) evs.
Proof.
  induction script as [|r script IH]; intros tx t evs tx' t'; cbn [tee_loop].
  { intros [= <- <- <-]. constructor. }
  destruct (recv [r] (MAX_BYTES - 1)) as [[bytes_received got] rest].
  destruct (bytes_received >? 0); [|intros [= <- <- <-]; constructor].
  destruct (send_result tx) as [bytes_forwarded tx1].
  destruct (bytes_forwarded <? 0).
  { intros [= <- <- <-]. constructor; [by eexists _, _|constructor]. }
  destruct (capture realloc_ok got bytes_received t) as [t1|]; cbn [and_then]; [|done].
  destruct (tee_loop realloc_ok client script tx1 t1) as [[[evs0 tx0] t0]|] eqn:Hrest;
    cbn [and_then]; [|done].
  intros [= <- <- <-]. constructor; [by eexists _, _|by eapply IH].
Qed.

(** So does the loop that serves a hit. *)
Lemma serve_cached_sends client cached tx : forall sent evs tx',
  serve_cached client cached tx sent = Returns (evs, tx') ->
  Forall (fun ev => exists d r, ev = EvSend client d r) evs.
Proof.
  induction tx as [|bytes_sent tx IH]; intros sent evs tx'; cbn [serve_cached].
  - destruct (sent <? _); [|intros [= <- <-]; constructor].
    destruct (_ >? _); [done|]. intros [= <- <-].
    constructor; [by eexists _, _|constructor].
  - destruct (sent <? _); [|intros [= <- <-]; constructor].
    destruct (_ >? _); [done|].
    destruct (bytes_sent <=? 0).
    { intros [= <- <-]. constructor; [by eexists _, _|constructor]. }
    destruct (serve_cached client cached tx _) as [[evs0 tx0]|] eqn:Hrest;
      cbn [and_then]; [|done].
    intros [= <- <-]. constructor; [by eexists _, _|by eapply IH].
Qed.

(** [sendErrorMessage] sends one page, or nothing for a status it does not
    know. *)
Lemma sendErrorMessage_events socket status_code currentTime tx :
  (error_page status_code currentTime = None /\
   snd (fst (sendErrorMessage socket status_code currentTime tx)) = []) \/
  (exists page,
     error_page status_code currentTime = Some page /\
     snd (fst (sendErrorMessage socket status_code currentTime tx))
       = [EvSend socket page (fst (send_result tx))]).
Proof.
  unfold sendErrorMessage. destruct (error_page status_code currentTime) as [str|];
    [right|by left].
  exists str. split; [done|]. by destruct (send_result tx) as [ret tx'].
Qed.

Lemma sendErrorMessage_sends client status_code currentTime tx :
  Forall (fun ev => exists d r, ev = EvSend client d r)
    (snd (fst (sendErrorMessage client status_code currentTime tx))).
Proof.
  destruct (sendErrorMessage_events client status_code currentTime tx)
    as [[_ ->]|(page & _ & ->)]; [constructor|].
  constructor; [by eexists _, _|constructor].
Qed.


(** What a call of the handler that returns has done: it failed before it
    built the request; or it built it and failed on the way to the upstream,
    having closed the socket it had got; or it forwarded what the upstream
    sent and handed the socket to the pool. A call that fails has sent the
    client nothing and has left the cache and the statistics alone. *)
Lemma handle_request_optimized_shape e tx client request temp_req c s ret evs tx' c' s' :
  handle_request_optimized e tx client request temp_req c s
    = Returns (ret, evs, tx', c', s') ->
  (malloc_send_buffer e = false /\ ret = -1 /\ evs = [] /\ tx' = tx /\ c' = c /\ s' = s) \/
  exists text,
    malloc_send_buffer e = true /\ build_request request = Returns text /\
    let remote := connect_result e in
    let connected :=
      EvConnect (default [] (host request))
        (match port request with Some po => atoi po | None => 80 end) remote in
    let forwarded := EvSendUpstream remote text (upstream_send e) in
    (remote < 0 /\ ret = -1 /\ evs = [connected] /\ tx' = tx /\ c' = c /\ s' = s) \/
    (0 <= remote /\ ret = -1 /\ evs = [connected; forwarded; EvClose remote] /\
     (upstream_send e < 0 \/ malloc_response_buffer e = false) /\
     tx' = tx /\ c' = c /\ s' = s) \/
    (0 <= remote /\ 0 <= upstream_send e /\ ret = 0 /\
     exists sends,
       Forall (fun ev => exists d r, ev = EvSend client d r) sends /\
       evs = [connected; forwarded] ++ sends ++ [EvReturnPooled remote]).
Proof.
  unfold handle_request_optimized.
  destruct (malloc_send_buffer e); cbn [negb]; [|intros [= <- <- <- <- <-]; by left].
  destruct (build_request request) as [text|]; cbn [and_then]; [|done].
  intros H. right. exists text. split; [done|]. split; [done|]. cbv zeta.
  destruct (connect_result e <? 0) eqn:Hc.
  { injection H as <- <- <- <- <-. left. repeat split; try done; try lia. }
  right.
  destruct (upstream_send e <? 0) eqn:Hs.
  { injection H as <- <- <- <- <-. left. repeat split; try done; try lia. }
  destruct (malloc_response_buffer e); cbn [negb] in H.
  2: { injection H as <- <- <- <- <-. left. repeat split; try done; try lia; by right. }
  right.
  destruct (tee_loop _ _ _ _ _) as [[[sends tx1] t]|] eqn:Htee; cbn [and_then] in H; [|done].
  apply tee_loop_sends in Htee.
  destruct (if total_received t >? 0 then _ else _) as [[c1 s1]|]; cbn [and_then] in H;
    [|done].
  injection H as <- <- <- <- <-. repeat split; try lia. by exists sends.
Qed.

Lemma handle_request_optimized_inert e tx client request temp_req c s ret evs tx' c' s' :
  connect_result e <> client ->
  handle_request_optimized e tx client request temp_req c s
    = Returns (ret, evs, tx', c', s') ->
  Forall (inert client) evs.
Proof.
  intros Hfd H.
  assert (inert client (EvClose (connect_result e))) as Hclose.
  { repeat split. simpl. lia. }
  destruct (handle_request_optimized_shape _ _ _ _ _ _ _ _ _ _ _ _ H)
    as [(_ & _ & -> & _)|(text & _ & _ & [(_ & _ & -> & _)|[(_ & _ & -> & _)|
         (_ & _ & _ & sends & Hsends & ->)]])]; cbv zeta.
  - constructor.
  - inert_list.
  - inert_list.
  - inert_list. apply Forall_app. split; [by apply sends_inert|inert_list].
Qed.

Lemma dispatch_inert e client request temp_req c s evs c' s' :
  connect_result e <> client ->
  dispatch e client request temp_req c s = Returns (evs, c', s') ->
  Forall (inert client) evs.
Proof.
  intros Hfd. unfold dispatch. destruct (method request) as [m|]; [|done].
  destruct (_ && _).
  - destruct (handle_request_optimized _ _ _ _ _ _ _) as [[[[[ret evs0] tx] c0] s0]|] eqn:Hh;
      cbn [and_then]; [|done].
    pose proof (handle_request_optimized_inert _ _ _ _ _ _ _ _ _ _ _ _ Hfd Hh) as Hin.
    destruct (ret <? 0); intros [= <- <- <-]; [|done].
    apply Forall_app. split; [done|]. apply sends_inert, sendErrorMessage_sends.
  - intros [= <- <- <-]. apply sends_inert, sendErrorMessage_sends.
Qed.

Lemma serve_inert e client buffer c s evs c' s' :
  connect_result e <> client ->
  serve e client buffer c s = Returns (evs, c', s') ->
  Forall (inert client) evs.
Proof.
  intros Hfd. unfold serve.
  destruct (find_in_cache _ _ _ _) as [[[cached|] c0] s0].
  - destruct (serve_cached _ _ _ _) as [[evs0 tx0]|] eqn:Hhit; cbn [and_then]; [|done].
    intros [= <- <- <-]. by eapply sends_inert, serve_cached_sends.
  - destruct (if ParsedRequest_create e then _ else _) as [[request|]|];
      cbn [and_then]; [| |done].
    + by apply dispatch_inert.
    + intros [= <- <- <-]. apply sends_inert, sendErrorMessage_sends.
Qed.

(** The events of a turn: those of serving the request, if one was read and
    duplicated, and then always the same ending. *)
Lemma worker_iteration_events e item p :
  calloc_buffer e = true ->
  let client := client_socket item in
  worker_iteration e item p =
    let* (evs, c, s) :=
      (if (snd (read_request (client_rx e)) >? 0) && strdup_temp_req e
       then serve e client (fst (read_request (client_rx e))) (cache p) (stats p)
       else Returns ([], cache p, stats p)) in
    Returns (evs ++ [EvShutdown client; EvClose client] ++ release,
             with_active (to_int (active_connection_count p - 1)) (with_cache c s p)).
Proof.
  intros Hbuf client. unfold worker_iteration. rewrite Hbuf. simpl negb. cbv iota.
  by destruct (read_request (client_rx e)) as [buffer bytes_received].
Qed.

(** A turn that returns ends with the close of the client socket and the
    release of the slot, which occur nowhere else in it. *)
Lemma worker_iteration_release e item p evs p' :
  connect_result e <> client_socket item ->
  worker_iteration e item p = Returns (evs, p') ->
  (exists before,
     evs = before ++ [EvClose (client_socket item); EvLock; EvDecrement; EvSignal; EvUnlock]
     /\ Forall (inert (client_socket item)) before) /\
  tally (is_close (client_socket item)) evs = 1%nat /\
  tally is_decrement evs = 1%nat /\
  tally is_signal evs = 1%nat /\
  active_connection_count p' = to_int (active_connection_count p - 1).
Proof.
  intros Hfd Hturn.
  assert (exists before,
    evs = before ++ [EvClose (client_socket item); EvLock; EvDecrement; EvSignal; EvUnlock]
    /\ Forall (inert (client_socket item)) before
    /\ active_connection_count p' = to_int (active_connection_count p - 1))
    as (before & Hevs & Hin & Hn).
  { destruct (calloc_buffer e) eqn:Hbuf.
    - rewrite (worker_iteration_events e item p Hbuf) in Hturn. cbv zeta in Hturn.
      destruct (if _ && _ then _ else _) as [[[evs0 c0] s0]|] eqn:Hserved;
        cbn [and_then] in Hturn; [|done].
      injection Hturn as <- <-.
      exists (evs0 ++ [EvShutdown (client_socket item)]).
      split; [by rewrite <- app_assoc|]. split; [|done].
      apply Forall_app. split; [|repeat constructor].
      destruct (_ && _); [by eapply serve_inert|].
      injection Hserved as <- <- <-. constructor.
    - unfold worker_iteration in Hturn. rewrite Hbuf in Hturn. simpl in Hturn.
      injection Hturn as <- <-. exists []. done. }
  split; [by exists before|].
  destruct (tally_inert _ _ Hin) as (H1 & H2 & H3).
  rewrite Hevs, !tally_app, H1, H2, H3. unfold tally. simpl.
  rewrite !filter_cons. simpl. rewrite Z.eqb_refl. done.
Qed.
(** ** The forwarding loop *)

Lemma recv_length script max :
  0 <= max ->
  let '(n, got, _) := recv script max in
  n <= max /\ (0 <= n -> n = Z.of_nat (length got)) /\ Z.of_nat (length got) <= max.
Proof.
  intros Hmax. destruct script as [|[d|] rest]; simpl; [lia| |lia].
  rewrite length_take. lia.
Qed.

Lemma tee_ok_start :
  tee_ok {| response_buffer := []; total_received := 0; buffer_size := MAX_ELEMENT_SIZE;
            block := Some MAX_ELEMENT_SIZE |}.
Proof. repeat split; by vm_compute. Qed.

(** What the capture does with one read, in a state within its bounds: the
    bytes are stored behind those captured before; or they would end past
    the block, and nothing is defined; or the read is left out and
    [buffer_size] becomes larger than the block. The buffer is never grown. *)
Lemma capture_cases realloc_ok got n t :
  tee_ok t -> 0 < n <= MAX_BYTES - 1 -> n = Z.of_nat (length got) ->
  (total_received t + n < buffer_size t /\ total_received t + n <= MAX_ELEMENT_SIZE /\
   capture realloc_ok got n t =
     Returns {| response_buffer := response_buffer t ++ got;
                total_received := total_received t + n;
                buffer_size := buffer_size t; block := block t |}) \/
  (total_received t + n < buffer_size t /\ MAX_ELEMENT_SIZE < total_received t + n /\
   capture realloc_ok got n t = Undefined) \/
  (buffer_size t <= total_received t + n /\ total_received t < MAX_ELEMENT_SIZE /\
   capture realloc_ok got n t =
     Returns {| response_buffer := response_buffer t;
                total_received := total_received t;
                buffer_size := total_received t + n + MAX_BYTES; block := block t |}) \/
  (buffer_size t <= total_received t + n /\ total_received t = MAX_ELEMENT_SIZE /\
   capture realloc_ok got n t = Returns t).
Proof.
  intros (Hblock & Hsize & Htotal & Hmax & Hbuf) Hn Hgot.
  destruct constants as (HB & HE & HM & Hmin & HMax & _).
  unfold capture, store_chunk. rewrite Hblock.
  destruct (total_received t + n <? buffer_size t) eqn:E1.
  - destruct (total_received t + n <=? MAX_ELEMENT_SIZE) eqn:E2.
    + left. rewrite to_int_id by lia. split; [lia|]. split; [lia|]. done.
    + right. left. split; [lia|]. split; [lia|]. done.
  - right. right.
    destruct (total_received t <? MAX_ELEMENT_SIZE) eqn:E2.
    + left. rewrite to_int_id by lia.
      destruct (_ <=? MAX_ELEMENT_SIZE) eqn:E3; [lia|].
      split; [lia|]. split; [lia|]. done.
    + right. split; [lia|]. split; [lia|]. by destruct t.
Qed.

Lemma capture_ok realloc_ok got n t t' :
  tee_ok t -> 0 < n <= MAX_BYTES - 1 -> n = Z.of_nat (length got) ->
  capture realloc_ok got n t = Returns t' -> tee_ok t'.
Proof.
  intros Hok Hn Hgot Hcap. pose proof Hok as (Hblock & Hsize & Htotal & Hmax & Hbuf).
  destruct constants as (HB & HE & HM & Hmin & HMax & _).
  destruct (capture_cases realloc_ok got n t Hok Hn Hgot)
    as [(H1 & H2 & E)|[(H1 & H2 & E)|[(H1 & H2 & E)|(H1 & H2 & E)]]];
    rewrite E in Hcap; simplify_eq; [| |done].
  - repeat split; cbn [response_buffer total_received buffer_size block]; try lia; try done.
    rewrite length_app. lia.
  - repeat split; cbn [response_buffer total_received buffer_size block]; try lia; done.
Qed.

(** The capture buffer is never grown: within the bounds of the loop
    [buffer_size] is at least [MAX_ELEMENT_SIZE], so the size computed for
    [realloc] is always over the limit, and what [realloc] would return
    plays no part. *)
Lemma capture_never_grows got n t :
  tee_ok t -> 0 < n <= MAX_BYTES - 1 -> n = Z.of_nat (length got) ->
  capture true got n t = capture false got n t /\
  forall realloc_ok t',
    capture realloc_ok got n t = Returns t' -> block t' = Some MAX_ELEMENT_SIZE.
Proof.
  intros Hok Hn Hgot. split.
  - destruct (capture_cases true got n t Hok Hn Hgot)
      as [(? & ? & ->)|[(? & ? & ->)|[(? & ? & ->)|(? & ? & ->)]]];
    destruct (capture_cases false got n t Hok Hn Hgot)
      as [(? & ? & ->)|[(? & ? & ->)|[(? & ? & ->)|(? & ? & ->)]]];
    first [reflexivity | lia].
  - intros realloc_ok t' Hcap.
    by destruct (capture_ok realloc_ok got n t t' Hok Hn Hgot Hcap) as [Hblock _].
Qed.

Lemma tee_loop_ok realloc_ok client script : forall tx t evs tx' t',
  tee_ok t -> tee_loop realloc_ok client script tx t = Returns (evs, tx', t') -> tee_ok t'.
Proof.
  induction script as [|r script IH]; intros tx t evs tx' t' Hok; cbn [tee_loop].
  { by intros [= <- <- <-]. }
  pose proof (recv_length [r] (MAX_BYTES - 1)) as Hrecv.
  destruct (recv [r] (MAX_BYTES - 1)) as [[n got] rest].
  destruct Hrecv as (H1 & H2 & H3); [by vm_compute|].
  destruct (n >? 0) eqn:E; [|by intros [= <- <- <-]].
  destruct (send_result tx) as [bytes_forwarded tx1].
  destruct (bytes_forwarded <? 0); [by intros [= <- <- <-]|].
  destruct (capture realloc_ok got n t) as [t1|] eqn:Hcap; cbn [and_then]; [|done].
  destruct (tee_loop realloc_ok client script tx1 t1) as [[[evs0 tx0] t0]|] eqn:Hrest;
    cbn [and_then]; [|done].
  intros [= <- <- <-]. eapply IH; [|done].
  eapply capture_ok; [exact Hok| |apply H2; lia|exact Hcap]. lia.
Qed.

Lemma tee_loop_data realloc_ok client d script r tx t :
  0 < Z.of_nat (length d) <= MAX_BYTES - 1 -> 0 <= r ->
  tee_loop realloc_ok client (RxData d :: script) (r :: tx) t =
    let* t1 := capture realloc_ok d (Z.of_nat (length d)) t in
    let* (evs, tx', t') := tee_loop realloc_ok client script tx t1 in
    Returns (EvSend client d r :: evs, tx', t').
Proof.
  intros Hd Hr. cbn [tee_loop recv send_result].
  rewrite take_ge by lia.
  destruct (Z.of_nat (length d) >? 0) eqn:E; [|lia].
  destruct (r <? 0) eqn:E'; [lia|]. done.
Qed.

(** Reads that fit: each is forwarded and stored. *)
Lemma tee_loop_all realloc_ok client chunks : forall rets script tx t,
  tee_ok t ->
  Forall (fun d => 0 < Z.of_nat (length d) <= MAX_BYTES - 1) chunks ->
  Forall (fun r => 0 <= r) rets -> length rets = length chunks ->
  total_received t + total_bytes chunks < buffer_size t ->
  total_received t + total_bytes chunks <= MAX_ELEMENT_SIZE ->
  tee_loop realloc_ok client ((RxData <$> chunks) ++ script) (rets ++ tx) t =
    let* (evs, tx', t') :=
      tee_loop realloc_ok client script tx
        {| response_buffer := response_buffer t ++ concat chunks;
           total_received := total_received t + total_bytes chunks;
           buffer_size := buffer_size t; block := block t |} in
    Returns (zip_with (EvSend client) chunks rets ++ evs, tx', t').
Proof.
  induction chunks as [|d chunks IH]; intros rets script tx t Hok Hd Hr Hlen Hfit Hmax.
  - destruct rets; [|done]. destruct t. simpl. rewrite app_nil_r, Z.add_0_r.
    by destruct (tee_loop _ _ _ _ _) as [[[evs tx'] t']|].
  - destruct rets as [|r rets]; [done|].
    apply Forall_cons in Hd as [Hd Hds]. apply Forall_cons in Hr as [Hr Hrs].
    cbn [fmap list_fmap app]. rewrite tee_loop_data by done.
    cbn [total_bytes foldr] in Hfit, Hmax. fold (total_bytes chunks) in Hfit, Hmax.
    assert (0 <= total_bytes chunks) as Hnn.
    { clear. induction chunks as [|x l IHl]; [done|]. cbn [total_bytes foldr].
      fold (total_bytes l). lia. }
    destruct (capture_cases realloc_ok d (Z.of_nat (length d)) t Hok Hd eq_refl)
      as [(H1 & H2 & E)|[(H1 & H2 & E)|[(H1 & H2 & E)|(H1 & H2 & E)]]]; try lia.
    rewrite E. cbn [and_then].
    rewrite IH; cbn [response_buffer total_received buffer_size block]; try done; try lia.
    2: { eapply capture_ok; [exact Hok|exact Hd|done|exact E]. }
    2: { simpl in Hlen. lia. }
    cbn [concat total_bytes foldr]. fold (total_bytes chunks).
    rewrite <- app_assoc, Z.add_assoc.
    destruct (tee_loop _ _ _ _ _) as [[[evs tx'] t']|]; done.
Qed.

Lemma total_bytes_repeat d n : total_bytes (repeat d n) = Z.of_nat n * Z.of_nat (length d).
Proof.
  induction n as [|n IH]; [done|]. cbn [repeat total_bytes foldr].
  fold (total_bytes (repeat d n)). rewrite IH. lia.
Qed.

Lemma total_bytes_concat chunks : total_bytes chunks = Z.of_nat (length (concat chunks)).
Proof.
  induction chunks as [|d chunks IH]; [done|]. simpl. rewrite length_app.
  fold (total_bytes chunks). lia.
Qed.

Lemma sent_to_zip client chunks : forall rets,
  length rets = length chunks ->
  sent_to client (zip_with (EvSend client) chunks rets) = chunks.
Proof.
  induction chunks as [|d chunks IH]; intros [|r rets] Hlen; try done.
  simpl. rewrite Z.eqb_refl, IH; [done|]. simpl in Hlen. lia.
Qed.

Lemma length_chunk_of n : 0 <= n -> Z.of_nat (length (chunk_of n)) = n.
Proof. intros H. unfold chunk_of. rewrite repeat_length. lia. Qed.

(** ** The request buffer *)

Lemma write_at_length off d buf :
  0 <= off -> off + Z.of_nat (length d) <= Z.of_nat (length buf) ->
  length (write_at off d buf) = length buf.
Proof.
  intros H1 H2. unfold write_at. rewrite !length_app, length_take, length_drop. lia.
Qed.

Lemma recv_more_length script buffer bytes_received :
  Z.of_nat (length buffer) = MAX_BYTES ->
  length (fst (recv_more script buffer bytes_received)) = length buffer.
Proof.
  revert buffer bytes_received.
  induction script as [|r script IH]; intros buffer n Hlen; cbn [recv_more].
  { by destruct (_ && _). }
  destruct (_ && _); [|done].
  assert (0 <= strlen buffer <= MAX_BYTES) as Hs.
  { unfold strlen. pose proof (cstr_length buffer). lia. }
  destruct (decide (strlen buffer = MAX_BYTES)) as [Hfull|Hroom].
  { destruct r as [d|]; simpl; [|done].
    rewrite Hfull. replace (MAX_BYTES - MAX_BYTES - 1) with (-1) by lia. done. }
  pose proof (recv_length [r] (MAX_BYTES - strlen buffer - 1)) as Hrecv.
  destruct (recv [r] _) as [[additional got] rest].
  destruct Hrecv as (H1 & H2 & H3); [lia|].
  destruct (additional <=? 0); [done|].
  rewrite IH; rewrite write_at_length; lia.
Qed.

Lemma read_request_length script :
  Z.of_nat (length (fst (read_request script))) = MAX_BYTES.
Proof.
  unfold read_request.
  pose proof (recv_length script (MAX_BYTES - 1)) as Hrecv.
  destruct (recv script (MAX_BYTES - 1)) as [[n got] rest].
  destruct Hrecv as (H1 & H2 & H3); [by vm_compute|].
  assert (length (write_at 0 got (repeat NUL (Z.to_nat MAX_BYTES)))
          = Z.to_nat MAX_BYTES) as Hw.
  { rewrite write_at_length; [apply repeat_length|done|].
    rewrite repeat_length. revert H3. unfold MAX_BYTES. lia. }
  rewrite recv_more_length; rewrite Hw; by vm_compute.
Qed.

Lemma strlen_read_request script :
  0 <= strlen (strdup (fst (read_request script))) <= MAX_BYTES.
Proof.
  unfold strdup. rewrite strlen_cstr. unfold strlen.
  pose proof (cstr_length (fst (read_request script))).
  pose proof (read_request_length script). lia.
Qed.

(** ** The cache under the worker *)

Lemma finalize_cache_ok o t temp_req c c' :
  tee_ok t -> strlen temp_req <= MAX_BYTES -> cache_ok c ->
  finalize_cache o t temp_req c = Returns c' -> cache_ok c'.
Proof.
  intros (Hblock & Hsize & Htotal & Hmax & Hbuf) Hkey Hok. unfold finalize_cache.
  rewrite Hblock. destruct (_ <? MAX_ELEMENT_SIZE); [|done].
  destruct (add_to_cache_ok o (response_buffer t) (total_received t) temp_req c Hok)
    as (r & c1 & Hadd & Hok1 & _); [lia| |].
  { destruct constants as (HB & HE & HM & Hmin & HMax & Hsz). lia. }
  rewrite Hadd. cbn [and_then]. by intros [= <-].
Qed.

(** What the handler passes to [add_to_cache] is within the range the cache
    theorems ask for, whatever the upstream sends. *)
Lemma handle_request_optimized_cache_ok e tx client request temp_req c s ret evs tx' c' s' :
  strlen temp_req <= MAX_BYTES -> cache_ok c ->
  handle_request_optimized e tx client request temp_req c s
    = Returns (ret, evs, tx', c', s') ->
  cache_ok c'.
Proof.
  intros Hkey Hok. unfold handle_request_optimized.
  destruct (malloc_send_buffer e); cbn [negb]; [|by intros [= <- <- <- <- <-]].
  destruct (build_request request) as [text|]; cbn [and_then]; [|done].
  destruct (connect_result e <? 0); [by intros [= <- <- <- <- <-]|].
  destruct (upstream_send e <? 0); [by intros [= <- <- <- <- <-]|].
  destruct (malloc_response_buffer e); cbn [negb]; [|by intros [= <- <- <- <- <-]].
  destruct (tee_loop _ _ _ _ _) as [[[sends tx1] t]|] eqn:Htee; cbn [and_then]; [|done].
  apply tee_loop_ok in Htee; [|apply tee_ok_start].
  destruct (total_received t >? 0).
  - destruct (finalize_cache _ _ _ _) as [c1|] eqn:Hfin; cbn [and_then]; [|done].
    intros [= <- <- <- <- <-]. by eapply finalize_cache_ok.
  - cbn [and_then]. by intros [= <- <- <- <- <-].
Qed.

(** A turn of the worker that returns leaves the cache within its bounds,
    with its counter exact. *)
Lemma worker_iteration_cache_ok e item p evs p' :
  cache_ok (cache p) ->
  worker_iteration e item p = Returns (evs, p') -> cache_ok (cache p').
Proof.
  intros Hok. destruct (calloc_buffer e) eqn:Hbuf.
  2: { unfold worker_iteration. rewrite Hbuf. cbn [negb]. by intros [= <- <-]. }
  rewrite worker_iteration_events by done. cbv zeta.
  destruct (_ && _).
  2: { cbn [and_then]. by intros [= <- <-]. }
  unfold serve.
  pose proof (find_in_cache_ok (time_find e)
                (strdup (fst (read_request (client_rx e)))) (cache p) (stats p) Hok)
    as [Hok1 _].
  destruct (find_in_cache _ _ _ _) as [[[cached|] c1] s1]; cbn [fst snd] in Hok1.
  { destruct (serve_cached _ _ _ _) as [[evs0 tx0]|]; cbn [and_then]; [|done].
    by intros [= <- <-]. }
  destruct (if ParsedRequest_create e then _ else _) as [[request|]|]; cbn [and_then];
    [| |done].
  2: { by intros [= <- <-]. }
  unfold dispatch. destruct (method request) as [m|]; [|done].
  destruct (_ && _); cbn [and_then]; [|by intros [= <- <-]].
  destruct (handle_request_optimized _ _ _ _ _ _ _) as [[[[[ret evs0] tx0] c2] s2]|] eqn:Hh;
    cbn [and_then]; [|done].
  apply handle_request_optimized_cache_ok in Hh; [|apply strlen_read_request|done].
  destruct (ret <? 0); cbn [and_then]; by intros [= <- <-].
Qed.
(** ** Serving a hit *)

Lemma serve_cached_more client cached r tx sent :
  0 <= sent < len cached -> len cached = Z.of_nat (length (data cached)) ->
  len cached < 2 ^ 63 -> 0 < r <= MAX_BYTES ->
  serve_cached client cached (r :: tx) sent =
    let* (evs, tx') := serve_cached client cached tx (sent + r) in
    Returns (EvSend client (cached_chunk cached sent) r :: evs, tx').
Proof.
  intros Hs Hlen Hmax Hr. cbn [serve_cached].
  rewrite (to_size_t_id (len cached)) by lia.
  destruct (sent <? len cached) eqn:E; [|lia].
  assert (chunk_size_at cached sent <= len cached - sent) as Hc.
  { unfold chunk_size_at. rewrite to_size_t_id by lia.
    destruct (_ >? MAX_BYTES) eqn:E'; lia. }
  unfold data_block. rewrite length_app. cbn [length].
  destruct (_ >? _) eqn:E'; [apply Z.gtb_lt in E'; lia|].
  destruct (r <=? 0) eqn:E''; [lia|].
  rewrite to_size_t_id by (unfold MAX_BYTES in *; lia). done.
Qed.

Lemma serve_cached_end client cached tx sent :
  len cached <= sent -> 0 <= len cached < 2 ^ 63 ->
  serve_cached client cached tx sent = Returns ([], tx).
Proof.
  intros Hs Hlen. destruct tx; cbn [serve_cached]; rewrite to_size_t_id by lia;
    destruct (sent <? len cached) eqn:E; try lia; done.
Qed.

Lemma cached_chunk_whole cached sent r :
  0 <= sent -> len cached = Z.of_nat (length (data cached)) -> len cached < 2 ^ 63 ->
  0 < r -> r = Z.min MAX_BYTES (len cached - sent) ->
  cached_chunk cached sent = take (Z.to_nat r) (drop (Z.to_nat sent) (data cached)).
Proof.
  intros Hs Hlen Hmax Hr Hmin. unfold cached_chunk, chunk_size_at, data_block.
  rewrite to_size_t_id by lia.
  replace (if len cached - sent >? MAX_BYTES then MAX_BYTES else len cached - sent)
    with r by (destruct (_ >? MAX_BYTES) eqn:E; lia).
  rewrite drop_app_le by lia. rewrite take_app_le; [done|].
  rewrite length_drop. lia.
Qed.

(** A client that takes every [send] whole is sent the data of the entry,
    in pieces of [MAX_BYTES] bytes and a last piece. *)
Lemma serve_cached_whole client cached n : forall sent r,
  len cached = Z.of_nat (length (data cached)) -> len cached < 2 ^ 63 ->
  0 <= sent -> 0 < r <= MAX_BYTES ->
  sent + Z.of_nat n * MAX_BYTES + r = len cached ->
  exists evs,
    serve_cached client cached (repeat MAX_BYTES n ++ [r]) sent = Returns (evs, []) /\
    concat (sent_to client evs) = drop (Z.to_nat sent) (data cached) /\
    Forall (fun ev => exists d r, ev = EvSend client d r) evs.
Proof.
  induction n as [|n IH]; intros sent r Hlen Hmax Hs Hr Hsum.
  - cbn [repeat app]. rewrite serve_cached_more by lia.
    rewrite serve_cached_end by lia. cbn [and_then].
    eexists. split; [done|]. split; [|by repeat constructor; eexists _, _].
    cbn [sent_to]. rewrite Z.eqb_refl. cbn [concat]. rewrite app_nil_r.
    rewrite (cached_chunk_whole cached sent r) by lia.
    apply take_ge. rewrite length_drop. lia.
  - cbn [repeat app]. rewrite serve_cached_more by (unfold MAX_BYTES in *; lia).
    destruct (IH (sent + MAX_BYTES) r) as (evs & -> & Hcat & Hall); try lia.
    cbn [and_then]. eexists. split; [done|].
    split; [|constructor; [by eexists _, _|done]].
    cbn [sent_to]. rewrite Z.eqb_refl. cbn [concat]. rewrite Hcat.
    rewrite (cached_chunk_whole cached sent MAX_BYTES) by (unfold MAX_BYTES in *; lia).
    replace (Z.to_nat (sent + MAX_BYTES)) with (Z.to_nat sent + Z.to_nat MAX_BYTES)%nat
      by (unfold MAX_BYTES; lia).
    rewrite <- drop_drop. apply take_drop.
Qed.

(** ** An upstream response of [MAX_ELEMENT_SIZE + 1] bytes *)

Lemma Forall_repeat {A} (P : A -> Prop) x n : P x -> Forall P (repeat x n).
Proof. intros H. induction n; by constructor. Qed.

Lemma capture_overflow realloc_ok got n t allocated :
  block t = Some allocated -> total_received t + n < buffer_size t ->
  allocated < total_received t + n ->
  capture realloc_ok got n t = Undefined.
Proof.
  intros Hb H1 H2. unfold capture, store_chunk. rewrite Hb.
  destruct (_ <? buffer_size t) eqn:E; [|lia].
  destruct (_ <=? allocated) eqn:E'; [lia|done].
Qed.

(** The 1280 full reads are stored, the last read is left out, and
    [buffer_size] is then larger than the block. *)
Lemma s5_tee_then realloc_ok script tx :
  tee_loop realloc_ok 5 (s5_upstream ++ script) (s5_sends ++ tx)
    {| response_buffer := []; total_received := 0; buffer_size := MAX_ELEMENT_SIZE;
       block := Some MAX_ELEMENT_SIZE |} =
  let* (evs, tx', t') :=
    tee_loop realloc_ok 5 script tx
      {| response_buffer := s5_captured; total_received := 10484480;
         buffer_size := 10493953; block := Some MAX_ELEMENT_SIZE |} in
  Returns (zip_with (EvSend 5) s5_chunks s5_sends ++ evs, tx', t').
Proof.
  unfold s5_upstream, s5_sends, s5_chunks. rewrite <- !app_assoc.
  assert (Z.of_nat (length (chunk_of 8191)) = 8191) as Hlen by (by apply length_chunk_of).
  assert (Z.of_nat (length (chunk_of 1281)) = 1281) as Hlen' by (by apply length_chunk_of).
  assert (repeat (RxData (chunk_of 8191)) 1280 = RxData <$> repeat (chunk_of 8191) 1280)
    as -> by (generalize 1280%nat; intros n; induction n; [done|]; simpl; by f_equal).
  assert (total_bytes (repeat (chunk_of 8191) 1280) = 10484480) as Htotal.
  { rewrite total_bytes_repeat, Hlen. reflexivity. }
  rewrite tee_loop_all; cbn [response_buffer total_received buffer_size block].
  2: { apply tee_ok_start. }
  2: { apply Forall_repeat. rewrite Hlen. clear. by vm_compute. }
  2: { apply Forall_repeat. clear. lia. }
  2: { rewrite !repeat_length. reflexivity. }
  2: { rewrite Htotal. clear. by vm_compute. }
  2: { rewrite Htotal. clear. by vm_compute. }
  rewrite Htotal. cbn [app].
  rewrite tee_loop_data by (rewrite ?Hlen'; clear; by vm_compute).
  rewrite Hlen'. clear Htotal Hlen Hlen'.
  assert (capture realloc_ok (chunk_of 1281) 1281
            {| response_buffer := concat (repeat (chunk_of 8191) 1280);
               total_received := 0 + 10484480; buffer_size := MAX_ELEMENT_SIZE;
               block := Some MAX_ELEMENT_SIZE |}
          = Returns {| response_buffer := s5_captured; total_received := 10484480;
                       buffer_size := 10493953; block := Some MAX_ELEMENT_SIZE |}) as ->.
  { unfold capture. cbn [total_received buffer_size block response_buffer].
    replace (0 + 10484480 + 1281 <? MAX_ELEMENT_SIZE) with false by (clear; by vm_compute).
    replace (0 + 10484480 <? MAX_ELEMENT_SIZE) with true by (clear; by vm_compute).
    replace (to_int (0 + 10484480 + 1281 + MAX_BYTES)) with 10493953
      by (clear; by vm_compute).
    replace (10493953 <=? MAX_ELEMENT_SIZE) with false by (clear; by vm_compute).
    reflexivity. }
  cbn [and_then].
  rewrite zip_with_app by (rewrite !repeat_length; reflexivity).
  destruct (tee_loop realloc_ok 5 script tx _) as [[[evs tx'] t']|]; cbn [and_then];
    [|reflexivity].
  cbn [zip_with]. rewrite <- !app_assoc. reflexivity.
Qed.

Lemma s5_tee realloc_ok :
  tee_loop realloc_ok 5 s5_upstream s5_sends
    {| response_buffer := []; total_received := 0; buffer_size := MAX_ELEMENT_SIZE;
       block := Some MAX_ELEMENT_SIZE |} =
  Returns (zip_with (EvSend 5) s5_chunks s5_sends, [],
           {| response_buffer := s5_captured; total_received := 10484480;
              buffer_size := 10493953; block := Some MAX_ELEMENT_SIZE |}).
Proof.
  pose proof (s5_tee_then realloc_ok [] []) as H. rewrite !app_nil_r in H.
  rewrite H. cbn [tee_loop and_then]. rewrite app_nil_r. reflexivity.
Qed.

(** One more read after the one that was left out is copied to the offset
    10484480 although it ends behind the block. *)
Lemma s5_tee_overflow realloc_ok :
  tee_loop realloc_ok 5 (s5_upstream ++ [RxData (chunk_of 8191)]) (s5_sends ++ [8191])
    {| response_buffer := []; total_received := 0; buffer_size := MAX_ELEMENT_SIZE;
       block := Some MAX_ELEMENT_SIZE |} = Undefined.
Proof.
  rewrite s5_tee_then.
  assert (Z.of_nat (length (chunk_of 8191)) = 8191) as Hlen by (by apply length_chunk_of).
  rewrite tee_loop_data by (rewrite ?Hlen; clear; by vm_compute).
  rewrite Hlen. clear Hlen.
  rewrite (capture_overflow _ _ _ _ MAX_ELEMENT_SIZE); [reflexivity|reflexivity|..];
    cbn [total_received buffer_size]; clear; by vm_compute.
Qed.

Lemma length_s5_captured : Z.of_nat (length s5_captured) = 10484480.
Proof.
  unfold s5_captured. rewrite <- total_bytes_concat, total_bytes_repeat, length_chunk_of by lia.
  reflexivity.
Qed.

Lemma s5_read :
  snd (read_request [RxData s5_request]) = 26 /\
  fst (read_request [RxData s5_request]) = s5_request ++ repeat NUL (Z.to_nat 8166) /\
  strdup (fst (read_request [RxData s5_request])) = s5_request /\
  ParsedRequest_parse parse_ok (fst (read_request [RxData s5_request]))
    (strlen (fst (read_request [RxData s5_request])))
  = Returns (Some s5_parsed) /\
  build_request s5_parsed = Returns s5_forwarded.
Proof. repeat split; by vm_compute. Qed.

Ltac env_fields :=
  cbn [calloc_buffer client_rx strdup_temp_req time_find client_tx ParsedRequest_create
       parse_outcomes malloc_send_buffer connect_result upstream_send
       malloc_response_buffer realloc_response_buffer upstream_rx add_outcomes
       currentTime client_socket cache stats active_connection_count].

Lemma make_space_empty es : make_space es empty_cache = empty_cache.
Proof. reflexivity. Qed.

Lemma s5_handler :
  handle_request_optimized s5_first_turn s5_sends 5 s5_parsed s5_request empty_cache
    (miss no_stats) =
  Returns (0,
           [EvConnect (lit "a") 80 11; EvSendUpstream 11 s5_forwarded 40]
             ++ zip_with (EvSend 5) s5_chunks s5_sends ++ [EvReturnPooled 11],
           [],
           {| cache_list := [new_element (allocs_ok 100) s5_captured 10484480 s5_request];
              cache_size := 10484570 |},
           served 10484480 (miss no_stats)).
Proof.
  destruct s5_read as (_ & _ & _ & _ & Hbuild).
  unfold handle_request_optimized. rewrite Hbuild. clear Hbuild.
  unfold s5_first_turn, env_with. env_fields.
  unfold s5_parsed. cbn [negb port host default and_then].
  replace (11 <? 0) with false by reflexivity.
  replace (40 <? 0) with false by reflexivity.
  rewrite s5_tee. cbn [and_then total_received response_buffer].
  replace (10484480 >? 0) with true by reflexivity.
  unfold finalize_cache. cbn [block total_received response_buffer].
  replace (10484480 <? MAX_ELEMENT_SIZE) with true by (clear; by vm_compute).
  rewrite add_to_cache_accepts.
  2: { clear. by repeat split. }
  2: { rewrite length_s5_captured. clear. lia. }
  2: { clear. by vm_compute. }
  rewrite make_space_empty. cbn [and_then cache_list cache_size empty_cache].
  replace (to_int (0 + (10484480 + strlen s5_request + sizeof_cache_element)))
    with 10484570 by (clear; by vm_compute).
  replace (atoi (lit "80")) with 80 by (clear; by vm_compute).
  reflexivity.
Qed.

(** A turn that reads [s5_request] on an empty cache gets to the handler. *)
Lemma s5_miss_turn e item p :
  calloc_buffer e = true -> client_rx e = [RxData s5_request] ->
  strdup_temp_req e = true -> ParsedRequest_create e = true ->
  parse_outcomes e = parse_ok -> cache p = empty_cache ->
  worker_iteration e item p =
    let* (ret, evs, tx, c, s) :=
      handle_request_optimized e (client_tx e) (client_socket item) s5_parsed s5_request
        empty_cache (miss (stats p)) in
    Returns ((if ret <? 0
              then evs ++ snd (fst (sendErrorMessage (client_socket item) 500
                                      (currentTime e) tx))
              else evs)
               ++ [EvShutdown (client_socket item); EvClose (client_socket item)] ++ release,
             with_active (to_int (active_connection_count p - 1)) (with_cache c s p)).
Proof.
  intros Hbuf Hrx Hdup Hcreate Hpo Hcache.
  destruct s5_read as (Hn & _ & Hkey & Hparse & _).
  rewrite worker_iteration_events by exact Hbuf. cbv zeta.
  rewrite Hrx, Hn, Hdup. cbn [Z.gtb Z.compare andb].
  unfold serve. rewrite Hkey, Hcache, Hcreate, Hpo.
  rewrite find_in_cache_miss by (intros x Hx; inversion Hx).
  rewrite Hparse. cbn [and_then]. unfold dispatch.
  replace (method s5_parsed) with (Some (lit "GET")) by reflexivity.
  replace (strcmp (lit "GET") (lit "GET") =? 0) with true by reflexivity.
  rewrite !bool_decide_eq_true_2 by (by eexists). cbn [andb].
  destruct (handle_request_optimized _ _ _ _ _ _ _) as [[[[[ret evs] tx] c] s]|];
    cbn [and_then]; [|reflexivity].
  destruct (ret <? 0); reflexivity.
Qed.

(** The first turn of the scenario: the response is forwarded whole, and what
    was captured of it is inserted. *)
Lemma s5_first :
  worker_iteration s5_first_turn (item_on 5) (idle_state 2) =
    Returns
      (([EvConnect (lit "a") 80 11; EvSendUpstream 11 s5_forwarded 40]
          ++ zip_with (EvSend 5) s5_chunks s5_sends ++ [EvReturnPooled 11])
         ++ [EvShutdown 5; EvClose 5] ++ release,
       with_active 1
         (with_cache
            {| cache_list := [new_element (allocs_ok 100) s5_captured 10484480 s5_request];
               cache_size := 10484570 |}
            (served 10484480 (miss no_stats)) (idle_state 2))).
Proof.
  rewrite s5_miss_turn by reflexivity.
  replace (client_tx s5_first_turn) with s5_sends by reflexivity.
  cbn [client_socket item_on stats idle_state].
  rewrite s5_handler. cbn [and_then].
  replace (0 <? 0) with false by reflexivity.
  cbn [active_connection_count].
  replace (to_int (2 - 1)) with 1 by reflexivity.
  reflexivity.
Qed.

(** With one more read behind the response, the turn has no defined result. *)
Lemma overflow_turn_undefined :
  worker_iteration overflow_turn (item_on 5) (idle_state 1) = Undefined.
Proof.
  rewrite s5_miss_turn by reflexivity.
  destruct s5_read as (_ & _ & _ & _ & Hbuild).
  unfold handle_request_optimized. rewrite Hbuild. clear Hbuild.
  unfold overflow_turn, env_with. env_fields.
  cbn [negb and_then].
  replace (11 <? 0) with false by reflexivity.
  replace (40 <? 0) with false by reflexivity.
  cbn [client_socket item_on].
  rewrite s5_tee_overflow. reflexivity.
Qed.

(** The second turn: a hit, served from the entry. *)
Lemma s5_second :
  let entry := new_element (allocs_ok 100) s5_captured 10484480 s5_request in
  let p1 := with_active 1
              (with_cache {| cache_list := [entry]; cache_size := 10484570 |}
                 (served 10484480 (miss no_stats)) (idle_state 2)) in
  exists sends,
    worker_iteration s5_second_turn (item_on 6) p1 =
      Returns (sends ++ [EvShutdown 6; EvClose 6] ++ release,
               with_active 0
                 (with_cache {| cache_list := [touch 100 entry]; cache_size := 10484570 |}
                    (hit (served 10484480 (miss no_stats))) p1)) /\
    concat (sent_to 6 sends) = s5_captured /\
    Forall (fun ev => exists d r, ev = EvSend 6 d r) sends.
Proof.
  intros entry p1.
  destruct s5_read as (Hn & _ & Hkey & _).
  assert (data entry = s5_captured) as Hdata.
  { unfold entry. cbn [new_element data]. apply take_ge.
    pose proof length_s5_captured. lia. }
  destruct (serve_cached_whole 6 (touch 100 entry) 1279 0 6912) as (sends & Hs & Hcat & Hall).
  { cbn [touch len data]. rewrite Hdata, length_s5_captured. reflexivity. }
  { clear. by vm_compute. }
  { clear. lia. }
  { clear. by vm_compute. }
  { clear. by vm_compute. }
  exists sends. split; [|split; [|exact Hall]].
  2: { rewrite Hcat. cbn [touch data]. rewrite Hdata. apply drop_0. }
  rewrite worker_iteration_events by reflexivity. cbv zeta.
  replace (client_rx s5_second_turn) with [RxData s5_request] by reflexivity.
  rewrite Hn. replace (strdup_temp_req s5_second_turn) with true by reflexivity.
  cbn [Z.gtb Z.compare andb].
  unfold serve. rewrite Hkey.
  replace (time_find s5_second_turn) with 100 by reflexivity.
  replace (cache p1) with {| cache_list := [entry]; cache_size := 10484570 |}
    by reflexivity.
  rewrite find_in_cache_head by apply strcmp_0_iff, cstr_idemp.
  replace (client_tx s5_second_turn) with (repeat MAX_BYTES 1279 ++ [6912]) by reflexivity.
  cbn [client_socket item_on].
  rewrite Hs. cbn [and_then].
  replace (to_int (active_connection_count p1 - 1)) with 0 by reflexivity.
  reflexivity.
Qed.

(** ** The worker: requests that end early *)



Lemma sent_to_sends client evs :
  Forall (fun ev => exists d r, ev = EvSend client d r) evs ->
  Forall (fun ev => exists r, ev ∈ (fun d => EvSend client d r) <$> sent_to client evs) evs.
Proof.
  induction 1 as [|ev evs (d & r & ->) _ IH]; [constructor|].
  cbn [sent_to]. rewrite Z.eqb_refl. constructor.
  - exists r. left.
  - eapply Forall_impl; [exact IH|]. intros ev [r' Hev]. exists r'. by right.
Qed.

Lemma sent_to_ending client :
  sent_to client ([EvShutdown client; EvClose client] ++ release) = [].
Proof. reflexivity. Qed.

Lemma tally_is_connect_ending client :
  tally is_connect ([EvShutdown client; EvClose client] ++ release) = 0%nat.
Proof. reflexivity. Qed.

Lemma tally_is_connect_sends client evs :
  Forall (fun ev => exists d r, ev = EvSend client d r) evs ->
  tally is_connect evs = 0%nat.
Proof. by apply tally_sends. Qed.

(** The chunks the hit loop sends are pieces of the block of the entry. *)
Lemma serve_cached_chunks client cached tx : forall sent evs tx',
  serve_cached client cached tx sent = Returns (evs, tx') ->
  Forall (fun d => exists sent', d = cached_chunk cached sent') (sent_to client evs).
Proof.
  induction tx as [|bytes_sent tx IH]; intros sent evs tx'; cbn [serve_cached].
  - destruct (sent <? _); [|intros [= <- <-]; constructor].
    destruct (_ >? _); [done|]. intros [= <- <-].
    cbn [sent_to]. rewrite Z.eqb_refl. constructor; [by eexists|constructor].
  - destruct (sent <? _); [|intros [= <- <-]; constructor].
    destruct (_ >? _); [done|].
    destruct (bytes_sent <=? 0).
    { intros [= <- <-]. cbn [sent_to]. rewrite Z.eqb_refl.
      constructor; [by eexists|constructor]. }
    destruct (serve_cached client cached tx _) as [[evs0 tx0]|] eqn:Hrest;
      cbn [and_then]; [|done].
    intros [= <- <-]. cbn [sent_to]. rewrite Z.eqb_refl.
    constructor; [by eexists|by eapply IH].
Qed.




(** ** The worker: the end of a turn *)

(** C10 at the failing inputs. A turn that returns has closed the client
    socket once and has released the slot once, with the signal, as its
    last steps; the turns that end before a request is served (no buffer,
    nothing received, no copy of the request) do return. But a turn does not
    always return: when the upstream goes on sending after a read was left
    out of the capture, the next read is copied behind the end of the block;
    a request line whose path has 8150 characters makes the handler format
    the request behind the end of [send_buffer]; and a [strdup] of the method
    that fails hands [strcmp] a NULL pointer. Nothing is defined from there
    on, and the close and the release are not reached. *)
Theorem worker_release_unless_undefined :
  (forall e item p evs p',
     connect_result e <> client_socket item ->
     worker_iteration e item p = Returns (evs, p') ->
     tally (is_close (client_socket item)) evs = 1%nat /\
     tally is_decrement evs = 1%nat /\
     tally is_signal evs = 1%nat /\
     active_connection_count p' = to_int (active_connection_count p - 1) /\
     exists before,
       evs = before ++ [EvClose (client_socket item); EvLock; EvDecrement; EvSignal; EvUnlock]
       /\ Forall (inert (client_socket item)) before) /\
  (forall e item p,
     calloc_buffer e = false \/ snd (read_request (client_rx e)) <= 0 \/
     strdup_temp_req e = false ->
     exists evs p', worker_iteration e item p = Returns (evs, p')) /\
  worker_iteration overflow_turn (item_on 5) (idle_state 1) = Undefined /\
  worker_iteration long_url_turn (item_on 5) (idle_state 1) = Undefined /\
  worker_iteration no_method_turn (item_on 5) (idle_state 1) = Undefined.
Proof.
  split; [|split; [|split; [|split]]].
  - intros e item p evs p' Hfd Hturn.
    destruct (worker_iteration_release e item p evs p' Hfd Hturn)
      as (Hend & H1 & H2 & H3 & H4).
    done.
  - intros e item p Hcase. destruct (calloc_buffer e) eqn:Hbuf.
    + rewrite worker_iteration_events by done. cbv zeta.
      assert ((snd (read_request (client_rx e)) >? 0) && strdup_temp_req e = false)
        as ->.
      { destruct Hcase as [H | [H | ->]]; [done| |apply andb_false_r].
        destruct (_ >? 0) eqn:E; [lia|done]. }
      cbn [and_then]. by eexists _, _.
    + unfold worker_iteration. rewrite Hbuf. cbn [negb]. by eexists _, _.
  - apply overflow_turn_undefined.
  - vm_compute. reflexivity.
  - vm_compute. reflexivity.
Qed.

(** ** Responses over the entry limit *)

(** C1 at the failing input. The upstream returns [MAX_ELEMENT_SIZE + 1]
    bytes, which arrive in 1280 reads of 8191 bytes and one of 1281. Every
    read is forwarded to the client, but the last one no longer fits the
    capture buffer and is left out of it; what was captured before is
    inserted under the request. The same request sent again is a hit: no
    upstream connection is made and the client is sent the data of the
    entry, which lack the last 1281 bytes of the response. *)
Theorem oversize_response_is_cached :
  let entry := new_element (allocs_ok 100) s5_captured 10484480 s5_request in
  exists evs1 p1 evs2 p2,
    worker_iteration s5_first_turn (item_on 5) (idle_state 2) = Returns (evs1, p1) /\
    worker_iteration s5_second_turn (item_on 6) p1 = Returns (evs2, p2) /\
    total_bytes s5_chunks = MAX_ELEMENT_SIZE + 1 /\
    sent_to 5 evs1 = s5_chunks /\
    tally is_connect evs1 = 1%nat /\
    cache p1 = {| cache_list := [entry]; cache_size := 10484570 |} /\
    len entry = MAX_ELEMENT_SIZE + 1 - 1281 /\
    tally is_connect evs2 = 0%nat /\
    cache_hits (stats p2) = 1 /\ cache_misses (stats p2) = 1 /\
    concat (sent_to 6 evs2) = s5_captured /\
    Z.of_nat (length s5_captured) = MAX_ELEMENT_SIZE + 1 - 1281.
Proof.
  intros entry.
  destruct s5_second as (sends & Hsecond & Hcat & Hall). fold entry in Hsecond.
  eexists _, _, _, _. split; [apply s5_first|]. split; [exact Hsecond|].
  assert (length s5_sends = length s5_chunks) as Hlen.
  { unfold s5_sends, s5_chunks. rewrite !length_app, !repeat_length. reflexivity. }
  split; [|split; [|split; [|split; [|split; [|split; [|split; [|split; [|split]]]]]]]].
  - unfold s5_chunks. clear.
    assert (forall a b, total_bytes (a ++ b) = total_bytes a + total_bytes b) as Happ.
    { intros a b. induction a as [|x a IH]; [done|]. cbn [app total_bytes foldr].
      fold (total_bytes (a ++ b)). fold (total_bytes a). rewrite IH. lia. }
    rewrite Happ, total_bytes_repeat. cbn [total_bytes foldr].
    rewrite !length_chunk_of by lia. reflexivity.
  - rewrite !sent_to_app, (sent_to_zip 5 s5_chunks s5_sends Hlen). reflexivity.
  - rewrite !tally_app.
    rewrite (tally_sends is_connect 5 (zip_with (EvSend 5) s5_chunks s5_sends)).
    + reflexivity.
    + reflexivity.
    + clear -Hlen. revert Hlen. generalize s5_sends. generalize s5_chunks.
      intros chunks. induction chunks as [|d chunks IH]; intros [|r rets] Hlen;
        try constructor; [by eexists _, _|]. apply IH. simpl in Hlen. lia.
  - reflexivity.
  - unfold entry. cbn [new_element len]. clear. by vm_compute.
  - rewrite tally_app, (tally_is_connect_sends 6 sends Hall). reflexivity.
  - cbn [stats with_active with_cache]. clear. by vm_compute.
  - cbn [stats with_active with_cache]. clear. by vm_compute.
  - rewrite sent_to_app, sent_to_ending, app_nil_r. exact Hcat.
  - rewrite length_s5_captured. clear. by vm_compute.
Qed.

(** ** The capacity of the cache *)

Lemma apply_op_ok op c :
  op_fits op -> cache_ok c -> exists c', apply_op op c = Returns c' /\ cache_ok c'.
Proof.
  intros Hop Hok. destruct op as [o d size u| |now u]; cbn [apply_op].
  - destruct Hop as [H1 H2].
    destruct (add_to_cache_ok o d size u c Hok H1 H2) as (r & c' & -> & Hok' & _).
    by exists c'.
  - eexists. split; [done|]. by apply remove_lru_element_ok.
  - eexists. split; [done|]. by apply find_in_cache_ok.
Qed.

Lemma run_ops_ok ops : forall c,
  Forall op_fits ops -> cache_ok c ->
  exists states,
    run_ops ops c = Returns states /\ length states = length ops /\ Forall cache_ok states.
Proof.
  induction ops as [|op ops IH]; intros c Hfits Hok; cbn [run_ops].
  { by exists []. }
  apply Forall_cons in Hfits as [Hop Hfits].
  destruct (apply_op_ok op c Hop Hok) as (c' & -> & Hok'). cbn [and_then].
  destruct (IH c' Hfits Hok') as (states & -> & Hlen & Hall). cbn [and_then].
  exists (c' :: states). split; [done|]. split; [by rewrite !length_cons, Hlen|].
  by constructor.
Qed.

Lemma run_turns_ok turns : forall p states,
  cache_ok (cache p) -> run_turns turns p = Returns states ->
  Forall (fun p' => cache_ok (cache p')) states.
Proof.
  induction turns as [|[e item] turns IH]; intros p states Hok; cbn [run_turns].
  { intros [= <-]. constructor. }
  destruct (worker_iteration e item p) as [[evs p']|] eqn:Hturn; cbn [and_then]; [|done].
  destruct (run_turns turns p') as [rest|] eqn:Hrest; cbn [and_then]; [|done].
  intros [= <-].
  pose proof (worker_iteration_cache_ok e item p evs p' Hok Hturn) as Hok'.
  constructor; [done|]. by eapply IH.
Qed.

Lemma add_to_cache_no_memory o d size u c :
  0 <= size <= Z.of_nat (length d) ->
  size + strlen u + sizeof_cache_element <= MAX_ELEMENT_SIZE ->
  ~ allocates o ->
  add_to_cache o d size u c
    = Returns (0, make_space (size + strlen u + sizeof_cache_element) c).
Proof.
  intros Hsize Hfit Hno. unfold add_to_cache.
  pose proof (strlen_nonneg u) as Hu.
  destruct constants as (_ & HE & HM & Hmin & HMax & Hsz).
  rewrite to_int_id by (rewrite Hsz in *; lia).
  destruct (_ >? MAX_ELEMENT_SIZE) eqn:Hgt; [lia|].
  destruct (malloc_element o) eqn:H1; cbn [negb]; [|done].
  destruct (malloc_data o) eqn:H2; cbn [negb andb orb]; [|done].
  destruct (malloc_url o) eqn:H3; cbn [negb andb orb]; [|by rewrite orb_true_r].
  destruct Hno. done.
Qed.

Lemma add_to_cache_too_large o d size u c :
  0 <= size -> size + strlen u + sizeof_cache_element <= INT_MAX ->
  MAX_ELEMENT_SIZE < size + strlen u + sizeof_cache_element ->
  add_to_cache o d size u c = Returns (0, c).
Proof.
  intros Hsize Hfit Hlarge. unfold add_to_cache.
  pose proof (strlen_nonneg u) as Hu.
  destruct constants as (_ & HE & HM & Hmin & HMax & Hsz).
  rewrite to_int_id by (rewrite Hsz in *; lia).
  destruct (_ >? MAX_ELEMENT_SIZE) eqn:Hgt; [done|lia].
Qed.

(** C5, as the code has it. For every sequence of insertions, evictions and
    lookups from the empty cache whose insertions pass a byte count that is
    not negative, that the data holds, and whose footprint sum is an [int]:
    every operation returns, and after each of them the footprints of the
    linked entries sum to at most [MAX_SIZE] and the counter is that sum. An
    insertion on any of these states is refused without a change when the
    footprint is over [MAX_ELEMENT_SIZE]. Otherwise the eviction loop makes
    [k] evictions, where [k] is the least number after which the new entry
    fits; with its three allocations the insertion is then accepted and the
    entry is linked at the head of what the evictions left, and without them
    it is refused after the evictions. Every eviction unlinks an entry whose
    timestamp is the oldest in the list. A sequence of worker turns that
    return, from the empty cache, keeps the bound as well. *)
Theorem cache_capacity (ops : list cache_op) :
  Forall op_fits ops ->
  exists states,
    run_ops ops empty_cache = Returns states /\
    length states = length ops /\
    Forall (fun c => cache_bytes (cache_list c) <= MAX_SIZE /\
                     cache_size c = cache_bytes (cache_list c)) states /\
    (forall c o d size u,
       c ∈ empty_cache :: states -> op_fits (OpInsert o d size u) ->
       let element_size := size + strlen u + sizeof_cache_element in
       (MAX_ELEMENT_SIZE < element_size -> add_to_cache o d size u c = Returns (0, c)) /\
       (element_size <= MAX_ELEMENT_SIZE ->
        exists k,
          make_space element_size c = evictions k c /\
          cache_bytes (cache_list (evictions k c)) + element_size <= MAX_SIZE /\
          (forall j, (j < k)%nat ->
             MAX_SIZE < cache_bytes (cache_list (evictions j c)) + element_size /\
             cache_list (evictions j c) <> []) /\
          (allocates o ->
           add_to_cache o d size u c =
             Returns (1, {| cache_list :=
                              new_element o d size u :: cache_list (evictions k c);
                            cache_size := cache_size (evictions k c) + element_size |})) /\
          (~ allocates o -> add_to_cache o d size u c = Returns (0, evictions k c)))) /\
    (forall c, cache_list c <> [] ->
       exists i lru,
         cache_list c !! i = Some lru /\
         cache_list (remove_lru_element c) = delete i (cache_list c) /\
         forall x, x ∈ cache_list c -> lru_time_track lru <= lru_time_track x) /\
    (forall turns p states',
       cache p = empty_cache -> run_turns turns p = Returns states' ->
       Forall (fun p' => cache_bytes (cache_list (cache p')) <= MAX_SIZE /\
                         cache_size (cache p') = cache_bytes (cache_list (cache p')))
              states').
Proof.
  intros Hfits.
  destruct (run_ops_ok ops empty_cache Hfits cache_ok_empty) as (states & Hrun & Hlen & Hall).
  exists states. split; [done|]. split; [done|].
  assert (forall c, c ∈ empty_cache :: states -> cache_ok c) as Hreach.
  { intros c [->|Hc]%elem_of_cons; [apply cache_ok_empty|].
    rewrite Forall_forall in Hall. by apply Hall. }
  split; [|split; [|split]].
  - eapply Forall_impl; [exact Hall|]. intros c (Hsz & _ & Hmax). split; [lia|done].
  - intros c o d size u Hc [Hsize Hint] es. pose proof (Hreach c Hc) as Hok.
    split; [intros Hlarge; apply add_to_cache_too_large; lia|].
    intros Hsmall. pose proof (strlen_nonneg u) as Hu.
    destruct constants as (_ & HE & HM & Hmin & HMax & Hsz).
    assert (INT_MIN <= es <= MAX_ELEMENT_SIZE) as Hes by (unfold es; rewrite Hsz; lia).
    destruct (make_space_loop_evictions (length (cache_list c)) es c Hok Hes)
      as (k & Hk & Hfit & Hleast); [done|].
    fold (make_space es c) in Hk.
    exists k. split; [done|].
    pose proof (evictions_ok k c Hok) as (Hszk & Hlenk & Hmaxk).
    assert (cache_bytes (cache_list (evictions k c)) + es <= MAX_SIZE) as Hroom.
    { destruct Hfit as [Hfit|Hnil]; [lia|]. rewrite Hnil. cbn [cache_bytes foldr]. lia. }
    split; [done|]. split; [|split].
    + intros j Hj. destruct (Hleast j Hj) as [Hover Hne]. split; [|done].
      pose proof (evictions_ok j c Hok) as (Hszj & _). lia.
    + intros Halloc. rewrite add_to_cache_accepts by done. fold es. rewrite Hk.
      rewrite to_int_id; [done|].
      pose proof (cache_bytes_nonneg _ Hlenk). lia.
    + intros Hno. rewrite add_to_cache_no_memory by done. fold es. by rewrite Hk.
  - intros c Hne. by apply remove_lru_element_oldest.
  - intros turns p states' Hempty Hturns.
    eapply Forall_impl; [eapply run_turns_ok; [|exact Hturns]|].
    + rewrite Hempty. apply cache_ok_empty.
    + intros p' (Hsz & _ & Hmax). split; [lia|done].
Qed.

(** ** Byte counts near [INT_MAX] *)

Lemma length_huge_data : Z.of_nat (length huge_data) = huge_size.
Proof. unfold huge_data. rewrite repeat_length. apply Z2Nat.id. by vm_compute. Qed.

(** A byte count near [INT_MAX] makes [element_size] wrap to a negative
    number: the size test lets the insertion through, and the counter goes
    below zero. *)
Lemma add_to_cache_wraps d u :
  Z.of_nat (length d) = huge_size -> strlen u = 1 ->
  add_to_cache (allocs_ok 1) d huge_size u empty_cache =
    Returns (1, {| cache_list := [new_element (allocs_ok 1) d huge_size u];
                   cache_size := -2147483631 |}).
Proof.
  intros Hd Hu. unfold add_to_cache. rewrite Hu, Hd.
  replace (to_int (huge_size + 1 + sizeof_cache_element)) with (-2147483631)
    by (by vm_compute).
  replace (-2147483631 >? MAX_ELEMENT_SIZE) with false by (by vm_compute).
  rewrite make_space_empty. cbn [allocs_ok malloc_element malloc_data malloc_url negb].
  replace (0 <=? to_int (huge_size + 1)) with true by (by vm_compute).
  cbn [andb orb negb].
  replace (huge_size <? 0) with false by (by vm_compute).
  rewrite Z.ltb_irrefl. cbn [orb empty_cache cache_list cache_size].
  reflexivity.
Qed.

Lemma run_ops_one_insert o d size u c r c' :
  add_to_cache o d size u c = Returns (r, c') ->
  run_ops [OpInsert o d size u] c = Returns [c'].
Proof. intros H. cbn [run_ops apply_op]. by rewrite H. Qed.

Lemma cache_bytes_one o d size u n :
  cache_bytes (cache_list {| cache_list := [new_element o d size u]; cache_size := n |})
  = size + strlen u + sizeof_cache_element.
Proof. cbn [cache_list cache_bytes foldr]. rewrite entry_bytes_new. lia. Qed.

(** C5 as stated fails: one insertion of 2147483600 bytes, on the empty
    cache, is accepted, and the footprints then sum to 2147483665, more than
    [MAX_SIZE]. *)
Lemma capacity_exceeded_by_wrapped_size :
  exists c',
    run_ops [OpInsert (allocs_ok 1) huge_data huge_size (lit "k")] empty_cache
      = Returns [c'] /\
    cache_bytes (cache_list c') = 2147483665 /\
    MAX_SIZE < cache_bytes (cache_list c').
Proof.
  eexists. split.
  { eapply run_ops_one_insert. apply add_to_cache_wraps; [apply length_huge_data|].
    by vm_compute. }
  rewrite cache_bytes_one. split; by vm_compute.
Qed.

(** C9 as stated fails: the empty cache has an exact counter, and after the
    insertion of 2147483600 bytes the counter is -2147483631 while the
    footprint of the linked entry is 2147483665. *)
Lemma counter_inexact_after_wrapped_size :
  cache_size empty_cache = cache_bytes (cache_list empty_cache) /\
  exists c',
    add_to_cache (allocs_ok 1) huge_data huge_size (lit "q") empty_cache
      = Returns (1, c') /\
    cache_size c' = -2147483631 /\
    cache_bytes (cache_list c') = 2147483665 /\
    cache_size c' <> cache_bytes (cache_list c').
Proof.
  split; [reflexivity|]. eexists. split.
  { apply add_to_cache_wraps; [apply length_huge_data|]. by vm_compute. }
  rewrite cache_bytes_one. cbn [cache_size]. split; [reflexivity|]. split; by vm_compute.
Qed.

(** ** The theorems at concrete inputs *)

(** C3 as stated fails: a cache that holds one entry under the key ["k"]
    holds two after an insertion under ["k"]; the old entry is still linked,
    behind the new one. *)
Lemma insert_existing_key_not_replaced :
  let old := new_element (allocs_ok 1) (lit "old") 3 (lit "k") in
  let new := new_element (allocs_ok 2) (lit "new") 3 (lit "k") in
  let c := {| cache_list := [old]; cache_size := 68 |} in
  let c' := {| cache_list := [new; old]; cache_size := 136 |} in
  cache_ok c /\ count_key (lit "k") (cache_list c) = 1%nat /\
  add_to_cache (allocs_ok 2) (lit "new") 3 (lit "k") c = Returns (1, c') /\
  count_key (lit "k") (cache_list c') = 2%nat /\
  ~ (count_key (lit "k") (cache_list c') <= 1)%nat.
Proof.
  repeat split; try (by vm_compute).
  - repeat constructor. by vm_compute.
  - vm_compute. lia.
Qed.

(** C3 on a cache that holds the key already. *)
Lemma insert_keeps_existing_witness :
  let old := new_element (allocs_ok 1) (lit "old") 3 (lit "k") in
  let c := {| cache_list := [old]; cache_size := 68 |} in
  let new := new_element (allocs_ok 2) (lit "new") 3 (lit "k") in
  let c' := {| cache_list := [new; old]; cache_size := 136 |} in
  add_to_cache (allocs_ok 2) (lit "new") 3 (lit "k") c = Returns (1, c') /\
  cache_head c' = Some new /\
  count_key (lit "k") (cache_list c') = S (count_key (lit "k") (cache_list c)) /\
  fst (fst (find_in_cache 3 (lit "k") c' no_stats)) = Some (touch 3 new).
Proof.
  intros old c new c'.
  assert (add_to_cache (allocs_ok 2) (lit "new") 3 (lit "k") c = Returns (1, c')) as H
    by (vm_compute; reflexivity).
  split; [exact H|].
  destruct (insert_keeps_existing _ _ _ _ _ _ 3 no_stats H) as (H1 & _ & H3 & H4).
  split; [exact H1|]. split; [|exact H4].
  apply H3. vm_compute. discriminate.
Defined.

(** C4 after the acceptor has counted its first client. *)
Lemma admission_bound_witness :
  let s := System 1 (Some Acceptor) [] true (AcceptUnlock (item_on 7))
             [WorkerLoop; WorkerLoop] in
  reachable 2 s /\ 0 <= sys_count s <= MAX_CLIENTS.
Proof.
  intros s.
  assert (reachable 2 s) as H.
  { unfold reachable, boot, s. simpl.
    eapply rtc_l; [apply (step_accept _ _ _ _ (item_on 7))|].
    eapply rtc_l; [apply step_accept_lock|].
    eapply rtc_l; [apply step_accept_room; vm_compute; reflexivity|].
    eapply rtc_l; [apply step_accept_load|].
    eapply rtc_l; [apply step_accept_store|].
    apply rtc_refl. }
  split; [exact H|]. exact (proj1 (admission_bound 2 s H)).
Defined.

(** C5 on two insertions, a lookup and an eviction. *)
Lemma cache_capacity_witness :
  let ops := [OpInsert (allocs_ok 1) (lit "abc") 3 (lit "k1");
              OpInsert (allocs_ok 2) (lit "de") 2 (lit "k2");
              OpLookup 3 (lit "k1"); OpEvict] in
  Forall op_fits ops /\
  exists states,
    run_ops ops empty_cache = Returns states /\
    length states = 4%nat /\
    Forall (fun c => cache_bytes (cache_list c) <= MAX_SIZE /\
                     cache_size c = cache_bytes (cache_list c)) states.
Proof.
  intros ops.
  assert (Forall op_fits ops) as H.
  { subst ops. repeat constructor; vm_compute; discriminate. }
  split; [exact H|].
  destruct (cache_capacity ops H) as (states & H1 & H2 & H3 & _).
  exists states. split; [exact H1|]. split; [exact H2|exact H3].
Defined.


(** C7 on the tail of a cache with two entries. *)
Lemma lookup_hit_promotes_witness :
  let a := new_element (allocs_ok 1) (lit "A") 1 (lit "ka") in
  let b := new_element (allocs_ok 2) (lit "B") 1 (lit "kb") in
  let c := {| cache_list := [b; a]; cache_size := 134 |} in
  a ∈ cache_list c /\ strcmp (url a) (lit "ka") = 0 /\
  exists first c1 s1 c2 s2,
    first ∈ cache_list c /\ strcmp (url first) (lit "ka") = 0 /\
    find_in_cache 5 (lit "ka") c no_stats = (Some (touch 5 first), c1, s1) /\
    cache_head c1 = Some (touch 5 first) /\
    access_count (touch 5 first) = to_int (access_count first + 1) /\
    find_in_cache 6 (lit "ka") c1 s1 = (Some (touch 6 (touch 5 first)), c2, s2) /\
    cache_head c2 = Some (touch 6 (touch 5 first)).
Proof.
  intros a b c.
  assert (a ∈ cache_list c) as Hin by (right; left).
  assert (strcmp (url a) (lit "ka") = 0) as Hk by (vm_compute; reflexivity).
  split; [exact Hin|]. split; [exact Hk|].
  destruct (lookup_hit_promotes 5 6 (lit "ka") c no_stats a Hin Hk)
    as (first & c1 & s1 & c2 & s2 & H1 & H2 & H3 & H4 & _ & H6 & _ & _ & _ & H10 & H11 & _).
  exists first, c1, s1, c2, s2. repeat split; assumption.
Defined.

(** C9 on a cache with one entry. *)
Lemma cache_size_exact_witness :
  let old := new_element (allocs_ok 1) (lit "old") 3 (lit "k") in
  let c := {| cache_list := [old]; cache_size := 68 |} in
  cache_ok c /\
  cache_size (remove_lru_element c) = cache_bytes (cache_list (remove_lru_element c)) /\
  exists r c',
    add_to_cache (allocs_ok 2) (lit "new") 3 (lit "q") c = Returns (r, c') /\
    cache_size c' = cache_bytes (cache_list c').
Proof.
  intros old c.
  assert (cache_ok c) as H.
  { split; [vm_compute; reflexivity|].
    split; [repeat constructor; vm_compute; discriminate|vm_compute; discriminate]. }
  split; [exact H|].
  destruct (cache_size_exact c H) as (Hadd & Hrem & _).
  split; [exact Hrem|].
  destruct (Hadd (allocs_ok 2) (lit "new") 3 (lit "q")) as (r & c' & H1 & H2 & _).
  { vm_compute. split; discriminate. }
  { vm_compute. discriminate. }
  exists r, c'. split; [exact H1|exact H2].
Defined.

(** ** The model on small inputs *)

Example parse_absolute :
  ParsedRequest_parse parse_ok
    (lit "GET http://example.com:8080/a/b HTTP/1.1" ++ CRLF ++
     lit "Accept: */*" ++ CRLF ++ CRLF) 57 =
  Returns (Some {| method := Some (lit "GET"); protocol := Some (lit "http");
                   host := Some (lit "example.com"); port := Some (lit "8080");
                   path := Some (lit "a/b"); version := Some (lit "HTTP/1.1");
                   headers := [(lit "Accept", lit "*/*")] |}).
Proof. by vm_compute. Qed.

Example parse_relative_with_host :
  ParsedRequest_parse parse_ok
    (lit "GET /index.html HTTP/1.0" ++ CRLF ++
     lit "HOST:  example.org:81 " ++ CRLF ++ CRLF) 52 =
  Returns (Some {| method := Some (lit "GET"); protocol := None;
                   host := Some (lit "example.org"); port := Some (lit "81");
                   path := Some (lit "/index.html"); version := Some (lit "HTTP/1.0");
                   headers := [(lit "HOST", lit "example.org:81")] |}).
Proof. by vm_compute. Qed.

Example parse_malformed :
  ParsedRequest_parse parse_ok (lit "GET" ++ CRLF ++ CRLF) 7 = Returns None.
Proof. by vm_compute. Qed.

(** [atoi] is [strtol] cut to an [int]. *)
Example atoi_wraps :
  atoi (lit "8080") = 8080 /\ atoi (lit "99999999999") = 1215752191 /\
  atoi (lit "  -12x") = -12 /\ atoi (lit "port") = 0.
Proof. by vm_compute. Qed.

(** Eviction unlinks the entry with the oldest timestamp, and among equal
    timestamps the one nearest the tail. *)
Example eviction_takes_oldest :
  let a := new_element (allocs_ok 1) (lit "A") 1 (lit "ka") in
  let b := new_element (allocs_ok 2) (lit "B") 1 (lit "kb") in
  let b' := new_element (allocs_ok 2) (lit "C") 1 (lit "kc") in
  remove_lru_element {| cache_list := [b; a]; cache_size := 134 |}
    = {| cache_list := [b]; cache_size := 67 |} /\
  remove_lru_element {| cache_list := [a; b]; cache_size := 134 |}
    = {| cache_list := [b]; cache_size := 67 |} /\
  remove_lru_element {| cache_list := [b; b'; a]; cache_size := 201 |}
    = {| cache_list := [b; b']; cache_size := 134 |} /\
  remove_lru_element {| cache_list := [a; b; b']; cache_size := 201 |}
    = {| cache_list := [b; b']; cache_size := 134 |} /\
  remove_lru_element {| cache_list := [b; b']; cache_size := 134 |}
    = {| cache_list := [b]; cache_size := 67 |}.
Proof.
  intros a b b'. repeat (split; [vm_compute; reflexivity|]). vm_compute. reflexivity.
Qed.

Example malformed_request_gets_400 :
  sent_to 5 <$>
    events_of (worker_iteration
                 (env_with [RxData (lit "GET" ++ CRLF ++ CRLF)] [100] (-1) (-1) [])
                 (item_on 5) (idle_state 1))
  = Some [lit "HTTP/1.1 400 Bad Request" ++ CRLF ++
          lit "Content-Length: 95" ++ CRLF ++
          lit "Content-Type: text/html" ++ CRLF ++
          lit "Connection: keep-alive" ++ CRLF ++
          lit "Date: Mon, 02 Nov 2026 08:00:00 GMT" ++ CRLF ++
          lit "Server: HighPerformanceProxy/2.0" ++ CRLF ++ CRLF ++
          lit "<HTML><HEAD><TITLE>400 Bad Request</TITLE></HEAD>
<BODY><H1>400 Bad Request</H1>
</BODY></HTML>"].
Proof. by vm_compute. Qed.

Example post_gets_501 :
  (fun evs => take 24 <$> sent_to 5 evs) <$>
    events_of (worker_iteration
                 (env_with [RxData (lit "POST http://example.com/ HTTP/1.1" ++ CRLF ++
                                    lit "Host: example.com" ++ CRLF ++ CRLF)]
                    [100] (-1) (-1) [])
                 (item_on 5) (idle_state 1))
  = Some [lit "HTTP/1.1 501 Not Impleme"].
Proof. by vm_compute. Qed.

(** * Further properties *)

(** ** The work queue *)

Lemma enqueue_all_app items : forall q,
  count q + Z.of_nat (length items) <= QUEUE_SIZE ->
  enqueue_all items q = Some (q ++ items).
Proof.
  induction items as [|item items IH]; intros q H; simpl.
  { by rewrite app_nil_r. }
  unfold enqueue_request. simpl negb. cbv iota.
  cbn [length] in H.
  destruct (count q >=? QUEUE_SIZE) eqn:E; [lia|].
  rewrite IH; [by rewrite <- app_assoc|]. rewrite count_app. unfold count in *.
  cbn [length]. lia.
Qed.

Lemma dequeue_all_take n : forall q,
  (n <= length q)%nat -> dequeue_all n q = (take n q, drop n q).
Proof.
  induction n as [|n IH]; intros q H; [by rewrite drop_0|].
  destruct q as [|item q]; [simpl in H; lia|].
  cbn [dequeue_all]. unfold dequeue_request.
  assert ((count (item :: q) =? 0) = false) as -> by (unfold count; simpl; lia).
  simpl. rewrite IH; [done|]. simpl in H. lia.
Qed.

(** The queue is first in, first out: items enqueued while there is room are
    appended behind those already linked, no call sleeps, and dequeueing
    hands the items out in the order of their arrival. *)
Theorem queue_fifo (q : work_queue) (items : list work_item) (n : nat) :
  count q + Z.of_nat (length items) <= QUEUE_SIZE ->
  (n <= length (q ++ items))%nat ->
  enqueue_all items q = Some (q ++ items) /\
  dequeue_all n (q ++ items) = (take n (q ++ items), drop n (q ++ items)) /\
  dequeue_all (length (q ++ items)) (q ++ items) = (q ++ items, []).
Proof.
  intros Hroom Hn. split; [by apply enqueue_all_app|].
  split; [by apply dequeue_all_take|].
  rewrite dequeue_all_take by done. by rewrite firstn_all, drop_all.
Qed.

Lemma queue_fifo_witness :
  count [item_on 4] + Z.of_nat (length [item_on 5; item_on 6]) <= QUEUE_SIZE /\
  dequeue_all 2 ([item_on 4] ++ [item_on 5; item_on 6])
    = ([item_on 4; item_on 5], [item_on 6]).
Proof.
  assert (count [item_on 4] + Z.of_nat (length [item_on 5; item_on 6]) <= QUEUE_SIZE) as H
    by (vm_compute; discriminate).
  split; [exact H|].
  destruct (queue_fifo [item_on 4] [item_on 5; item_on 6] 2 H) as (_ & H2 & _).
  - simpl. lia.
  - exact H2.
Defined.

(** ** The queue under interleaving *)

Lemma reachable_admission_inv workers s : reachable workers s -> admission_inv s.
Proof.
  revert s. unfold reachable. apply rtc_ind_r; [apply admission_inv_boot|].
  intros y z _ Hstep IH. by eapply admission_inv_step.
Qed.

(** The acceptor never sleeps on [not_full]: a socket is counted before it
    is enqueued and the counter stays within [MAX_CLIENTS], which is less
    than [QUEUE_SIZE]; so in every state a run reaches the queue holds fewer
    than [MAX_CLIENTS] items when [enqueue_request] is entered, and the call
    appends the item (or drops it when its allocation fails). *)
Theorem enqueue_never_waits (workers : nat) (s : system) (item : work_item) :
  reachable workers s ->
  sys_acceptor s = AcceptEnqueue item ->
  count (sys_queue s) < MAX_CLIENTS /\
  enqueue_request true item (sys_queue s) = EnqueueDone (sys_queue s ++ [item]) /\
  forall malloc_item, enqueue_request malloc_item item (sys_queue s) <> EnqueueWait.
Proof.
  intros Hreach Hacc.
  destruct (reachable_admission_inv _ _ Hreach) as (_ & _ & _ & _ & Hbound).
  unfold pending in Hbound. rewrite Hacc in Hbound. cbn [acceptor_holds] in Hbound.
  pose proof (held_nonneg (sys_workers s)) as Hheld.
  assert (count (sys_queue s) < MAX_CLIENTS) as Hlt by lia.
  assert ((count (sys_queue s) >=? QUEUE_SIZE) = false) as Hroom.
  { unfold MAX_CLIENTS, QUEUE_SIZE in *. lia. }
  split; [done|]. unfold enqueue_request. rewrite Hroom.
  split; [done|]. by intros [].
Qed.

Lemma enqueue_never_waits_witness :
  let s := System 1 None [] true (AcceptEnqueue (item_on 7)) [WorkerLoop; WorkerLoop] in
  reachable 2 s /\
  enqueue_request true (item_on 7) (sys_queue s) = EnqueueDone [item_on 7].
Proof.
  intros s.
  assert (reachable 2 s) as H.
  { unfold reachable, boot, s. simpl.
    eapply rtc_l; [apply (step_accept _ _ _ _ (item_on 7))|].
    eapply rtc_l; [apply step_accept_lock|].
    eapply rtc_l; [apply step_accept_room; vm_compute; reflexivity|].
    eapply rtc_l; [apply step_accept_load|].
    eapply rtc_l; [apply step_accept_store|].
    eapply rtc_l; [apply step_accept_unlock|].
    apply rtc_refl. }
  split; [exact H|].
  exact (proj1 (proj2 (enqueue_never_waits 2 s (item_on 7) H eq_refl))).
Defined.

(** One client whose work item cannot be allocated: the acceptor counts the
    socket, [enqueue_request] closes it and returns, and nothing is left that
    would release the slot. *)
Lemma leak_one_slot n ws (item : work_item) :
  n < MAX_CLIENTS ->
  rtc step (System n None [] true AcceptWait ws) (System (n + 1) None [] true AcceptWait ws).
Proof.
  intros Hn.
  eapply rtc_l; [apply (step_accept _ _ _ _ item)|].
  eapply rtc_l; [apply step_accept_lock|].
  eapply rtc_l; [by apply step_accept_room|].
  eapply rtc_l; [apply step_accept_load|].
  eapply rtc_l; [apply step_accept_store|].
  eapply rtc_l; [apply step_accept_unlock|].
  eapply rtc_l; [by apply step_accept_drop|].
  done.
Qed.

Lemma leak_slots workers (n : nat) :
  Z.of_nat n <= MAX_CLIENTS ->
  rtc step (boot workers)
    (System (Z.of_nat n) None [] true AcceptWait (replicate workers WorkerLoop)).
Proof.
  induction n as [|n IH]; intros Hn; [done|].
  etrans; [apply IH; lia|].
  replace (Z.of_nat (S n)) with (Z.of_nat n + 1) by lia.
  apply (leak_one_slot _ _ (item_on 0)). lia.
Qed.

Lemma starved_step s s' : step s s' -> starved s -> starved s'.
Proof.
  unfold starved.
  destruct 1; cbn [sys_count sys_queue sys_acceptor sys_workers];
    intros (Hn & Hq & Ha & Hws); try done; subst.
  all: try (exfalso; cbn [acceptor_idle] in Ha; unfold MAX_CLIENTS in *; lia).
  all: try (rewrite Forall_lookup in Hws;
            match goal with Hi : _ !! _ = Some _ |- _ => specialize (Hws _ _ Hi) end;
            done).
  all: try (repeat split; try done; apply Forall_insert; done).
  - by destruct r.
  - apply dequeue_request_null in H0 as [-> ->].
    repeat split; try done. by apply Forall_insert.
Qed.

(** Slots of the admission counter can be lost for good. Each client whose
    work item cannot be allocated leaves the counter one higher with nothing
    queued; after [MAX_CLIENTS] of them the proxy is at rest and yet full: in
    every state it reaches from there the counter is still [MAX_CLIENTS], the
    queue is empty and no worker holds a socket, so every client that
    connects is refused. *)
Theorem admission_slots_leak (workers : nat) :
  exists s,
    reachable workers s /\ quiescent s /\ sys_running s = true /\
    sys_count s = MAX_CLIENTS /\
    forall s', rtc step s s' ->
      sys_count s' = MAX_CLIENTS /\ sys_queue s' = [] /\ pending s' = 0 /\
      forall item, sys_acceptor s' <> AcceptEnqueue item.
Proof.
  exists (System MAX_CLIENTS None [] true AcceptWait (replicate workers WorkerLoop)).
  split; [|split; [|split; [done|split; [done|]]]].
  - replace MAX_CLIENTS with (Z.of_nat 1200) by done. apply leak_slots. by vm_compute.
  - repeat split. apply Forall_forall. by intros w [-> _]%elem_of_replicate.
  - intros s' Hrun.
    assert (starved s') as (Hn & Hq & Ha & Hws).
    { revert s' Hrun. apply rtc_ind_r.
      - repeat split; try done. apply Forall_forall. by intros w [-> _]%elem_of_replicate.
      - intros y z _ Hstep IH. by eapply starved_step. }
    repeat split; [done..| |].
    + unfold pending. rewrite Hq.
      assert (held (sys_workers s') = 0) as ->.
      { clear -Hws. induction Hws as [|w ws Hw _ IH]; [done|].
        cbn [held foldr]. fold (held ws). rewrite IH. by destruct w. }
      by destruct (sys_acceptor s').
    + intros item Heq. by rewrite Heq in Ha.
Qed.

(** ** The recency list under a clock that does not run backwards *)

Lemma sublist_Forall {A} (P : A -> Prop) (l' l : list A) :
  sublist l' l -> Forall P l -> Forall P l'.
Proof.
  induction 1 as [|x l1 l2 Hsub IH|x l1 l2 Hsub IH]; [done|..].
  - intros [Hx Hl]%Forall_cons. constructor; [done|by apply IH].
  - intros [_ Hl]%Forall_cons. by apply IH.
Qed.

Lemma recency_sorted_sublist l l' :
  sublist l' l -> recency_sorted l -> recency_sorted l'.
Proof.
  induction 1 as [|x l1 l2 Hsub IH|x l1 l2 Hsub IH]; simpl; [done|..].
  - intros [Hx Hs]. split; [|by apply IH]. by eapply sublist_Forall.
  - intros [_ Hs]. by apply IH.
Qed.

Lemma recency_sorted_last l tail x :
  recency_sorted (l ++ [tail]) -> x ∈ l ++ [tail] ->
  lru_time_track tail <= lru_time_track x.
Proof.
  induction l as [|e l IH]; simpl.
  - intros _ ->%list_elem_of_singleton. lia.
  - intros [He Hs] [->|Hx]%elem_of_cons; [|by apply IH].
    rewrite Forall_forall in He. apply He. apply elem_of_app. right. by left.
Qed.

Lemma lru_scan_keep chain t lru :
  Forall (fun x => t <= lru_time_track x.2) chain -> lru_scan chain t lru = lru.
Proof.
  induction 1 as [|x chain Hx _ IH]; simpl; [done|].
  destruct (_ <? t) eqn:E; [lia|done].
Qed.

Lemma prev_chain_snoc l (tail : cache_element) :
  prev_chain (l ++ [tail]) = (length l, tail) :: prev_chain l.
Proof.
  unfold prev_chain. rewrite imap_app, reverse_app. simpl.
  by rewrite Nat.add_0_r.
Qed.

(** On a list ordered by timestamp the scan settles on [cache_tail]. *)
Lemma remove_lru_element_sorted c :
  recency_sorted (cache_list c) ->
  cache_list (remove_lru_element c) = removelast (cache_list c).
Proof.
  intros Hs. destruct (cache_list c) as [|e0 l0] eqn:Hl using rev_ind.
  { unfold remove_lru_element. by rewrite Hl. }
  clear IHl0. unfold remove_lru_element. rewrite Hl, prev_chain_snoc.
  rewrite <- prev_chain_snoc. rewrite lru_scan_keep.
  - cbn [fst cache_list]. rewrite removelast_last.
    rewrite delete_middle. by rewrite app_nil_r.
  - apply Forall_forall. intros [i x] Hx. apply prev_chain_lookup in Hx.
    cbn [snd]. eapply recency_sorted_last; [done|]. by eapply list_elem_of_lookup_2.
Qed.

Lemma sublist_removelast {A} (l : list A) : sublist (removelast l) l.
Proof.
  induction l as [|x l IH]; [done|]. simpl. destruct l; [by apply sublist_nil_l|].
  by apply sublist_skip.
Qed.

Lemma make_space_loop_prefix turns es : forall c,
  recency_sorted (cache_list c) ->
  exists k, cache_list (make_space_loop turns es c) = take k (cache_list c).
Proof.
  induction turns as [|turns IH]; intros c Hs; simpl.
  { exists (length (cache_list c)). by rewrite firstn_all. }
  destruct (_ && _).
  - destruct (IH (remove_lru_element c)) as [k Hk].
    { rewrite remove_lru_element_sorted by done.
      eapply recency_sorted_sublist; [apply sublist_removelast|done]. }
    rewrite Hk, remove_lru_element_sorted by done.
    rewrite removelast_firstn_len, take_take. by eexists.
  - exists (length (cache_list c)). by rewrite firstn_all.
Qed.

Lemma recency_sorted_cons e l :
  recency_sorted l -> Forall (fun x => lru_time_track x <= lru_time_track e) l ->
  recency_sorted (e :: l).
Proof. by split. Qed.

Lemma find_in_cache_list now u c s :
  cache_list (snd (fst (find_in_cache now u c s))) = cache_list c \/
  exists i e,
    cache_list c !! i = Some e /\
    cache_list (snd (fst (find_in_cache now u c s))) = touch now e :: delete i (cache_list c).
Proof.
  unfold find_in_cache.
  destruct (cache_walk u (cache_list c)) as [i|] eqn:Hw; [|by left].
  destruct (cache_walk_Some _ _ _ Hw) as (e & Hi & He & _). rewrite Hi, He.
  cbn [fst snd cache_list]. right. exists i, e. split; [done|].
  case_decide as H0; [|done]. subst i. by apply insert_head_delete with e.
Qed.

(** The invariant behind the next theorem: the list is ordered and no
    element is newer than the clock. *)
Lemma apply_op_sorted op c c' t t' :
  recency_sorted (cache_list c) ->
  Forall (fun x => lru_time_track x <= t) (cache_list c) ->
  t <= t' -> (forall n, op_time op = Some n -> n = t') ->
  apply_op op c = Returns c' ->
  recency_sorted (cache_list c') /\
  Forall (fun x => lru_time_track x <= t') (cache_list c').
Proof.
  intros Hs Hb Ht Hop.
  assert (forall l', sublist l' (cache_list c) ->
            recency_sorted l' /\ Forall (fun x => lru_time_track x <= t') l') as Hsub.
  { intros l' Hl'. split; [by eapply recency_sorted_sublist|].
    apply (sublist_Forall _ l' (cache_list c)); [done|].
    eapply Forall_impl; [exact Hb|]. simpl. intros; lia. }
  destruct op as [o d size u| |now u]; cbn [apply_op].
  - specialize (Hop (time_lru o) eq_refl).
    destruct (make_space_loop_prefix (length (cache_list c))
                (to_int (size + strlen u + sizeof_cache_element)) c Hs) as [k Hk].
    fold (make_space (to_int (size + strlen u + sizeof_cache_element)) c) in Hk.
    assert (sublist (cache_list (make_space
              (to_int (size + strlen u + sizeof_cache_element)) c)) (cache_list c)) as Hms.
    { rewrite Hk. apply sublist_take. }
    destruct (add_to_cache_cases o d size u c) as [[E _]|[[E _]|[[E _]|[E _]]]]; rewrite E;
      cbn [and_then]; [| |done|]; intros [= <-].
    + by apply Hsub.
    + by apply Hsub.
    + destruct (Hsub _ Hms) as [H1 H2]. cbn [cache_list]. split.
      * apply recency_sorted_cons; [done|]. simpl. by rewrite Hop.
      * constructor; [simpl; lia|done].
  - intros [= <-]. rewrite remove_lru_element_sorted by done.
    apply Hsub, sublist_removelast.
  - intros [= <-]. specialize (Hop now eq_refl). subst t'.
    destruct (find_in_cache_list now u c no_stats) as [->|(i & e & Hi & ->)];
      [by apply Hsub|].
    destruct (Hsub (delete i (cache_list c)) (sublist_delete _ _)) as [H1 H2].
    split; [by apply recency_sorted_cons|]. constructor; [simpl; lia|done].
Qed.

Lemma run_ops_sorted ops : forall c t states,
  recency_sorted (cache_list c) ->
  Forall (fun x => lru_time_track x <= t) (cache_list c) ->
  Forall (fun t' => t <= t') (omap op_time ops) ->
  clock_monotone (omap op_time ops) ->
  run_ops ops c = Returns states ->
  Forall (fun c' => recency_sorted (cache_list c')) states.
Proof.
  induction ops as [|op ops IH]; intros c t states Hs Hb Hge Hmono; cbn [run_ops].
  { intros [= <-]. constructor. }
  destruct (apply_op op c) as [c'|] eqn:Hop'; cbn [and_then]; [|done].
  destruct (run_ops ops c') as [rest|] eqn:Hrest; cbn [and_then]; [|done].
  intros [= <-].
  cbn [omap list_omap] in Hge, Hmono.
  destruct (op_time op) as [t'|] eqn:Hop.
  - apply Forall_cons in Hge as [Ht Hge]. destruct Hmono as [Hnext Hmono].
    destruct (apply_op_sorted op c c' t t' Hs Hb Ht) as [Hs' Hb']; [|done|].
    { intros n Hn. congruence. }
    constructor; [done|]. by apply (IH c' t').
  - destruct (apply_op_sorted op c c' t t Hs Hb) as [Hs' Hb'];
      [lia|intros n Hn; congruence|done|].
    constructor; [done|]. by apply (IH c' t).
Qed.

(** When the clock never runs backwards, the recency list stays ordered by
    timestamp, newest at the head; the scan of [remove_lru_element] then
    always settles on [cache_tail], and the eviction loop of [add_to_cache]
    cuts the list from its tail: what it leaves is a prefix of what it found.
    The cache evicts in the order of least recent use. *)
Theorem eviction_takes_tail (ops : list cache_op) (states : list cache_state) :
  clock_monotone (omap op_time ops) ->
  run_ops ops empty_cache = Returns states ->
  forall c, c ∈ empty_cache :: states ->
    recency_sorted (cache_list c) /\
    cache_list (remove_lru_element c) = removelast (cache_list c) /\
    forall element_size,
      exists k, cache_list (make_space element_size c) = take k (cache_list c).
Proof.
  intros Hmono Hrun c Hc.
  assert (recency_sorted (cache_list c)) as Hs.
  { apply elem_of_cons in Hc as [->|Hc]; [done|].
    assert (Forall (fun c' => recency_sorted (cache_list c')) states) as H.
    { destruct (omap op_time ops) as [|t0 times] eqn:Htimes.
      - apply (run_ops_sorted ops empty_cache 0); rewrite ?Htimes; by try constructor.
      - apply (run_ops_sorted ops empty_cache t0); rewrite ?Htimes; try done;
          try by constructor.
        destruct Hmono as [Hge _]. constructor; [lia|done]. }
    rewrite Forall_forall in H. by apply H. }
  split; [done|]. split; [by apply remove_lru_element_sorted|].
  intros es. by apply make_space_loop_prefix.
Qed.

Lemma eviction_takes_tail_witness :
  let ops := [OpInsert (allocs_ok 1) (lit "abc") 3 (lit "k1");
              OpInsert (allocs_ok 2) (lit "de") 2 (lit "k2");
              OpLookup 3 (lit "k1")] in
  let a := new_element (allocs_ok 1) (lit "abc") 3 (lit "k1") in
  let b := new_element (allocs_ok 2) (lit "de") 2 (lit "k2") in
  let c := {| cache_list := [touch 3 a; b]; cache_size := 137 |} in
  clock_monotone (omap op_time ops) /\
  cache_list (remove_lru_element c) = [touch 3 a].
Proof.
  intros ops a b c.
  assert (clock_monotone (omap op_time ops)) as Hmono.
  { simpl. repeat split; repeat constructor; lia. }
  split; [exact Hmono|].
  assert (run_ops ops empty_cache
          = Returns [ {| cache_list := [a]; cache_size := 69 |};
                      {| cache_list := [b; a]; cache_size := 137 |}; c ]) as Hrun
    by (vm_compute; reflexivity).
  destruct (eviction_takes_tail ops _ Hmono Hrun c) as (_ & H & _).
  - do 3 right. left.
  - exact H.
Defined.

(** ** Lookups keep what is cached *)

(** A lookup, hit or miss, neither drops nor alters a cached response: the
    keys, lengths and data in the list afterwards are those before, up to
    the order, and [cache_size] is unchanged. *)
Theorem lookup_keeps_content (now : Z) (u : bytes) (c : cache_state) (s : stats_t) :
  content <$> cache_list (snd (fst (find_in_cache now u c s))) ≡ₚ content <$> cache_list c /\
  cache_size (snd (fst (find_in_cache now u c s))) = cache_size c /\
  length (cache_list (snd (fst (find_in_cache now u c s)))) = length (cache_list c).
Proof.
  assert (cache_size (snd (fst (find_in_cache now u c s))) = cache_size c) as Hsize.
  { unfold find_in_cache. destruct (cache_walk u (cache_list c)) as [i|]; [|done].
    destruct (cache_list c !! i) as [e|]; [|done]. by destruct (strcmp (url e) u =? 0). }
  destruct (find_in_cache_list now u c s) as [->|(i & e & Hi & ->)]; [done|].
  split; [|split; [done|]].
  - rewrite (delete_Permutation _ _ _ Hi) at 2. done.
  - rewrite (delete_Permutation _ _ _ Hi) at 2. done.
Qed.

(** ** The capture buffer is never reallocated *)

Lemma capture_never_grows_witness :
  let t := {| response_buffer := []; total_received := 0; buffer_size := MAX_ELEMENT_SIZE;
              block := Some MAX_ELEMENT_SIZE |} in
  tee_ok t /\ capture true (lit "abc") 3 t = capture false (lit "abc") 3 t.
Proof.
  intros t. split; [apply tee_ok_start|].
  apply (capture_never_grows (lit "abc") 3 t); [apply tee_ok_start| |reflexivity].
  vm_compute. split; [reflexivity|discriminate].
Defined.

(** ** The handler and the upstream socket *)

(** The handler never leaks or doubly releases the upstream descriptor: a
    call that returns 0 has handed the socket to the pool once and has not
    closed it; a call that returns -1 after [connectRemoteServer] succeeded
    has closed the socket once and has not pooled it. A call that fails has
    sent the client nothing and has left the cache and the statistics as
    they were. *)
Theorem handler_releases_upstream (e : worker_env) (tx : list Z) (client : Z)
    (request : ParsedRequest) (temp_req : bytes) (c : cache_state) (s : stats_t)
    (ret : Z) (evs : list event) (tx' : list Z) (c' : cache_state) (s' : stats_t) :
  handle_request_optimized e tx client request temp_req c s
    = Returns (ret, evs, tx', c', s') ->
  let remote := connect_result e in
  (ret = 0 \/ ret = -1) /\
  (ret = 0 ->
   0 <= remote /\ tally (is_return_pooled remote) evs = 1%nat /\
   tally (is_close remote) evs = 0%nat) /\
  (ret = -1 ->
   tally (is_return_pooled remote) evs = 0%nat /\
   tally (is_close remote) evs
     = (if malloc_send_buffer e && (0 <=? remote) then 1%nat else 0%nat) /\
   sent_to client evs = [] /\ tx' = tx /\ c' = c /\ s' = s).
Proof.
  intros Hh remote.
  destruct (handle_request_optimized_shape _ _ _ _ _ _ _ _ _ _ _ _ Hh)
    as [(Hno & -> & -> & -> & -> & ->)|(text & Hsb & _ & Hshape)].
  { rewrite Hno. cbn [andb]. split; [by right|]. split; [done|]. by intros _. }
  cbv zeta in Hshape. fold remote in Hshape. rewrite Hsb. cbn [andb].
  destruct Hshape as [(Hneg & -> & -> & -> & -> & ->)
                     |[(Hpos & -> & -> & _ & -> & -> & ->)
                      |(Hpos & _ & -> & sends & Hsends & ->)]].
  - split; [by right|]. split; [done|]. intros _.
    assert ((0 <=? remote) = false) as -> by lia. done.
  - split; [by right|]. split; [done|]. intros _.
    assert ((0 <=? remote) = true) as -> by lia.
    rewrite !tally_cons, !tally_nil. cbn [is_return_pooled is_close sent_to].
    rewrite Z.eqb_refl. done.
  - split; [by left|]. split; [|done]. intros _. split; [done|].
    assert (tally (is_return_pooled remote) sends = 0%nat) as Hp
      by (by apply (tally_sends _ client)).
    assert (tally (is_close remote) sends = 0%nat) as Hcl
      by (by apply (tally_sends _ client)).
    rewrite !tally_app, !tally_cons, !tally_nil, Hp, Hcl.
    cbn [is_return_pooled is_close]. rewrite Z.eqb_refl. done.
Qed.

Lemma handler_releases_upstream_witness :
  let e := env_with [] [] 11 (-1) [] in
  let evs := [EvConnect (lit "a") 80 11; EvSendUpstream 11 s5_forwarded (-1); EvClose 11] in
  handle_request_optimized e [] 5 s5_parsed s5_request empty_cache no_stats
    = Returns (-1, evs, [], empty_cache, no_stats) /\
  tally (is_close 11) evs = 1%nat /\ tally (is_return_pooled 11) evs = 0%nat.
Proof.
  intros e evs.
  assert (handle_request_optimized e [] 5 s5_parsed s5_request empty_cache no_stats
          = Returns (-1, evs, [], empty_cache, no_stats)) as H by (vm_compute; reflexivity).
  split; [exact H|].
  destruct (handler_releases_upstream _ _ _ _ _ _ _ _ _ _ _ _ H) as (_ & _ & H1).
  destruct (H1 eq_refl) as (Hp & Hc & _). split; [exact Hc|exact Hp].
Defined.

(** ** Serving a hit in pieces *)

Lemma delivered_cons_send fd d r evs :
  delivered fd (EvSend fd d r :: evs) = take (Z.to_nat r) d ++ delivered fd evs.
Proof. simpl. by rewrite Z.eqb_refl. Qed.

Lemma chunk_size_at_min cached sent :
  0 <= sent < len cached -> len cached < 2 ^ 63 ->
  chunk_size_at cached sent = Z.min MAX_BYTES (len cached - sent).
Proof.
  intros Hs Hmax. unfold chunk_size_at. rewrite to_size_t_id by lia.
  destruct (_ >? MAX_BYTES) eqn:E; lia.
Qed.

Lemma cached_chunk_data cached sent :
  len cached = Z.of_nat (length (data cached)) -> 0 <= sent < len cached ->
  len cached < 2 ^ 63 ->
  cached_chunk cached sent
    = take (Z.to_nat (Z.min MAX_BYTES (len cached - sent)))
        (drop (Z.to_nat sent) (data cached)) /\
  Z.of_nat (length (cached_chunk cached sent)) = Z.min MAX_BYTES (len cached - sent).
Proof.
  intros Hlen Hs Hmax. unfold cached_chunk. rewrite chunk_size_at_min by done.
  unfold data_block. rewrite drop_app_le by lia.
  assert (take (Z.to_nat (Z.min MAX_BYTES (len cached - sent)))
            (drop (Z.to_nat sent) (data cached) ++ [NUL])
          = take (Z.to_nat (Z.min MAX_BYTES (len cached - sent)))
              (drop (Z.to_nat sent) (data cached))) as ->.
  { apply take_app_le. rewrite length_drop. lia. }
  split; [done|]. rewrite length_take, length_drop. unfold MAX_BYTES. lia.
Qed.

Lemma serve_cached_delivered client cached tx : forall sent evs tx',
  len cached = Z.of_nat (length (data cached)) -> len cached < 2 ^ 63 ->
  0 <= sent <= len cached ->
  serve_cached client cached tx sent = Returns (evs, tx') ->
  Forall send_within evs ->
  (exists n, (Z.to_nat sent <= n)%nat /\
     delivered client evs = take (n - Z.to_nat sent) (drop (Z.to_nat sent) (data cached))) /\
  (Forall send_succeeded evs -> delivered client evs = drop (Z.to_nat sent) (data cached)).
Proof.
  assert (forall sent, len cached = Z.of_nat (length (data cached)) -> sent = len cached ->
            (exists n, (Z.to_nat sent <= n)%nat /\
               @nil ascii = take (n - Z.to_nat sent) (drop (Z.to_nat sent) (data cached))) /\
            (Forall send_succeeded [] -> @nil ascii = drop (Z.to_nat sent) (data cached)))
    as Hdone.
  { intros sent Hlen ->. rewrite Hlen, Nat2Z.id, drop_all. split; [|done].
    exists (length (data cached)). split; [lia|]. by rewrite take_nil. }
  induction tx as [|r tx IH]; intros sent evs tx' Hlen Hmax Hs; cbn [serve_cached];
    rewrite (to_size_t_id (len cached)) by lia.
  - destruct (sent <? len cached) eqn:E.
    2: { intros [= <- <-] _. apply Hdone; [done|lia]. }
    destruct (_ >? _); [done|]. intros [= <- <-] _. split.
    + exists (Z.to_nat sent). split; [lia|]. rewrite delivered_cons_send.
      cbn [delivered]. rewrite app_nil_r. replace (Z.to_nat (-1)) with 0%nat by lia.
      by rewrite Nat.sub_diag.
    + intros Hok. apply Forall_cons in Hok as [Hok _]. simpl in Hok. lia.
  - destruct (sent <? len cached) eqn:E.
    2: { intros [= <- <-] _. apply Hdone; [done|lia]. }
    destruct (_ >? _); [done|].
    destruct (cached_chunk_data cached sent Hlen ltac:(lia) Hmax) as [Hchunk Hchunk_len].
    destruct (r <=? 0) eqn:Er.
    + intros [= <- <-] _. split.
      * exists (Z.to_nat sent). split; [lia|]. rewrite delivered_cons_send.
        cbn [delivered]. rewrite app_nil_r. replace (Z.to_nat r) with 0%nat by lia.
        by rewrite Nat.sub_diag.
      * intros Hok. apply Forall_cons in Hok as [Hok _]. simpl in Hok. lia.
    + destruct (serve_cached client cached tx _) as [[evs0 tx0]|] eqn:Hrest;
        cbn [and_then]; [|done].
      intros [= <- <-] [Hin Hall]%Forall_cons. cbn [send_within] in Hin.
      rewrite Hchunk_len in Hin.
      rewrite to_size_t_id in Hrest by (unfold MAX_BYTES in *; lia).
      destruct (IH (sent + r) evs0 tx0 Hlen Hmax ltac:(lia) Hrest Hall)
        as [(n & Hn & IH1) IH2].
      assert (take (Z.to_nat r) (cached_chunk cached sent)
              = take (Z.to_nat r) (drop (Z.to_nat sent) (data cached))) as Hfirst.
      { rewrite Hchunk, take_take. f_equal. lia. }
      assert (forall m, take (Z.to_nat r) (drop (Z.to_nat sent) (data cached))
                        ++ take m (drop (Z.to_nat (sent + r)) (data cached))
                        = take (Z.to_nat r + m) (drop (Z.to_nat sent) (data cached)))
        as Hjoin.
      { intros m. replace (Z.to_nat (sent + r)) with (Z.to_nat sent + Z.to_nat r)%nat by lia.
        rewrite <- drop_drop. rewrite <- take_take_drop. done. }
      split.
      * exists n. split; [lia|]. rewrite delivered_cons_send, Hfirst, IH1, Hjoin.
        f_equal. lia.
      * intros [_ Hok]%Forall_cons. rewrite delivered_cons_send, Hfirst, (IH2 Hok).
        replace (Z.to_nat (sent + r)) with (Z.to_nat sent + Z.to_nat r)%nat by lia.
        rewrite <- drop_drop. apply take_drop.
Qed.

(** A hit is served from the cached data in order, in pieces of at most
    [MAX_BYTES] bytes, and a partial [send] is resumed at the byte where it
    stopped: what the client socket accepted is always a prefix of the data,
    and all of it when no [send] failed. *)
Theorem hit_delivers_data (client : Z) (cached : cache_element) (tx : list Z)
    (evs : list event) (tx' : list Z) :
  len cached = Z.of_nat (length (data cached)) -> len cached < 2 ^ 63 ->
  serve_cached client cached tx 0 = Returns (evs, tx') ->
  Forall send_within evs ->
  (exists n, delivered client evs = take n (data cached)) /\
  (Forall send_succeeded evs -> delivered client evs = data cached) /\
  Forall (fun d => Z.of_nat (length d) <= MAX_BYTES) (sent_to client evs).
Proof.
  intros Hlen Hmax Hhit Hin.
  destruct (serve_cached_delivered client cached tx 0 evs tx' Hlen Hmax) as [(n & _ & H1) H2];
    [lia|done|done|].
  simpl in H1, H2. rewrite drop_0, Nat.sub_0_r in *.
  split; [by exists n|]. split; [done|].
  eapply Forall_impl; [eapply serve_cached_chunks; exact Hhit|].
  intros d [sent ->]. unfold cached_chunk. rewrite length_take.
  unfold chunk_size_at. destruct (_ >? MAX_BYTES) eqn:E; unfold MAX_BYTES in *; lia.
Qed.

Lemma hit_delivers_data_witness :
  let cached := new_element (allocs_ok 1) (lit "hello") 5 (lit "k") in
  let evs := [EvSend 5 (lit "hello") 2; EvSend 5 (lit "llo") 3] in
  serve_cached 5 cached [2; 3] 0 = Returns (evs, []) /\
  delivered 5 evs = lit "hello".
Proof.
  intros cached evs.
  assert (serve_cached 5 cached [2; 3] 0 = Returns (evs, [])) as H
    by (vm_compute; reflexivity).
  split; [exact H|].
  destruct (hit_delivers_data 5 cached [2; 3] evs [] eq_refl) as (_ & H2 & _).
  - vm_compute. reflexivity.
  - exact H.
  - repeat constructor; vm_compute; discriminate.
  - apply H2. repeat constructor.
Defined.

(** ** A response fetched once is served from the cache afterwards *)






(** ** The request buffer *)

Lemma cstr_stops (b : bytes) (i : nat) : b !! i = Some NUL -> (length (cstr b) <= i)%nat.
Proof.
  revert i. induction b as [|c b IH]; intros i Hi; [done|].
  destruct i as [|i]; simpl in *.
  - injection Hi as ->. simpl. lia.
  - destruct (Ascii.eqb c NUL); simpl; [lia|]. specialize (IH i Hi). lia.
Qed.

Lemma write_at_lookup_after off d buf (i : nat) :
  0 <= off -> off + Z.of_nat (length d) <= Z.of_nat i -> (i < length buf)%nat ->
  write_at off d buf !! i = buf !! i.
Proof.
  intros H0 H1 H2. unfold write_at.
  rewrite lookup_app_r by (rewrite length_take; lia).
  rewrite length_take.
  rewrite lookup_app_r by lia. rewrite lookup_drop. f_equal.
  rewrite Nat.min_l by lia. lia.
Qed.

Lemma lookup_repeat {A} (x : A) (n i : nat) : (i < n)%nat -> repeat x n !! i = Some x.
Proof.
  revert i. induction n as [|n IH]; intros i Hi; [lia|].
  destruct i as [|i]; [done|]. cbn [repeat]. apply IH. lia.
Qed.

Lemma recv_more_terminated script : forall buffer bytes_received,
  Z.of_nat (length buffer) = MAX_BYTES ->
  buffer !! Z.to_nat (MAX_BYTES - 1) = Some NUL ->
  fst (recv_more script buffer bytes_received) !! Z.to_nat (MAX_BYTES - 1) = Some NUL.
Proof.
  destruct constants as (HB & _).
  induction script as [|r script IH]; intros buffer n Hlen Hlast; cbn [recv_more].
  { by destruct (_ && _). }
  destruct (_ && _); [|done].
  assert (0 <= strlen buffer <= MAX_BYTES - 1) as Hs.
  { unfold strlen. pose proof (cstr_stops buffer _ Hlast). lia. }
  pose proof (recv_length [r] (MAX_BYTES - strlen buffer - 1)) as Hrecv.
  destruct (recv [r] _) as [[additional got] rest].
  destruct Hrecv as (H1 & H2 & H3); [lia|].
  destruct (additional <=? 0); [done|].
  apply IH.
  - rewrite write_at_length; lia.
  - rewrite write_at_lookup_after; [done|lia|lia|lia].
Qed.

(** The request buffer stays a C string inside its allocation: whatever the
    client sends and however the reads are cut, the buffer keeps its
    [MAX_BYTES] bytes, its last byte is still the NUL [calloc] put there, and
    [strlen(buffer)] is at most [MAX_BYTES - 1]; so the length every [recv]
    of the loop is given is not negative and ends before the last byte. *)
Theorem request_buffer_terminated (script : list rx) :
  let buffer := fst (read_request script) in
  Z.of_nat (length buffer) = MAX_BYTES /\
  buffer !! Z.to_nat (MAX_BYTES - 1) = Some NUL /\
  0 <= strlen buffer <= MAX_BYTES - 1 /\
  strlen (strdup buffer) = strlen buffer.
Proof.
  cbv zeta. destruct constants as (HB & _).
  assert (fst (read_request script) !! Z.to_nat (MAX_BYTES - 1) = Some NUL) as Hlast.
  { unfold read_request.
    pose proof (recv_length script (MAX_BYTES - 1)) as Hrecv.
    destruct (recv script (MAX_BYTES - 1)) as [[n got] rest].
    destruct Hrecv as (H1 & H2 & H3); [lia|].
    assert (length (repeat NUL (Z.to_nat MAX_BYTES)) = Z.to_nat MAX_BYTES) as Hrep
      by apply repeat_length.
    apply recv_more_terminated.
    - rewrite write_at_length; rewrite ?Hrep; lia.
    - rewrite write_at_lookup_after; rewrite ?Hrep; try lia.
      apply lookup_repeat. lia. }
  pose proof (cstr_stops _ _ Hlast) as Hstop.
  split; [apply read_request_length|]. split; [exact Hlast|].
  split; [unfold strlen; lia|]. apply strlen_cstr.
Qed.
